(** * LLM council pipeline: a shallow embedding of [backend/llm_service.py],
    [backend/council.py] and [backend/models.py], with the properties of
    the specification that are about them.

    Python [str] values are lists of Unicode code points, Python [int]s are
    [Z], floats are rationals, a [dict] is the list of its items in
    insertion order, exceptions are values of [exn], and the service layer
    and the orchestrator run in a state-and-exception monad over a [World]
    that holds the session objects and records every HTTP request issued. *)

From Stdlib Require Import ZArith NArith QArith Qcanon Qround List Sorted Ascii String Lia.
From stdpp Require Import base option list pretty.

Local Open Scope Z_scope.

(** ** Python strings *)

Abbreviation pystr := (list N).

Definition py (s : string) : pystr := N_of_ascii <$> list_ascii_of_string s.

(** What the interpreter and its Unicode database decide: the tables behind
    [\d], [\s], [int()], [str.strip], [str.lower] and case-insensitive
    matching, the limit of [int()] on long digit strings
    ([sys.get_int_max_str_digits()], 0 when disabled), and the rendering of
    numbers in f-strings. *)
Class Runtime := {
  unicode_decimal : N → option Z;
  unicode_isspace : N → bool;
  sre_ci_match : N → N → bool;
  str_lower : pystr → pystr;
  int_max_str_digits : nat;
  format_1f : Qc → pystr;
}.

(** ** Exceptions and fallible computations *)

Inductive exn :=
  | ValueError (msg : pystr)
  | RuntimeError (msg : pystr)
  | IndexError (msg : pystr)
  | ValidationError (msg : pystr)
  | TimeoutException (msg : pystr)
  | TransportError (msg : pystr)
  | DecodeError (msg : pystr).

(** [str(e)] *)
Definition exn_str (e : exn) : pystr :=
  match e with
  | ValueError m | RuntimeError m | IndexError m | ValidationError m
  | TimeoutException m | TransportError m | DecodeError m => m
  end.

Abbreviation result := (sum exn).

Definition raise {A} (e : exn) : result A := inl e.

Definition rbind {A B} (r : result A) (k : A → result B) : result B :=
  match r with
  | inl e => inl e
  | inr a => k a
  end.

(** [try: body  except Exception as e: handler(e)] *)
Definition try_except {A} (body : result A) (handler : exn → result A) : result A :=
  match body with
  | inl e => handler e
  | inr a => inr a
  end.

Declare Scope result_scope.
Delimit Scope result_scope with result.
Notation "x <~ r ;; k" := (rbind r (fun x => k))
  (at level 20, r at level 99, k at level 200, only parsing) : result_scope.
Notation "' p <~ r ;; k" := (rbind r (fun x => match x with p => k end))
  (at level 20, p pattern, r at level 99, k at level 200, only parsing) : result_scope.

(** ** String primitives *)

Fixpoint dropwhile {A} (f : A → bool) (l : list A) : list A :=
  match l with
  | [] => []
  | x :: l' => if f x then dropwhile f l' else l
  end.

Section Strings.
Context `{Runtime}.

Definition is_decimal (c : N) : bool := bool_decide (is_Some (unicode_decimal c)).

(** [int(s)] on a string of decimal digits (what [\d+] captures). *)
Definition py_int (s : pystr) : result Z :=
  if bool_decide (int_max_str_digits ≠ 0%nat ∧ (int_max_str_digits < length s)%nat)
  then raise (ValueError (py "Exceeds the limit for integer string conversion"))
  else
    match s with
    | [] => raise (ValueError (py "invalid literal for int() with base 10"))
    | _ =>
      foldl (fun acc c =>
               match acc, unicode_decimal c with
               | inr v, Some d => inr (v * 10 + d)
               | inr _, None => raise (ValueError (py "invalid literal for int() with base 10"))
               | inl e, _ => inl e
               end) (inr 0) s
    end.

Definition lstrip (s : pystr) : pystr := dropwhile unicode_isspace s.
Definition rstrip (s : pystr) : pystr := reverse (dropwhile unicode_isspace (reverse s)).
(** [s.strip()] *)
Definition strip (s : pystr) : pystr := rstrip (lstrip s).
End Strings.

(** ** The fragment of [re] that the review parser uses

    A pattern is a sequence of items; [re.escape] turns every character of
    a label into a literal, and the flags [IGNORECASE | DOTALL] make
    literals case-insensitive and let [.] match a line break. Matching is
    by backtracking with the priorities of the [re] module: [.*?] first
    tries to consume nothing, [+] first consumes as many characters as it
    can. *)

Inductive re_item :=
  | Lit (c : N)                            (* one literal character *)
  | LazyAny                                (* .*? *)
  | Plus (cls : N → bool) (capture : bool) (* cls+ or (cls+) *).

Section Regex.
Context `{Runtime}.

(** The continuation [k] matches the rest of the pattern and returns the
    groups it captured. *)
Fixpoint lazy_any (k : pystr → option (list pystr)) (s : pystr)
    : option (list pystr) :=
  match k s with
  | Some groups => Some groups
  | None =>
    match s with
    | [] => None
    | _ :: s' => lazy_any k s'
    end
  end.

Fixpoint greedy_star (cls : N → bool) (k : pystr → option (list pystr)) (s : pystr)
    : option (pystr * list pystr) :=
  let more :=
    match s with
    | c :: s' =>
      if cls c then
        match greedy_star cls k s' with
        | Some (g, groups) => Some (c :: g, groups)
        | None => None
        end
      else None
    | [] => None
    end in
  match more with
  | Some r => Some r
  | None =>
    match k s with
    | Some groups => Some ([], groups)
    | None => None
    end
  end.

Definition greedy_plus (cls : N → bool) (capture : bool)
    (k : pystr → option (list pystr)) (s : pystr) : option (list pystr) :=
  match s with
  | c :: s' =>
    if cls c then
      match greedy_star cls k s' with
      | Some (g, groups) => Some (if capture then (c :: g) :: groups else groups)
      | None => None
      end
    else None
  | [] => None
  end.

(** [pattern.match(s)]: the groups of the first match, in backtracking
    order, of the whole pattern at the start of [s]. *)
Fixpoint re_match (pat : list re_item) : pystr → option (list pystr) :=
  match pat with
  | [] => fun _ => Some []
  | item :: pat' =>
    let k := re_match pat' in
    match item with
    | Lit c => fun s =>
        match s with
        | x :: s' => if sre_ci_match c x then k s' else None
        | [] => None
        end
    | LazyAny => lazy_any k
    | Plus cls capture => greedy_plus cls capture k
    end
  end.

(** [re.search(pat, s, re.IGNORECASE | re.DOTALL)]: the leftmost start
    at which the pattern matches. *)
Fixpoint re_search (pat : list re_item) (s : pystr) : option (list pystr) :=
  match re_match pat s with
  | Some groups => Some groups
  | None =>
    match s with
    | [] => None
    | _ :: s' => re_search pat s'
    end
  end.

(** [m.group(i)], for [i >= 1]. *)
Definition group (m : list pystr) (i : nat) : result pystr :=
  match m !! pred i with
  | Some g => inr g
  | None => raise (IndexError (py "no such group"))
  end.

Definition literal (s : pystr) : list re_item := Lit <$> s.

(** [rf"{re.escape(anon_name)}.*?Accuracy.*?(\d+).*?Insight.*?(\d+)"] *)
Definition score_pattern (anon_name : pystr) : list re_item :=
  literal anon_name ++ [LazyAny] ++ literal (py "Accuracy") ++
  [LazyAny; Plus is_decimal true; LazyAny] ++ literal (py "Insight") ++
  [LazyAny; Plus is_decimal true].

(** [rf"{re.escape(anon_name)}.*?Reasoning[:\s]+([^\[]+)"] *)
Definition reasoning_pattern (anon_name : pystr) : list re_item :=
  literal anon_name ++ [LazyAny] ++ literal (py "Reasoning") ++
  [Plus (fun c => bool_decide (c = 58%N) || unicode_isspace c) false;
   Plus (fun c => negb (bool_decide (c = 91%N))) true].
End Regex.

(** ** Data model ([backend/models.py], [backend/config.py])

    One module per class, so that fields keep their names. The [timestamp]
    and [created_at] fields, which no operation reads, are left out. Floats
    (latencies, averages) are modelled by rationals. *)

Module CouncilStage.
Inductive t :=
  | PENDING | FIRST_OPINIONS | REVIEW_RANKING | CHAIRMAN_SYNTHESIS | COMPLETED | ERROR.
#[global] Instance eq_dec : EqDecision t.
Proof. solve_decision. Defined.
End CouncilStage.

Module LLMStatus.
Inductive t := ONLINE | OFFLINE | BUSY | ERROR.
#[global] Instance eq_dec : EqDecision t.
Proof. solve_decision. Defined.
End LLMStatus.

Module LLMNode.
Record t := mk {
  name : pystr;
  host : pystr;
  port : Z;
  model : pystr;
  is_chairman : bool;
}.
End LLMNode.

Module FirstOpinionResponse.
Record t := mk {
  llm_name : pystr;
  model : pystr;
  response : pystr;
  latency_ms : Qc;
  token_count : option Z;
}.
End FirstOpinionResponse.

Module ReviewScore.
Record t := mk {
  reviewer_name : pystr;
  reviewed_name : pystr;
  original_name : pystr;
  score : Z;
  reasoning : pystr;
  accuracy_score : Z;
  insight_score : Z;
}.

(** [Field(..., ge=1, le=10)] *)
Definition in_bounds (v : Z) : bool := bool_decide (1 ≤ v ≤ 10).

(** The constructor call [ReviewScore(...)], with the validation that
    pydantic runs on the three bounded fields. *)
Definition new (reviewer_name reviewed_name original_name : pystr) (score : Z)
    (reasoning : pystr) (accuracy_score insight_score : Z) : result t :=
  if in_bounds score && in_bounds accuracy_score && in_bounds insight_score
  then inr (mk reviewer_name reviewed_name original_name score reasoning
               accuracy_score insight_score)
  else raise (ValidationError (py "validation error for ReviewScore")).
End ReviewScore.

(** A Python [dict] with string keys: the items in insertion order, every
    key once. *)
Abbreviation pydict V := (list (pystr * V)).

Fixpoint dict_get {V} (d : pydict V) (key : pystr) : option V :=
  match d with
  | [] => None
  | (k, v) :: d' => if decide (k = key) then Some v else dict_get d' key
  end.

(** [d.setdefault(key, []).append(x)] *)
Fixpoint setdefault_append {V} (d : pydict (list V)) (key : pystr) (x : V)
    : pydict (list V) :=
  match d with
  | [] => [(key, [x])]
  | (k, vals) :: d' =>
    if decide (k = key) then (k, vals ++ [x]) :: d'
    else (k, vals) :: setdefault_append d' key x
  end.

Module ReviewRoundResponse.
Record t := mk {
  reviews : list ReviewScore.t;
  rankings : pydict Qc;
}.
End ReviewRoundResponse.

Module ChairmanSynthesis.
Record t := mk {
  chairman_name : pystr;
  model : pystr;
  final_response : pystr;
  reasoning_summary : pystr;
  latency_ms : Qc;
}.
End ChairmanSynthesis.

Module CouncilSession.
(** [stage_trace] is a ghost field: every value [stage] has been given,
    oldest first. *)
Record t := mk {
  session_id : pystr;
  query : pystr;
  stage : CouncilStage.t;
  first_opinions : list FirstOpinionResponse.t;
  review_results : option ReviewRoundResponse.t;
  chairman_synthesis : option ChairmanSynthesis.t;
  completed : bool;
  total_latency_ms : option Qc;
  error_message : option pystr;
  stage_trace : list CouncilStage.t;
}.

(** [CouncilSession(session_id=sid, query=user_query, stage=PENDING)] *)
Definition new (sid user_query : pystr) : t :=
  mk sid user_query CouncilStage.PENDING [] None None false None None
     [CouncilStage.PENDING].

(** [session.stage = st] *)
Definition set_stage (st : CouncilStage.t) (s : t) : t :=
  mk (session_id s) (query s) st (first_opinions s) (review_results s)
     (chairman_synthesis s) (completed s) (total_latency_ms s) (error_message s)
     (stage_trace s ++ [st]).

Definition set_first_opinions (ops : list FirstOpinionResponse.t) (s : t) : t :=
  mk (session_id s) (query s) (stage s) ops (review_results s)
     (chairman_synthesis s) (completed s) (total_latency_ms s) (error_message s)
     (stage_trace s).

Definition set_review_results (r : ReviewRoundResponse.t) (s : t) : t :=
  mk (session_id s) (query s) (stage s) (first_opinions s) (Some r)
     (chairman_synthesis s) (completed s) (total_latency_ms s) (error_message s)
     (stage_trace s).

Definition set_chairman_synthesis (c : ChairmanSynthesis.t) (s : t) : t :=
  mk (session_id s) (query s) (stage s) (first_opinions s) (review_results s)
     (Some c) (completed s) (total_latency_ms s) (error_message s) (stage_trace s).

(** [session.completed_at = datetime.utcnow()] *)
Definition set_completed_at (s : t) : t :=
  mk (session_id s) (query s) (stage s) (first_opinions s) (review_results s)
     (chairman_synthesis s) true (total_latency_ms s) (error_message s)
     (stage_trace s).

Definition set_total_latency_ms (ms : Qc) (s : t) : t :=
  mk (session_id s) (query s) (stage s) (first_opinions s) (review_results s)
     (chairman_synthesis s) (completed s) (Some ms) (error_message s)
     (stage_trace s).

Definition set_error_message (msg : pystr) (s : t) : t :=
  mk (session_id s) (query s) (stage s) (first_opinions s) (review_results s)
     (chairman_synthesis s) (completed s) (total_latency_ms s) (Some msg)
     (stage_trace s).
End CouncilSession.

Module CouncilConfig.
Record t := mk {
  council_members : list LLMNode.t;
  chairman : option LLMNode.t;
  llm_timeout : Z;
  chairman_mode : pystr;
  chairman_remote_base_url : option pystr;
  chairman_remote_endpoint : pystr;
  chairman_remote_timeout_s : Z;
}.
End CouncilConfig.

(** ** Review Parser ([LLMService._parse_review_response]) *)

Abbreviation candidate := (pystr * pystr * pystr)%type.

Section ReviewParser.
Context `{Runtime}.
Local Open Scope result_scope.

Definition no_reasoning : pystr := py "No detailed reasoning extracted.".
Definition parsing_failed : pystr := py "Parsing failed; default scores applied.".

(** [min(10, max(1, v))] *)
Definition clamp_score (v : Z) : Z := Z.min 10 (Z.max 1 v).

(** The scores of one candidate: the [# scores] part of the loop body. *)
Definition parse_scores (review_text anon_name : pystr) : result (Z * Z) :=
  match re_search (score_pattern anon_name) review_text with
  | Some m =>
    g1 <~ group m 1;;
    v1 <~ py_int g1;;
    g2 <~ group m 2;;
    v2 <~ py_int g2;;
    inr (clamp_score v1, clamp_score v2)
  | None => inr (7, 7)
  end.

(** The [# reasoning (best-effort)] part of the loop body. *)
Definition parse_reasoning (review_text anon_name : pystr) : result pystr :=
  match re_search (reasoning_pattern anon_name) review_text with
  | Some rm => g <~ group rm 1;; inr (take 500 (strip g))
  | None => inr no_reasoning
  end.

(** One iteration of the [for] loop: the [try] block and its handler. *)
Definition parse_candidate (reviewer_name review_text : pystr) (c : candidate)
    : result ReviewScore.t :=
  let '(anon_name, _, original_name) := c in
  try_except
    ('(acc, ins) <~ parse_scores review_text anon_name;;
     reasoning <~ parse_reasoning review_text anon_name;;
     ReviewScore.new reviewer_name anon_name original_name
       ((acc + ins) / 2) reasoning acc ins)
    (fun _ =>
       ReviewScore.new reviewer_name anon_name original_name
         7 parsing_failed 7 7).

Fixpoint parse_loop (reviewer_name review_text : pystr) (pool : list candidate)
    (out : list ReviewScore.t) : result (list ReviewScore.t) :=
  match pool with
  | [] => inr out
  | c :: pool' =>
    sc <~ parse_candidate reviewer_name review_text c;;
    parse_loop reviewer_name review_text pool' (out ++ [sc])
  end.

Definition _parse_review_response (reviewer_name review_text : pystr)
    (pool : list candidate) : result (list ReviewScore.t) :=
  parse_loop reviewer_name review_text pool [].
End ReviewParser.

(** ** More string primitives *)

Definition nl : pystr := [10%N].

(** [sep.join(parts)] *)
Fixpoint join (sep : pystr) (parts : list pystr) : pystr :=
  match parts with
  | [] => []
  | [p] => p
  | p :: rest => p ++ sep ++ join sep rest
  end.

Fixpoint starts_with (prefix s : pystr) : bool :=
  match prefix, s with
  | [], _ => true
  | a :: prefix', b :: s' => bool_decide (a = b) && starts_with prefix' s'
  | _ :: _, [] => false
  end.

(** [sub in s] *)
Fixpoint contains (sub s : pystr) : bool :=
  starts_with sub s ||
  match s with
  | [] => false
  | _ :: s' => contains sub s'
  end.

(** [s.split(sep)] for a non-empty [sep]: [skip] counts the characters of
    an occurrence of [sep] still to be passed over, [cur] holds the current
    part backwards. *)
Fixpoint split_from (sep : pystr) (skip : nat) (cur s : pystr) : list pystr :=
  match s with
  | [] => [reverse cur]
  | c :: s' =>
    match skip with
    | S k => split_from sep k cur s'
    | O =>
      if starts_with sep s
      then reverse cur :: split_from sep (pred (length sep)) [] s'
      else split_from sep O (c :: cur) s'
    end
  end.

Definition split (sep s : pystr) : list pystr := split_from sep O [] s.

(** [s.replace(old, new)] for a non-empty [old]. *)
Fixpoint replace_from (old new : pystr) (skip : nat) (s : pystr) : pystr :=
  match s with
  | [] => []
  | c :: s' =>
    match skip with
    | S k => replace_from old new k s'
    | O =>
      if starts_with old s
      then new ++ replace_from old new (pred (length old)) s'
      else c :: replace_from old new O s'
    end
  end.

Definition replace (old new s : pystr) : pystr := replace_from old new O s.

(** [s.rstrip("/")] *)
Definition rstrip_slash (s : pystr) : pystr :=
  reverse (dropwhile (fun c => bool_decide (c = 47%N)) (reverse s)).

(** [f"{n}"] for an [int] *)
Definition format_int (n : Z) : pystr := py (pretty n).

(** Truth value of an [Optional[str]]: [None] and the empty string are false. *)
Definition truthy (s : option pystr) : bool :=
  match s with
  | Some (_ :: _) => true
  | _ => false
  end.

(** [a or b] on optional strings *)
Definition or_else (a b : option pystr) : option pystr := if truthy a then a else b.

(** [a or "literal"] *)
Definition or_str (a : option pystr) (b : pystr) : pystr :=
  match a with
  | Some (c :: s) => c :: s
  | _ => b
  end.

(** [chr(i)] *)
Definition py_chr (i : Z) : result N :=
  if bool_decide (0 ≤ i < 1114112) then inr (Z.to_N i)
  else raise (ValueError (py "chr() arg not in range(0x110000)")).

(** [d[key] = v] *)
Fixpoint dict_set {V} (d : pydict V) (key : pystr) (v : V) : pydict V :=
  match d with
  | [] => [(key, v)]
  | (k, v0) :: d' =>
    if decide (k = key) then (k, v) :: d' else (k, v0) :: dict_set d' key v
  end.

(** [sum(vals) / len(vals)], defined when [vals] is not empty. *)
Definition mean (vals : list Z) : Qc :=
  Q2Qc (inject_Z (foldr Z.add 0 vals) / inject_Z (Z.of_nat (length vals))).

(** ** The outside world: HTTP traffic, configuration, identifiers, time *)

Record chat_message := { role : pystr; content : pystr }.

Record chat_body := {
  body_model : pystr;
  messages : list chat_message;
  stream : bool;
}.

Record remote_body := {
  rb_query : pystr;
  rb_system_prompt : pystr;
  rb_prompt : pystr;
  rb_first_opinions : list FirstOpinionResponse.t;
  rb_reviews : list ReviewScore.t;
  rb_rankings : pydict Qc;
}.

(** Every request the service issues is one of two POSTs. *)
Inductive http_call :=
  | PostChat (url : pystr) (json : chat_body) (timeout : Z)
  | PostRemote (url : pystr) (json : remote_body) (timeout : Z).

(** The reply of a node to [/api/chat], as the protocol types it:
    [{"message": {"content": text}, "eval_count"?: int,
      "prompt_eval_count"?: int}]. A field holds [None] when its key is not
    in the payload. *)
Record chat_payload := {
  message_content : option pystr;
  eval_count : option Z;
  prompt_eval_count : option Z;
}.

(** The reply of the remote chairman service. *)
Record remote_payload := {
  rp_chairman_name : option pystr;
  rp_model : option pystr;
  rp_final_response : option pystr;
  rp_final : option pystr;
  rp_reasoning_summary : option pystr;
  rp_reasoning : option pystr;
  rp_latency_ms : option Qc;
}.

(** What a POST comes back with. [json = None] stands for a body that is
    not a document of the expected shape, on which [r.json()] or the reads
    that follow raise. *)
Inductive http_outcome (P : Type) :=
  | TimedOut (msg : pystr)
  | Failed (msg : pystr)
  | Answered (status_code : Z) (text : pystr) (json : option P) (elapsed_ms : Qc).
Arguments TimedOut {P}.
Arguments Failed {P}.
Arguments Answered {P}.

(** The deployment: the loaded configuration ([get_config()]), the
    behaviour of the backends, which may depend on all the traffic so far,
    the identifiers [uuid.uuid4()] draws and the clock. *)
Class Environment := {
  get_config : CouncilConfig.t;
  chat_backend : list http_call → pystr → chat_body → Z → http_outcome chat_payload;
  remote_backend : list http_call → pystr → remote_body → Z → http_outcome remote_payload;
  uuid4 : nat → pystr;
  perf_counter_ms : list http_call → Qc;
}.

(** The process state: the requests issued so far (oldest first), the two
    caches of the service, the session objects (a heap, since the
    orchestrator's registry and the running pipeline share them), the
    registry and counter of the orchestrator, the number of identifiers
    drawn, and what a streaming run has yielded so far. *)
Record World := mkWorld {
  calls : list http_call;
  _status_cache : pydict LLMStatus.t;
  _latency_cache : pydict Qc;
  heap : list CouncilSession.t;
  _sessions : pydict nat;
  _inflight : Z;
  uuid_draws : nat;
  yielded : list CouncilSession.t;
}.

Definition empty_world : World := mkWorld [] [] [] [] [] 0 0 [].

Definition with_calls (f : list http_call → list http_call) (w : World) : World :=
  mkWorld (f (calls w)) (_status_cache w) (_latency_cache w) (heap w) (_sessions w)
          (_inflight w) (uuid_draws w) (yielded w).

Definition with_status_cache (f : pydict LLMStatus.t → pydict LLMStatus.t) (w : World) : World :=
  mkWorld (calls w) (f (_status_cache w)) (_latency_cache w) (heap w) (_sessions w)
          (_inflight w) (uuid_draws w) (yielded w).

Definition with_latency_cache (f : pydict Qc → pydict Qc) (w : World) : World :=
  mkWorld (calls w) (_status_cache w) (f (_latency_cache w)) (heap w) (_sessions w)
          (_inflight w) (uuid_draws w) (yielded w).

Definition with_heap (f : list CouncilSession.t → list CouncilSession.t) (w : World) : World :=
  mkWorld (calls w) (_status_cache w) (_latency_cache w) (f (heap w)) (_sessions w)
          (_inflight w) (uuid_draws w) (yielded w).

Definition with_sessions (f : pydict nat → pydict nat) (w : World) : World :=
  mkWorld (calls w) (_status_cache w) (_latency_cache w) (heap w) (f (_sessions w))
          (_inflight w) (uuid_draws w) (yielded w).

Definition with_inflight (f : Z → Z) (w : World) : World :=
  mkWorld (calls w) (_status_cache w) (_latency_cache w) (heap w) (_sessions w)
          (f (_inflight w)) (uuid_draws w) (yielded w).

Definition with_uuid_draws (f : nat → nat) (w : World) : World :=
  mkWorld (calls w) (_status_cache w) (_latency_cache w) (heap w) (_sessions w)
          (_inflight w) (f (uuid_draws w)) (yielded w).

Definition with_yielded (f : list CouncilSession.t → list CouncilSession.t) (w : World) : World :=
  mkWorld (calls w) (_status_cache w) (_latency_cache w) (heap w) (_sessions w)
          (_inflight w) (uuid_draws w) (f (yielded w)).

(** ** The monad of the service and the orchestrator *)

Definition M (A : Type) : Type := World → result A * World.

Definition ret {A} (a : A) : M A := fun w => (inr a, w).

Definition throw {A} (e : exn) : M A := fun w => (inl e, w).

Definition bind {A B} (m : M A) (k : A → M B) : M B :=
  fun w =>
    match m w with
    | (inl e, w') => (inl e, w')
    | (inr a, w') => k a w'
    end.

(** [try: body  except Exception as e: handler(e)] *)
Definition catch {A} (body : M A) (handler : exn → M A) : M A :=
  fun w =>
    match body w with
    | (inl e, w') => handler e w'
    | (inr a, w') => (inr a, w')
    end.

(** [try: body  finally: cleanup] *)
Definition finally {A} (body : M A) (cleanup : M unit) : M A :=
  fun w =>
    match body w with
    | (r, w') =>
      match cleanup w' with
      | (inl e, w'') => (inl e, w'')
      | (inr _, w'') => (r, w'')
      end
    end.

Definition lift {A} (r : result A) : M A := fun w => (r, w).

Definition update (f : World → World) : M unit := fun w => (inr tt, f w).

Definition read {A} (f : World → A) : M A := fun w => (inr (f w), w).

Declare Scope service_scope.
Delimit Scope service_scope with service.
Notation "x <- m ;; k" := (bind m (fun x => k))
  (at level 20, m at level 99, k at level 200, only parsing) : service_scope.
Notation "' p <- m ;; k" := (bind m (fun x => match x with p => k end))
  (at level 20, p pattern, m at level 99, k at level 200, only parsing) : service_scope.
Notation "m ;;; k" := (bind m (fun _ => k))
  (at level 100, k at level 200, only parsing, right associativity) : service_scope.

(** [await asyncio.gather] with [return_exceptions=True]: the outcome of
    every job, in the order of [jobs]. The jobs are started in that order;
    the model runs each to its end before the next, the backends being free
    to answer as they like. *)
Fixpoint gather {A} (jobs : list (M A)) : M (list (result A)) :=
  match jobs with
  | [] => ret []
  | job :: jobs' =>
    fun w =>
      match job w with
      | (r, w') =>
        match gather jobs' w' with
        | (inr rs, w'') => (inr (r :: rs), w'')
        | (inl e, w'') => (inl e, w'')
        end
      end
  end.

(** ** Node Client ([LLMService.generate_response]) *)

Definition has_key {A} (field : option A) : bool :=
  match field with
  | Some _ => true
  | None => false
  end.

(** The [# token-ish stats when available] block of [generate_response]. *)
Definition token_stats (payload : chat_payload) : option Z :=
  if has_key (eval_count payload) then eval_count payload
  else if has_key (prompt_eval_count payload) && has_key (eval_count payload)
  then Some (default 0 (prompt_eval_count payload) + default 0 (eval_count payload))
  else None.

Section Service.
Context `{Runtime} `{Environment}.
Local Open Scope service_scope.

Definition base_url (node : LLMNode.t) : pystr :=
  LLMNode.host node ++ py ":" ++ format_int (LLMNode.port node).

Definition chat_url (node : LLMNode.t) : pystr := base_url node ++ py "/api/chat".

Definition set_status (name : pystr) (st : LLMStatus.t) : M unit :=
  update (with_status_cache (fun d => dict_set d name st)).

Definition set_latency (name : pystr) (dt : Qc) : M unit :=
  update (with_latency_cache (fun d => dict_set d name dt)).

(** [await self._http.post(url, json=body, timeout=timeout)] to a node:
    the request is recorded, then the backend decides. *)
Definition post_chat (url : pystr) (body : chat_body) (timeout : Z)
    : M (Z * pystr * option chat_payload * Qc) :=
  fun w =>
    let w' := with_calls (fun cs => cs ++ [PostChat url body timeout]) w in
    match chat_backend (calls w) url body timeout with
    | TimedOut msg => (inl (TimeoutException msg), w')
    | Failed msg => (inl (TransportError msg), w')
    | Answered status_code text json dt => (inr (status_code, text, json, dt), w')
    end.

(** The same POST, to the remote chairman service. *)
Definition post_remote (url : pystr) (body : remote_body) (timeout : Z)
    : M (Z * pystr * option remote_payload * Qc) :=
  fun w =>
    let w' := with_calls (fun cs => cs ++ [PostRemote url body timeout]) w in
    match remote_backend (calls w) url body timeout with
    | TimedOut msg => (inl (TimeoutException msg), w')
    | Failed msg => (inl (TransportError msg), w')
    | Answered status_code text json dt => (inr (status_code, text, json, dt), w')
    end.

(** [r.json()] *)
Definition json_of {P} (json : option P) : M P :=
  match json with
  | Some payload => ret payload
  | None => throw (DecodeError (py "Expecting value"))
  end.

(** The [messages] and [body] that [generate_response] builds. *)
Definition chat_request (node : LLMNode.t) (prompt : pystr)
    (system_prompt : option pystr) : chat_body :=
  let messages :=
    (if truthy system_prompt
     then [{| role := py "system"; content := default [] system_prompt |}]
     else []) ++ [{| role := py "user"; content := prompt |}] in
  {| body_model := LLMNode.model node; messages := messages; stream := false |}.

Definition generate_response (node : LLMNode.t) (prompt : pystr)
    (system_prompt : option pystr) : M (pystr * Qc * option Z) :=
  let body := chat_request node prompt system_prompt in
  catch
    (set_status (LLMNode.name node) LLMStatus.BUSY ;;;
     '(status_code, _, json, dt) <-
        post_chat (chat_url node) body (CouncilConfig.llm_timeout get_config) ;;
     set_status (LLMNode.name node) LLMStatus.ONLINE ;;;
     set_latency (LLMNode.name node) dt ;;;
     if bool_decide (status_code ≠ 200)
     then throw (RuntimeError (py "LLM returned status " ++ format_int status_code))
     else
       payload <- json_of json ;;
       let text := default [] (message_content payload) in
       let tokens := token_stats payload in
       ret (text, dt, tokens))
    (fun e => set_status (LLMNode.name node) LLMStatus.ERROR ;;; throw e).

(** *** Phase 1 *)

Definition first_opinion_system : pystr :=
  py "You are a council member. Provide a clear, accurate answer to the user's question. "
  ++ py "Be helpful and structured. Your answer will be peer-reviewed.".

Definition get_first_opinion (node : LLMNode.t) (query : pystr)
    : M FirstOpinionResponse.t :=
  '(text, ms, tok) <- generate_response node query (Some first_opinion_system) ;;
  ret (FirstOpinionResponse.mk (LLMNode.name node) (LLMNode.model node) text ms tok).

(** The results of a [gather] that are not exceptions, in order. *)
Definition successes {A} (results : list (result A)) : list A :=
  omap (fun r => match r with inr a => Some a | inl _ => None end) results.

Definition get_all_first_opinions (query : pystr) : M (list FirstOpinionResponse.t) :=
  let cfg := get_config in
  let jobs := (fun n => get_first_opinion n query) <$> CouncilConfig.council_members cfg in
  results <- gather jobs ;;
  ret (successes results).

(** *** Phase 2: Review Aggregator *)

Definition review_system : pystr :=
  py "You are a strict reviewer. Score each response on Accuracy (1-10) and Insight (1-10). "
  ++ py "Give a brief justification. Avoid style bias.".

Definition review_prompt (query : pystr) (pool : list candidate) : pystr :=
  let block :=
    join (nl ++ nl)
         ((fun c : candidate => py "=== " ++ c.1.1 ++ py " ===" ++ nl ++ c.1.2) <$> pool) in
  py "Original Query: " ++ query ++ nl ++ nl ++
  py "Below are anonymized answers from other models:" ++ nl ++ nl ++
  block ++ nl ++ nl ++
  py "For each response, use the exact template:" ++ nl ++
  py "[Response Name]" ++ nl ++
  py "Accuracy Score: X/10" ++ nl ++
  py "Insight Score: X/10" ++ nl ++
  py "Reasoning: ..." ++ nl.

Definition get_review (reviewer_node : LLMNode.t) (query : pystr)
    (responses : list candidate) (exclude_name : pystr) : M (list ReviewScore.t) :=
  let pool := filter (fun c : candidate => c.2 ≠ exclude_name) responses in
  match pool with
  | [] => ret []
  | _ =>
    catch
      ('(raw, _, _) <-
          generate_response reviewer_node (review_prompt query pool) (Some review_system) ;;
       lift (_parse_review_response (LLMNode.name reviewer_node) raw pool))
      (fun _ => ret [])
  end.

(** The anonymization loop of [get_all_reviews]: the opinion at index
    [i] gets the label [f"Response {chr(65 + i)}"]. *)
Fixpoint anonymize (i : Z) (first_opinions : list FirstOpinionResponse.t)
    : result (list candidate) :=
  match first_opinions with
  | [] => inr []
  | op :: rest =>
    (c <~ py_chr (65 + i);;
     bundle <~ anonymize (i + 1) rest;;
     inr ((py "Response " ++ [c], FirstOpinionResponse.response op,
           FirstOpinionResponse.llm_name op) :: bundle))%result
  end.

(** The [# aggregate by original_name] block of [get_all_reviews]. *)
Definition bucket_scores (all_scores : list ReviewScore.t) : pydict (list Z) :=
  foldl (fun buckets sc =>
           setdefault_append buckets (ReviewScore.original_name sc) (ReviewScore.score sc))
        [] all_scores.

Definition average_scores (buckets : pydict (list Z)) : pydict Qc :=
  (fun item : pystr * list Z =>
     (item.1, match item.2 with [] => 0%Qc | _ => mean item.2 end)) <$> buckets.

Definition get_all_reviews (query : pystr) (first_opinions : list FirstOpinionResponse.t)
    : M (list ReviewScore.t * pydict Qc) :=
  let cfg := get_config in
  anon_bundle <- lift (anonymize 0 first_opinions) ;;
  let jobs :=
    (fun node => get_review node query anon_bundle (LLMNode.name node))
      <$> CouncilConfig.council_members cfg in
  results <- gather jobs ;;
  let all_scores := concat (successes results) in
  let averages := average_scores (bucket_scores all_scores) in
  ret (all_scores, averages).
End Service.

(** ** Phase 3: Chairman Synthesizer ([LLMService.get_chairman_synthesis]) *)

(** [sorted(items, key=lambda x: -x[1])]: a stable sort, highest score
    first. *)
Fixpoint insert_by_score (x : pystr * Qc) (l : list (pystr * Qc)) : list (pystr * Qc) :=
  match l with
  | [] => [x]
  | y :: l' =>
    if bool_decide (y.2 ≤ x.2)%Qc then x :: l else y :: insert_by_score x l'
  end.

Definition sorted_by_score (items : list (pystr * Qc)) : list (pystr * Qc) :=
  foldr insert_by_score [] items.

Section Chairman.
Context `{Runtime} `{Environment}.
Local Open Scope service_scope.

Definition chairman_system : pystr :=
  py "You are the Chairman. Synthesize the best elements from the council answers. "
  ++ py "Resolve conflicts, be accurate, and provide a brief reasoning summary.".

Definition chairman_prompt (query : pystr) (first_opinions : list FirstOpinionResponse.t)
    (reviews : list ReviewScore.t) (rankings : pydict Qc) : pystr :=
  let answers_block :=
    join (nl ++ nl)
      ((fun op =>
          py "=== " ++ FirstOpinionResponse.llm_name op ++ py " (Model: " ++
          FirstOpinionResponse.model op ++ py ") ===" ++ nl ++
          FirstOpinionResponse.response op) <$> first_opinions) in
  let rank_block :=
    join nl
      ((fun item : pystr * Qc =>
          py "- " ++ item.1 ++ py ": Average Score " ++ format_1f item.2 ++ py "/10")
         <$> sorted_by_score rankings) in
  let review_lines :=
    (fun r =>
       py "- " ++ ReviewScore.reviewer_name r ++ py " rated " ++
       ReviewScore.reviewed_name r ++ py ": Accuracy " ++
       format_int (ReviewScore.accuracy_score r) ++ py "/10, Insight " ++
       format_int (ReviewScore.insight_score r) ++ py "/10") <$> reviews in
  let review_block := join nl (take 20 review_lines) in
  py "Original Query: " ++ query ++ nl ++ nl ++
  py "=== COUNCIL RESPONSES ===" ++ nl ++
  answers_block ++ nl ++ nl ++
  py "=== PEER REVIEW RANKINGS ===" ++ nl ++
  rank_block ++ nl ++ nl ++
  py "=== REVIEW HIGHLIGHTS ===" ++ nl ++
  review_block ++ nl ++ nl ++
  py "Return exactly:" ++ nl ++
  py "FINAL ANSWER:" ++ nl ++
  py "[...]" ++ nl ++ nl ++
  py "REASONING SUMMARY:" ++ nl ++
  py "[...]" ++ nl.

(** [(cfg.chairman_mode or "local").lower().strip()] *)
Definition chairman_mode_of (cfg : CouncilConfig.t) : pystr :=
  strip (str_lower (or_str (Some (CouncilConfig.chairman_mode cfg)) (py "local"))).

(** [ChairmanSynthesis] built from the keys of [data]: every field of the
    class must be there. *)
Definition strict_synthesis (data : remote_payload) : result ChairmanSynthesis.t :=
  match rp_chairman_name data, rp_model data, rp_final_response data,
        rp_reasoning_summary data, rp_latency_ms data with
  | Some name, Some model, Some final, Some reasoning, Some ms =>
    inr (ChairmanSynthesis.mk name model final reasoning ms)
  | _, _, _, _, _ => raise (ValidationError (py "validation error for ChairmanSynthesis"))
  end.

(** The handler of the failed strict parse: field aliases, then
    placeholders. *)
Definition lenient_synthesis (data : remote_payload) (latency_ms : Qc)
    : ChairmanSynthesis.t :=
  let final := or_str (or_else (rp_final_response data) (rp_final data)) [] in
  let reasoning := or_str (or_else (rp_reasoning_summary data) (rp_reasoning data)) [] in
  let model := or_str (rp_model data) (py "remote") in
  let name := or_str (rp_chairman_name data) (py "Remote-Chairman") in
  ChairmanSynthesis.mk name model final
    (or_str (Some reasoning) (py "Synthesis returned by remote chairman.")) latency_ms.

(** The reading of the local chairman's reply. *)
Definition split_reply (text : pystr) : pystr * pystr :=
  if contains (py "FINAL ANSWER:") text then
    let parts := split (py "REASONING SUMMARY:") text in
    let final := strip (replace (py "FINAL ANSWER:") [] (default [] (head parts))) in
    let reason :=
      match parts with
      | _ :: second :: _ => strip second
      | _ => []
      end in
    (final, reason)
  else (text, []).

Definition get_chairman_synthesis (query : pystr)
    (first_opinions : list FirstOpinionResponse.t) (reviews : list ReviewScore.t)
    (rankings : pydict Qc) : M ChairmanSynthesis.t :=
  let cfg := get_config in
  let sys_msg := chairman_system in
  let prompt := chairman_prompt query first_opinions reviews rankings in
  let mode := chairman_mode_of cfg in
  if bool_decide (mode = py "remote") then
    if negb (truthy (CouncilConfig.chairman_remote_base_url cfg)) then
      throw (ValueError
        (py "chairman.mode=remote but chairman.remote.base_url is missing in config.yaml"))
    else
      let url :=
        rstrip_slash (default [] (CouncilConfig.chairman_remote_base_url cfg)) ++
        CouncilConfig.chairman_remote_endpoint cfg in
      let payload :=
        {| rb_query := query; rb_system_prompt := sys_msg; rb_prompt := prompt;
           rb_first_opinions := first_opinions; rb_reviews := reviews;
           rb_rankings := rankings |} in
      '(status_code, text, json, latency_ms) <-
         post_remote url payload (CouncilConfig.chairman_remote_timeout_s cfg) ;;
      if bool_decide (status_code ≠ 200)
      then throw (RuntimeError
             (py "Remote chairman error " ++ format_int status_code ++ py ": " ++
              take 200 text))
      else
        data <- json_of json ;;
        match strict_synthesis data with
        | inr synthesis => ret synthesis
        | inl _ => ret (lenient_synthesis data latency_ms)
        end
  else
    match CouncilConfig.chairman cfg with
    | None => throw (ValueError (py "No chairman configured"))
    | Some chair =>
      '(text, ms, _) <- generate_response chair prompt (Some sys_msg) ;;
      let '(final, reason) := split_reply text in
      ret (ChairmanSynthesis.mk (LLMNode.name chair) (LLMNode.model chair) final
             (or_str (Some reason) (py "Synthesis completed based on council inputs."))
             ms)
    end.
End Chairman.

(** ** Orchestration Pipeline ([backend/council.py])

    A session is an object on the heap; the pipeline holds its address. *)

Section Council.
Context `{Runtime} `{Environment}.
Local Open Scope service_scope.

(** Reading the object at [session]. The pipeline only holds addresses
    that [create_session] returned, which are always allocated. *)
Definition deref (session : nat) : M CouncilSession.t :=
  fun w =>
    match heap w !! session with
    | Some s => (inr s, w)
    | None => (inl (RuntimeError (py "no such object")), w)
    end.

(** An attribute assignment on the object at [session]. *)
Definition assign (session : nat) (f : CouncilSession.t → CouncilSession.t) : M unit :=
  update (with_heap (alter f session)).

Definition create_session (user_query : pystr) : M nat :=
  n <- read uuid_draws ;;
  update (with_uuid_draws S) ;;;
  let sid := take 8 (uuid4 n) in
  let session := CouncilSession.new sid user_query in
  address <- read (fun w => length (heap w)) ;;
  update (with_heap (fun h => h ++ [session])) ;;;
  update (with_sessions (fun d => dict_set d sid address)) ;;;
  ret address.

Definition get_session (session_id : pystr) : M (option CouncilSession.t) :=
  read (fun w => address ← dict_get (_sessions w) session_id; heap w !! address).

Definition _stage_first_opinions (session : nat) : M unit :=
  assign session (CouncilSession.set_stage CouncilStage.FIRST_OPINIONS) ;;;
  s <- deref session ;;
  answers <- get_all_first_opinions (CouncilSession.query s) ;;
  assign session (CouncilSession.set_first_opinions answers).

Definition _stage_reviews (session : nat) : M unit :=
  s <- deref session ;;
  match CouncilSession.first_opinions s with
  | [] => throw (ValueError (py "Stage 2 requires stage 1 outputs (first_opinions)."))
  | _ =>
    assign session (CouncilSession.set_stage CouncilStage.REVIEW_RANKING) ;;;
    '(reviews, averages) <-
       get_all_reviews (CouncilSession.query s) (CouncilSession.first_opinions s) ;;
    assign session
      (CouncilSession.set_review_results (ReviewRoundResponse.mk reviews averages))
  end.

Definition _stage_chairman (session : nat) : M unit :=
  s <- deref session ;;
  match CouncilSession.first_opinions s with
  | [] => throw (ValueError (py "Stage 3 requires stage 1 outputs (first_opinions)."))
  | _ =>
    assign session (CouncilSession.set_stage CouncilStage.CHAIRMAN_SYNTHESIS) ;;;
    let reviews :=
      match CouncilSession.review_results s with
      | Some r => ReviewRoundResponse.reviews r
      | None => []
      end in
    let rankings :=
      match CouncilSession.review_results s with
      | Some r => ReviewRoundResponse.rankings r
      | None => []
      end in
    summary <-
      get_chairman_synthesis (CouncilSession.query s) (CouncilSession.first_opinions s)
        reviews rankings ;;
    assign session (CouncilSession.set_chairman_synthesis summary) ;;;
    assign session (CouncilSession.set_stage CouncilStage.COMPLETED) ;;;
    assign session CouncilSession.set_completed_at
  end.

Definition now : M Qc := read (fun w => perf_counter_ms (calls w)).

(** The [except Exception as e] handler shared by the two entry points,
    up to what each does after it. *)
Definition mark_error (session : nat) (e : exn) : M unit :=
  assign session (CouncilSession.set_stage CouncilStage.ERROR) ;;;
  assign session (CouncilSession.set_error_message (exn_str e)).

(** The [try ... except Exception as e: ...; raise] of [run_full_council]
    around a body. *)
Definition guarded {A} (session : nat) (body : M A) : M A :=
  catch body (fun e => mark_error session e ;;; throw e).

Definition run_full_council (query : pystr) : M nat :=
  t0 <- now ;;
  update (with_inflight (fun n => n + 1)) ;;;
  session <- create_session query ;;
  finally
    (guarded session
       (_stage_first_opinions session ;;;
        _stage_reviews session ;;;
        _stage_chairman session ;;;
        t1 <- now ;;
        assign session (CouncilSession.set_total_latency_ms (t1 - t0)%Qc) ;;;
        ret session))
    (update (with_inflight (fun n => n - 1))).

(** [yield session]: the consumer sees the object as it is now. *)
Definition yield_ (session : nat) : M unit :=
  s <- deref session ;;
  update (with_yielded (fun ys => ys ++ [s])).

(** The generator, driven to exhaustion by a consumer that takes every
    snapshot; what it yielded is left in [yielded]. *)
Definition run_council_streaming (query : pystr) : M unit :=
  t0 <- now ;;
  update (with_inflight (fun n => n + 1)) ;;;
  session <- create_session query ;;
  finally
    (catch
       (yield_ session ;;;
        _stage_first_opinions session ;;;
        yield_ session ;;;
        _stage_reviews session ;;;
        yield_ session ;;;
        _stage_chairman session ;;;
        t1 <- now ;;
        assign session (CouncilSession.set_total_latency_ms (t1 - t0)%Qc) ;;;
        yield_ session)
       (fun e => mark_error session e ;;; yield_ session))
    (update (with_inflight (fun n => n - 1))).
End Council.

(** ** Status probes and caches ([LLMService.check_node_health],
    [check_all_nodes_health], [get_node_status], [get_node_latency]) *)

Module LLMNodeInfo.
Record t := mk {
  name : pystr;
  host : pystr;
  port : Z;
  model : pystr;
  is_chairman : bool;
  status : LLMStatus.t;
  latency_ms : option Qc;
}.
End LLMNodeInfo.

(** The reply of a node to [/api/tags]: the [name] of every entry of
    [models], where it has one. A body on which [r.json()] or the reading
    of these names raises is no payload: the reply then carries [None],
    and the probe ends in its last handler. *)
Record tags_payload := { tag_models : list (option pystr) }.

(** [self._status_cache.get(node_name, LLMStatus.OFFLINE)] *)
Definition get_node_status (node_name : pystr) (w : World) : LLMStatus.t :=
  default LLMStatus.OFFLINE (dict_get (_status_cache w) node_name).

(** [self._latency_cache.get(node_name)] *)
Definition get_node_latency (node_name : pystr) (w : World) : option Qc :=
  dict_get (_latency_cache w) node_name.

(** [node.health_url] *)
Definition health_url (node : LLMNode.t) : pystr := base_url node ++ py "/api/tags".

(** [s.split(":")[0]] *)
Fixpoint before_colon (s : pystr) : pystr :=
  match s with
  | [] => []
  | c :: s' => if bool_decide (c = 58%N) then [] else c :: before_colon s'
  end.

(** The test that makes the probe log a warning: the node lists models
    and the configured one, tag apart, is not among them. The warning
    changes nothing else. *)
Definition model_not_listed (node : LLMNode.t) (payload : tags_payload) : bool :=
  let installed := (λ m, before_colon (default [] m)) <$> tag_models payload in
  let requested := before_colon (LLMNode.model node) in
  negb (bool_decide (installed = [])) && negb (bool_decide (requested ∈ installed)).

(** The probe of one node, given what its GET on [health_url] comes back
    with. Every failure is turned into a status: the probe never raises. *)
Definition check_node_health (reply : http_outcome tags_payload) (node : LLMNode.t)
    (w : World) : (LLMStatus.t * option Qc) * World :=
  let set st := with_status_cache (fun d => dict_set d (LLMNode.name node) st) in
  match reply with
  | Answered status_code _ json dt =>
    if bool_decide (status_code ≠ 200)
    then ((LLMStatus.ERROR, None), set LLMStatus.ERROR w)
    else
      match json with
      | Some _ =>
        ((LLMStatus.ONLINE, Some dt),
         with_latency_cache (fun d => dict_set d (LLMNode.name node) dt)
           (set LLMStatus.ONLINE w))
      | None => ((LLMStatus.OFFLINE, None), set LLMStatus.OFFLINE w)
      end
  | TimedOut _ => ((LLMStatus.OFFLINE, None), set LLMStatus.OFFLINE w)
  | Failed _ => ((LLMStatus.OFFLINE, None), set LLMStatus.OFFLINE w)
  end.

(** The probes of a list of nodes, the one at position [i] getting the
    reply [replies i]. *)
Fixpoint probe_nodes (replies : nat → http_outcome tags_payload) (i : nat)
    (nodes : list LLMNode.t) (w : World) : list (LLMStatus.t * option Qc) * World :=
  match nodes with
  | [] => ([], w)
  | node :: nodes' =>
    let '(r, w1) := check_node_health (replies i) node w in
    let '(rs, w2) := probe_nodes replies (S i) nodes' w1 in
    (r :: rs, w2)
  end.

Section Health.
Context `{Environment}.

(** [cfg.council_members + ([cfg.chairman] if cfg.chairman else [])] *)
Definition probed_nodes : list LLMNode.t :=
  CouncilConfig.council_members get_config ++
  match CouncilConfig.chairman get_config with
  | Some chairman => [chairman]
  | None => []
  end.

Definition check_all_nodes_health (replies : nat → http_outcome tags_payload) (w : World)
    : list LLMNodeInfo.t * World :=
  let nodes := probed_nodes in
  let '(results, w') := probe_nodes replies 0 nodes w in
  (zip_with (λ node (r : LLMStatus.t * option Qc),
               LLMNodeInfo.mk (LLMNode.name node) (LLMNode.host node) (LLMNode.port node)
                 (LLMNode.model node) (LLMNode.is_chairman node) r.1 r.2)
            nodes results, w').

(** The [/api/health] route of [backend/main.py]. *)
Definition health_check (replies : nat → http_outcome tags_payload) (w : World)
    : (pystr * list LLMNodeInfo.t) * World :=
  let '(nodes, w') := check_all_nodes_health replies w in
  let all_ok := forallb (λ n, bool_decide (LLMNodeInfo.status n = LLMStatus.ONLINE)) nodes in
  ((if all_ok then py "healthy" else py "degraded", nodes), w').
End Health.

(** ** The registry of the orchestrator and the routes over it
    ([CouncilOrchestrator], [backend/main.py]) *)

(** [list(self._sessions.values())] *)
Definition get_all_sessions (w : World) : list CouncilSession.t :=
  omap (λ item : pystr * nat, heap w !! item.2) (_sessions w).

(** The property [active_sessions] *)
Definition active_sessions (w : World) : Z := _inflight w.

(** The property [total_sessions] *)
Definition total_sessions (w : World) : nat := length (_sessions w).

(** What a route answers: a body, or [HTTPException(status_code, detail)]. *)
Inductive route_reply (A : Type) :=
  | Body (body : A)
  | HTTPException (status_code : Z) (detail : pystr).
Arguments Body {A}.
Arguments HTTPException {A}.

Section Routes.
Context `{Runtime} `{Environment}.

(** [POST /api/council/query] *)
Definition council_query (query : pystr) (w : World)
    : route_reply CouncilSession.t * World :=
  match bind (run_full_council query) deref w with
  | (inr session, w') => (Body session, w')
  | (inl e, w') => (HTTPException 500 (exn_str e), w')
  end.

(** [GET /api/council/sessions/{session_id}] *)
Definition session_by_id (session_id : pystr) (w : World)
    : route_reply CouncilSession.t * World :=
  match get_session session_id w with
  | (inr (Some session), w') => (Body session, w')
  | (_, w') => (HTTPException 404 (py "Session not found"), w')
  end.
End Routes.

(** ** A runtime for ASCII text

    The tables of [Runtime] on the ASCII range, where they are easy to
    write down; the examples below run on it. The theorems hold for every
    runtime. *)

Definition ascii_decimal (c : N) : option Z :=
  if bool_decide (48 ≤ c ≤ 57)%N then Some (Z.of_N c - 48) else None.

Definition ascii_isspace (c : N) : bool :=
  bool_decide (9 ≤ c ≤ 13)%N || bool_decide (28 ≤ c ≤ 32)%N.

Definition ascii_lower (c : N) : N :=
  if bool_decide (65 ≤ c ≤ 90)%N then (c + 32)%N else c.

Definition ascii_ci_match (p x : N) : bool :=
  bool_decide (ascii_lower p = ascii_lower x).

Definition ascii_format_1f (q : Qc) : pystr :=
  let tenths := Qfloor (Qplus (Qmult (this q) (10 # 1)) (1 # 2)) in
  format_int (tenths / 10) ++ py "." ++ format_int (tenths mod 10).

Definition ascii_runtime : Runtime := {|
  unicode_decimal := ascii_decimal;
  unicode_isspace := ascii_isspace;
  sre_ci_match := ascii_ci_match;
  str_lower := fmap ascii_lower;
  int_max_str_digits := 4300;
  format_1f := ascii_format_1f;
|}.

(** ** Vocabulary of the properties *)

(** What it means for a pattern to match at the start of a string,
    without any reference to the order in which a matcher tries things:
    the pattern consumes a prefix of the string. *)
Inductive matches `{Runtime} : list re_item → pystr → Prop :=
  | matches_nil s : matches [] s
  | matches_lit c x pat s :
      sre_ci_match c x = true → matches pat s → matches (Lit c :: pat) (x :: s)
  | matches_lazy skipped pat s :
      matches pat s → matches (LazyAny :: pat) (skipped ++ s)
  | matches_plus cls capture x run pat s :
      cls x = true → Forall (λ c, cls c = true) run → matches pat s →
      matches (Plus cls capture :: pat) (x :: run ++ s).

(** The pattern matches somewhere in the string. *)
Definition occurs `{Runtime} (pat : list re_item) (s : pystr) : Prop :=
  ∃ before rest, s = before ++ rest ∧ matches pat rest.

(** [s] is the literal [lit] up to case, as the flag IGNORECASE reads it. *)
Definition ci_equal `{Runtime} (lit s : pystr) : Prop :=
  Forall2 (λ c x, sre_ci_match c x = true) lit s.

(** A figure: one decimal digit or more. *)
Definition figure `{Runtime} (s : pystr) : Prop :=
  s ≠ [] ∧ Forall (λ c, is_decimal c = true) s.

(** The transcript contains the label followed, after any text, by the
    word Accuracy, a figure, the word Insight and a second figure. *)
Definition has_scores `{Runtime} (label text : pystr) : Prop :=
  ∃ before label' gap1 accuracy gap2 fig1 gap3 insight gap4 fig2 rest,
    text = before ++ label' ++ gap1 ++ accuracy ++ gap2 ++ fig1 ++ gap3 ++
           insight ++ gap4 ++ fig2 ++ rest ∧
    ci_equal label label' ∧ ci_equal (py "Accuracy") accuracy ∧ figure fig1 ∧
    ci_equal (py "Insight") insight ∧ figure fig2.


(** The computation ended in an exception. *)
Definition failed {A} (r : result A) : Prop :=
  match r with
  | inl _ => True
  | inr _ => False
  end.

(** Token accounting in the words of the specification: the completion
    count if the backend reports one; else, if it reports both a prompt
    count and a completion count, their sum; else nothing. *)
Definition token_accounting (payload : chat_payload) : option Z :=
  match eval_count payload with
  | Some completion => Some completion
  | None =>
    match prompt_eval_count payload, eval_count payload with
    | Some prompt, Some completion => Some (prompt + completion)
    | _, _ => None
    end
  end.

(** The composite scores given to the candidate owned by [name], in the
    order they were collected. *)
Definition composites_of (name : pystr) (all_scores : list ReviewScore.t) : list Z :=
  ReviewScore.score <$> filter (λ sc, ReviewScore.original_name sc = name) all_scores.

(** The part of the world that belongs to the orchestrator; the service
    layer only touches the rest (the traffic and its two caches). *)
Definition orchestrator_part (w : World)
    : list CouncilSession.t * list CouncilSession.t * pydict nat * Z * nat :=
  (heap w, yielded w, _sessions w, _inflight w, uuid_draws w).

(** [m] leaves the observation [obs] of the world as it found it. *)
Definition keeps {A B} (obs : World → B) (m : M A) : Prop :=
  ∀ w, obs (m w).2 = obs w.

(** The label of the opinion at index [i]: [Response A] for 0,
    [Response B] for 1, and so on through the code points. *)
Definition label_at (i : Z) : pystr := py "Response " ++ [Z.to_N (65 + i)].

(** The anonymized bundle of a review round, in closed form. *)
Definition anon_bundle_of (first_opinions : list FirstOpinionResponse.t) : list candidate :=
  imap (λ i op, (label_at (Z.of_nat i), FirstOpinionResponse.response op,
                 FirstOpinionResponse.llm_name op)) first_opinions.

(** The entries of a bundle pair labels and owners one to one: two entries
    have the same label exactly when they have the same owner. *)
Definition pairs_bijectively (bundle : list candidate) : Prop :=
  ∀ c1 c2 : candidate, c1 ∈ bundle → c2 ∈ bundle → (c1.1.1 = c2.1.1 ↔ c1.2 = c2.2).

(** The largest number of opinions [chr(65 + i)] can label. *)
Definition max_labels : Z := 1114047.

(** A specification of a computation of the pipeline about the session at
    address [a]: run in any world where that session is [s], [m] ends
    with a result [r], leaves the session as some [s'] and has yielded the
    snapshots [ys], such that [Q r s' ys]. *)
Definition triple {A} (a : nat) (s : CouncilSession.t) (m : M A)
    (Q : result A → CouncilSession.t → list CouncilSession.t → Prop) : Prop :=
  ∀ w, heap w !! a = Some s →
    ∃ r w' s' ys,
      m w = (r, w') ∧ heap w' !! a = Some s' ∧ yielded w' = yielded w ++ ys ∧ Q r s' ys.

(** The order of the stages of a run that does not fail. *)
Definition stage_order : list CouncilStage.t :=
  [CouncilStage.PENDING; CouncilStage.FIRST_OPINIONS; CouncilStage.REVIEW_RANKING;
   CouncilStage.CHAIRMAN_SYNTHESIS; CouncilStage.COMPLETED].

(** A sequence of stage values that is a prefix of [stage_order], or such
    a prefix followed by a final [ERROR]. *)
Definition lawful_trace (trace : list CouncilStage.t) : Prop :=
  ∃ p, p `prefix_of` stage_order ∧ (trace = p ∨ trace = p ++ [CouncilStage.ERROR]).

Definition stage_rank (st : CouncilStage.t) : nat :=
  match st with
  | CouncilStage.PENDING => 0
  | CouncilStage.FIRST_OPINIONS => 1
  | CouncilStage.REVIEW_RANKING => 2
  | CouncilStage.CHAIRMAN_SYNTHESIS => 3
  | CouncilStage.COMPLETED => 4
  | CouncilStage.ERROR => 5
  end.

(** Every value of the sequence comes later in the order than all the
    values before it: the stage never goes back. *)
Definition never_regresses (trace : list CouncilStage.t) : Prop :=
  ∀ i j x y, (i < j)%nat → trace !! i = Some x → trace !! j = Some y →
    (stage_rank x < stage_rank y)%nat.

Definition stage2_precondition : pystr :=
  py "Stage 2 requires stage 1 outputs (first_opinions).".

Definition stage3_precondition : pystr :=
  py "Stage 3 requires stage 1 outputs (first_opinions).".

(** What phase 2 leaves behind, from a session [s]: the precondition
    failure, which changes nothing; a failure after the stage was set; or
    the review results. *)
Definition after_reviews (s : CouncilSession.t) (r : result unit) (s' : CouncilSession.t)
    : Prop :=
  match CouncilSession.first_opinions s with
  | [] => r = inl (ValueError stage2_precondition) ∧ s' = s
  | _ =>
    (failed r ∧ s' = CouncilSession.set_stage CouncilStage.REVIEW_RANKING s) ∨
    (r = inr tt ∧ ∃ round,
       s' = CouncilSession.set_review_results round
              (CouncilSession.set_stage CouncilStage.REVIEW_RANKING s))
  end.

(** What phase 3 leaves behind. *)
Definition after_chairman (s : CouncilSession.t) (r : result unit) (s' : CouncilSession.t)
    : Prop :=
  match CouncilSession.first_opinions s with
  | [] => r = inl (ValueError stage3_precondition) ∧ s' = s
  | _ =>
    (failed r ∧ s' = CouncilSession.set_stage CouncilStage.CHAIRMAN_SYNTHESIS s) ∨
    (r = inr tt ∧ ∃ summary,
       s' = CouncilSession.set_completed_at
              (CouncilSession.set_stage CouncilStage.COMPLETED
                 (CouncilSession.set_chairman_synthesis summary
                    (CouncilSession.set_stage CouncilStage.CHAIRMAN_SYNTHESIS s))))
  end.

(** The session of a run that went through: every stage in order, a
    synthesis, no error message. *)
Definition completed_run (s : CouncilSession.t) : Prop :=
  CouncilSession.stage s = CouncilStage.COMPLETED ∧
  CouncilSession.stage_trace s = stage_order ∧
  CouncilSession.error_message s = None ∧
  CouncilSession.first_opinions s ≠ [] ∧
  is_Some (CouncilSession.chairman_synthesis s).

(** The stage values of a run stopped by the exception [e], up to the
    stop: without opinions, phase 2 refuses to start; with opinions, the
    run stops in phase 2 after the stage was set, or in phase 3. *)
Definition stopped_at (s : CouncilSession.t) (e : exn) (trace : list CouncilStage.t)
    : Prop :=
  match CouncilSession.first_opinions s with
  | [] =>
    e = ValueError stage2_precondition ∧
    trace = [CouncilStage.PENDING; CouncilStage.FIRST_OPINIONS]
  | _ =>
    trace = [CouncilStage.PENDING; CouncilStage.FIRST_OPINIONS;
             CouncilStage.REVIEW_RANKING] ∨
    trace = [CouncilStage.PENDING; CouncilStage.FIRST_OPINIONS;
             CouncilStage.REVIEW_RANKING; CouncilStage.CHAIRMAN_SYNTHESIS]
  end.

(** The session of a run stopped by [e], once the handler has run. *)
Definition failed_run (s : CouncilSession.t) (e : exn) : Prop :=
  CouncilSession.stage s = CouncilStage.ERROR ∧
  CouncilSession.error_message s = Some (exn_str e) ∧
  ∃ trace, stopped_at s e trace ∧
    CouncilSession.stage_trace s = trace ++ [CouncilStage.ERROR].

(** The same, before the handler has run. *)
Definition interrupted (s : CouncilSession.t) (e : exn) : Prop :=
  CouncilSession.error_message s = None ∧
  stopped_at s e (CouncilSession.stage_trace s).

(** The invariant of a review score. *)
Definition well_scored (sc : ReviewScore.t) : Prop :=
  1 ≤ ReviewScore.accuracy_score sc ≤ 10 ∧
  1 ≤ ReviewScore.insight_score sc ≤ 10 ∧
  ReviewScore.score sc =
    (ReviewScore.accuracy_score sc + ReviewScore.insight_score sc) / 2.

(** The rational of an integer. *)
Definition Qc_of_Z (z : Z) : Qc := Q2Qc (inject_Z z).

(** The exception a reply that is no HTTP answer raises in the client. *)
Definition transport_exception {P} (reply : http_outcome P) : option exn :=
  match reply with
  | TimedOut msg => Some (TimeoutException msg)
  | Failed msg => Some (TransportError msg)
  | Answered _ _ _ _ => None
  end.


(** Who a session is: its id and the query it was opened for. *)
Definition identity (s : CouncilSession.t) : pystr * pystr :=
  (CouncilSession.session_id s, CouncilSession.query s).

(** The orchestrator as seen by everyone but the run whose session is at
    address [a]: the other session objects, who every session is, the
    registry, the counter of runs in flight and the identifiers drawn. *)
Definition bystanders (a : nat) (w : World)
    : list CouncilSession.t * list CouncilSession.t * list (pystr * pystr) *
      pydict nat * Z * nat :=
  (take a (heap w), drop (S a) (heap w), identity <$> heap w, _sessions w, _inflight w,
   uuid_draws w).

(** Every address the registry holds is allocated, as every value of the
    dict [_sessions] is an object. *)
Definition registry_ok (w : World) : Prop :=
  Forall (λ item : pystr * nat, (item.2 < length (heap w))%nat) (_sessions w).

(** The answer to a health probe that makes the node ONLINE: status 200
    and a body that reads as JSON. *)
Definition probe_ok (reply : http_outcome tags_payload) : Prop :=
  ∃ text payload dt, reply = Answered 200 text (Some payload) dt.

(** What a world looks like to the orchestrator once a run that started
    in [w] is over. *)
Definition run_footprint `{Environment} (query : pystr) (w w' : World) : Prop :=
  let sid := take 8 (uuid4 (uuid_draws w)) in
  (∃ s, heap w' = heap w ++ [s] ∧ identity s = (sid, query)) ∧
  _sessions w' = dict_set (_sessions w) sid (length (heap w)) ∧
  _inflight w' = _inflight w ∧
  uuid_draws w' = S (uuid_draws w).




(** [m] only adds to the log of requests, and at most [k] of them. *)
Definition spends {A} (k : nat) (m : M A) : Prop :=
  ∀ w, ∃ extra, calls (m w).2 = calls w ++ extra ∧ (length extra ≤ k)%nat.

(** ** Concrete deployments, for the worked examples *)

Definition alpha : LLMNode.t :=
  LLMNode.mk (py "Counselor-Alpha") (py "http://localhost") 11434 (py "llama3.2") false.

Definition beta : LLMNode.t :=
  LLMNode.mk (py "Counselor-Beta") (py "http://localhost") 11435 (py "mistral") false.

Definition chair : LLMNode.t :=
  LLMNode.mk (py "Chairman") (py "http://localhost") 11436 (py "mistral") true.

Definition demo_config : CouncilConfig.t :=
  CouncilConfig.mk [alpha; beta] (Some chair) 300 (py "local") None
    (py "/api/chairman/synthesize") 900.

(** One text that serves as an answer, as a review of two candidates and
    as a synthesis. *)
Definition demo_text : pystr :=
  py "Response A - Accuracy Score: 8/10, Insight Score: 6/10. Reasoning: sound. " ++
  py "[Response B] Accuracy Score: 9/10 Insight Score: 12/10 Reasoning: thorough. " ++
  py "[end] FINAL ANSWER: 4 REASONING SUMMARY: both answers agree".

Definition demo_payload : chat_payload :=
  {| message_content := Some demo_text; eval_count := Some 42;
     prompt_eval_count := Some 7 |}.

(** Every node answers every request with [demo_text]. *)
Definition demo_environment : Environment := {|
  get_config := demo_config;
  chat_backend := λ _ _ _ _, Answered 200 [] (Some demo_payload) (Q2Qc 15);
  remote_backend := λ _ _ _ _, Failed (py "connection refused");
  uuid4 := λ _, py "123e4567-e89b-42d3-a456-426614174000";
  perf_counter_ms := λ cs, Q2Qc (inject_Z (Z.of_nat (length cs)));
|}.

(** The same council with every node timing out. *)
Definition silent_environment : Environment := {|
  get_config := demo_config;
  chat_backend := λ _ _ _ _, TimedOut [];
  remote_backend := λ _ _ _ _, TimedOut [];
  uuid4 := λ _, py "123e4567-e89b-42d3-a456-426614174000";
  perf_counter_ms := λ cs, Q2Qc (inject_Z (Z.of_nat (length cs)));
|}.

(** A council of one member. *)
Definition solo_environment : Environment := {|
  get_config :=
    CouncilConfig.mk [alpha] (Some chair) 300 (py "local") None
      (py "/api/chairman/synthesize") 900;
  chat_backend := λ _ _ _ _, Answered 200 [] (Some demo_payload) (Q2Qc 15);
  remote_backend := λ _ _ _ _, Failed (py "connection refused");
  uuid4 := λ _, py "123e4567-e89b-42d3-a456-426614174000";
  perf_counter_ms := λ cs, Q2Qc (inject_Z (Z.of_nat (length cs)));
|}.

(** Remote chairman mode, written with capitals and blanks, and no base
    URL. *)
Definition remote_environment : Environment := {|
  get_config :=
    CouncilConfig.mk [alpha; beta] (Some chair) 300 (py " Remote ") None
      (py "/api/chairman/synthesize") 900;
  chat_backend := λ _ _ _ _, Answered 200 [] (Some demo_payload) (Q2Qc 15);
  remote_backend := λ _ _ _ _, Failed (py "connection refused");
  uuid4 := λ _, py "123e4567-e89b-42d3-a456-426614174000";
  perf_counter_ms := λ cs, Q2Qc (inject_Z (Z.of_nat (length cs)));
|}.

Definition demo_query : pystr := py "2+2?".

Definition opinion_of (node : LLMNode.t) : FirstOpinionResponse.t :=
  FirstOpinionResponse.mk (LLMNode.name node) (LLMNode.model node) demo_text (Q2Qc 15)
    (Some 42).

Definition demo_opinions : list FirstOpinionResponse.t := [opinion_of alpha; opinion_of beta].

Definition demo_pool : list candidate :=
  [(py "Response A", demo_text, py "Counselor-Alpha");
   (py "Response B", demo_text, py "Counselor-Beta")].

(** A transcript that ignores the template. *)
Definition idle_transcript : pystr := py "The answers look fine to me.".

(** Two members that the configuration file left unnamed: both get the
    default name of [_node_from_dict]. *)
Definition unnamed_opinions : list FirstOpinionResponse.t :=
  [FirstOpinionResponse.mk (py "Counselor") (py "llama3.2") (py "four") (Q2Qc 15) None;
   FirstOpinionResponse.mk (py "Counselor") (py "llama3.2") (py "4") (Q2Qc 15) None].

(** The review rounds the examples look at. *)
Definition demo_round : result (list ReviewScore.t * pydict Qc) * World :=
  get_all_reviews (H:=ascii_runtime) (H0:=demo_environment) demo_query demo_opinions
    empty_world.

Definition solo_round : result (list ReviewScore.t * pydict Qc) * World :=
  get_all_reviews (H:=ascii_runtime) (H0:=solo_environment) demo_query [opinion_of alpha]
    empty_world.

Definition round_scores (round : result (list ReviewScore.t * pydict Qc) * World)
    : list ReviewScore.t :=
  match round.1 with
  | inr (scores, _) => scores
  | inl _ => []
  end.

Definition round_rankings (round : result (list ReviewScore.t * pydict Qc) * World)
    : pydict Qc :=
  match round.1 with
  | inr (_, rankings) => rankings
  | inl _ => []
  end.

(** A world whose only session has gone through phase 1 without getting
    any opinion. *)
Definition empty_handed : CouncilSession.t :=
  CouncilSession.set_first_opinions []
    (CouncilSession.set_stage CouncilStage.FIRST_OPINIONS
       (CouncilSession.new (py "123e4567") demo_query)).

Definition empty_handed_world : World := with_heap (λ _, [empty_handed]) empty_world.

(** Every node refuses every request with status 503. *)
Definition refusing_environment : Environment := {|
  get_config := demo_config;
  chat_backend := λ _ _ _ _, Answered 503 (py "overloaded") None (Q2Qc 3);
  remote_backend := λ _ _ _ _, Answered 503 (py "overloaded") None (Q2Qc 3);
  uuid4 := λ _, py "123e4567-e89b-42d3-a456-426614174000";
  perf_counter_ms := λ cs, Q2Qc (inject_Z (Z.of_nat (length cs)));
|}.

(** The demo council with no chairman node configured. *)
Definition headless_environment : Environment := {|
  get_config :=
    CouncilConfig.mk [alpha; beta] None 300 (py "local") None
      (py "/api/chairman/synthesize") 900;
  chat_backend := λ _ _ _ _, Answered 200 [] (Some demo_payload) (Q2Qc 15);
  remote_backend := λ _ _ _ _, Failed (py "connection refused");
  uuid4 := λ _, py "123e4567-e89b-42d3-a456-426614174000";
  perf_counter_ms := λ cs, Q2Qc (inject_Z (Z.of_nat (length cs)));
|}.

(** What a remote chairman written against the aliases sends back. *)
Definition alias_payload : remote_payload :=
  {| rp_chairman_name := None; rp_model := None; rp_final_response := None;
     rp_final := Some (py "4"); rp_reasoning_summary := None; rp_reasoning := None;
     rp_latency_ms := None |}.

(** Remote chairman mode with a base URL that ends in a slash. *)
Definition delegating_environment : Environment := {|
  get_config :=
    CouncilConfig.mk [alpha; beta] (Some chair) 300 (py "remote")
      (Some (py "http://chair:9000/")) (py "/api/chairman/synthesize") 900;
  chat_backend := λ _ _ _ _, Answered 200 [] (Some demo_payload) (Q2Qc 15);
  remote_backend := λ _ _ _ _, Answered 200 [] (Some alias_payload) (Q2Qc 40);
  uuid4 := λ _, py "123e4567-e89b-42d3-a456-426614174000";
  perf_counter_ms := λ cs, Q2Qc (inject_Z (Z.of_nat (length cs)));
|}.

(** The world of the demo council after one session was created. *)
Definition one_session_world : World :=
  (create_session (H0:=demo_environment) demo_query empty_world).2.

(** Health probes that all come back with status 200 and an empty list
    of models. *)
Definition demo_probes (i : nat) : http_outcome tags_payload :=
  Answered 200 [] (Some {| tag_models := [] |}) (Q2Qc 5).

(** * Properties *)

(** ** The matcher finds a match exactly when there is one *)

Section RegexFacts.
Context `{Runtime}.

Lemma lazy_any_is_Some k s :
  is_Some (lazy_any k s) ↔ ∃ skipped rest, s = skipped ++ rest ∧ is_Some (k rest).
Proof.
  induction s as [|c s IH]; simpl.
  - destruct (k []) as [groups|] eqn:Hk.
    + split; [intros _; exists [], []; by rewrite Hk|by eauto].
    + split; [by intros []|]. intros (skipped & rest & Heq & Hsome).
      symmetry in Heq. apply app_eq_nil in Heq as [-> ->]. by rewrite Hk in Hsome.
  - destruct (k (c :: s)) as [groups|] eqn:Hk.
    + split; [intros _; exists [], (c :: s); by rewrite Hk|by eauto].
    + rewrite IH. split.
      * intros (skipped & rest & -> & Hsome). by exists (c :: skipped), rest.
      * intros (skipped & rest & Heq & Hsome). destruct skipped as [|c' skipped].
        -- simpl in Heq. subst rest. by rewrite Hk in Hsome.
        -- injection Heq as -> ->. by exists skipped, rest.
Qed.

Lemma greedy_star_is_Some cls k s :
  is_Some (greedy_star cls k s) ↔
  ∃ run rest, s = run ++ rest ∧ Forall (λ c, cls c = true) run ∧ is_Some (k rest).
Proof.
  induction s as [|c s IH]; simpl.
  - destruct (k []) as [groups|] eqn:Hk.
    + split; [intros _; exists [], []; by rewrite Hk|by eauto].
    + split; [by intros []|]. intros (run & rest & Heq & _ & Hsome).
      symmetry in Heq. apply app_eq_nil in Heq as [-> ->]. by rewrite Hk in Hsome.
  - destruct (cls c) eqn:Hc.
    + destruct (greedy_star cls k s) as [[g groups]|] eqn:Hstar.
      * split; [intros _|by eauto].
        destruct (proj1 IH) as (run & rest & -> & Hrun & Hsome); [by eauto|].
        exists (c :: run), rest. split; [done|]. split; [by constructor|done].
      * destruct (k (c :: s)) as [groups|] eqn:Hk.
        -- split; [intros _; exists [], (c :: s); by rewrite Hk|by eauto].
        -- split; [by intros []|]. intros (run & rest & Heq & Hrun & Hsome).
           destruct run as [|c' run].
           ++ simpl in Heq. subst rest. by rewrite Hk in Hsome.
           ++ injection Heq as -> ->. apply Forall_cons in Hrun as [_ Hrun].
              destruct (proj2 IH) as [? [=]]. by exists run, rest.
    + destruct (k (c :: s)) as [groups|] eqn:Hk.
      * split; [intros _; exists [], (c :: s); by rewrite Hk|by eauto].
      * split; [by intros []|]. intros (run & rest & Heq & Hrun & Hsome).
        destruct run as [|c' run].
        -- simpl in Heq. subst rest. by rewrite Hk in Hsome.
        -- injection Heq as -> ->. apply Forall_cons in Hrun as [Hc' _]. congruence.
Qed.

Lemma greedy_plus_is_Some cls capture k s :
  is_Some (greedy_plus cls capture k s) ↔
  ∃ x run rest, s = x :: run ++ rest ∧ cls x = true ∧
    Forall (λ c, cls c = true) run ∧ is_Some (k rest).
Proof.
  unfold greedy_plus. destruct s as [|c s].
  - split; [by intros []|]. by intros (x & run & rest & [=] & _).
  - destruct (cls c) eqn:Hc.
    + pose proof (greedy_star_is_Some cls k s) as Hstar.
      destruct (greedy_star cls k s) as [[g groups]|].
      * split; [intros _|by eauto].
        destruct (proj1 Hstar) as (run & rest & -> & Hrun & Hsome); [by eauto|].
        by exists c, run, rest.
      * split; [by intros []|]. intros (x & run & rest & [= -> ->] & _ & Hrun & Hsome).
        destruct (proj2 Hstar) as [? [=]]. by exists run, rest.
    + split; [by intros []|]. intros (x & run & rest & [= -> ->] & Hx & _). congruence.
Qed.

(** The backtracking matcher is sound and complete for [matches]. *)
Lemma re_match_is_Some pat s : is_Some (re_match pat s) ↔ matches pat s.
Proof.
  revert s. induction pat as [|item pat IH]; intros s.
  - simpl. split; [intros _; constructor|by eauto].
  - destruct item as [c| |cls capture]; simpl.
    + destruct s as [|x s].
      * split; [by intros []|]. inversion 1.
      * destruct (sre_ci_match c x) eqn:Hcx.
        -- rewrite IH. split; [by constructor|]. by inversion 1.
        -- split; [by intros []|]. inversion 1; congruence.
    + rewrite lazy_any_is_Some. split.
      * intros (skipped & rest & -> & Hsome). constructor. by apply IH.
      * inversion 1 as [| |skipped pat' rest Hrest|]; subst.
        exists skipped, rest. split; [done|]. by apply IH.
    + rewrite greedy_plus_is_Some. split.
      * intros (x & run & rest & -> & Hx & Hrun & Hsome). constructor; [done|done|].
        by apply IH.
      * inversion 1 as [| | |cls' cap' x run pat' rest Hx Hrun Hrest]; subst.
        exists x, run, rest. repeat split; [done|done|]. by apply IH.
Qed.

(** [re.search] finds something exactly when the pattern occurs. *)
Lemma re_search_is_Some pat s : is_Some (re_search pat s) ↔ occurs pat s.
Proof.
  unfold occurs. induction s as [|c s IH]; simpl.
  - pose proof (re_match_is_Some pat []) as Hm. destruct (re_match pat []) as [groups|].
    + split; [intros _|by eauto]. exists [], []. split; [done|]. apply Hm. by eauto.
    + split; [by intros []|]. intros (before & rest & Heq & Hrest).
      symmetry in Heq. apply app_eq_nil in Heq as [-> ->].
      apply Hm in Hrest. by destruct Hrest.
  - pose proof (re_match_is_Some pat (c :: s)) as Hm.
    destruct (re_match pat (c :: s)) as [groups|].
    + split; [intros _|by eauto]. exists [], (c :: s). split; [done|]. apply Hm. by eauto.
    + rewrite IH. split.
      * intros (before & rest & -> & Hrest). by exists (c :: before), rest.
      * intros (before & rest & Heq & Hrest). destruct before as [|c' before].
        -- simpl in Heq. subst rest. apply Hm in Hrest. by destruct Hrest.
        -- injection Heq as -> ->. by exists before, rest.
Qed.

Lemma re_search_None pat s : re_search pat s = None ↔ ¬ occurs pat s.
Proof.
  rewrite <- re_search_is_Some. destruct (re_search pat s) as [groups|].
  - split; [done|]. intros Hn. destruct Hn. by eauto.
  - split; [|done]. by intros _ [? [=]].
Qed.

End RegexFacts.

Section TemplateFacts.
Context `{Runtime}.

Lemma matches_literal_iff lit pat s :
  matches (literal lit ++ pat) s ↔
  ∃ s1 s2, s = s1 ++ s2 ∧ ci_equal lit s1 ∧ matches pat s2.
Proof.
  unfold ci_equal. revert s. induction lit as [|c lit IH]; intros s; simpl.
  - split.
    + intros Hm. exists [], s. split; [done|]. split; [constructor|done].
    + intros (s1 & s2 & -> & Hl & Hm). by inversion Hl.
  - split.
    + inversion 1 as [|c' x pat' s' Hcx Hrest| |]; subst.
      apply IH in Hrest as (s1 & s2 & -> & Hl & Hm).
      exists (x :: s1), s2. split; [done|]. split; [by constructor|done].
    + intros (s1 & s2 & -> & Hl & Hm). inversion Hl as [|c' x lit' s1' Hcx Hl']; subst.
      simpl. constructor; [done|]. apply IH. by exists s1', s2.
Qed.

Lemma matches_lazy_iff pat s :
  matches (LazyAny :: pat) s ↔ ∃ gap s2, s = gap ++ s2 ∧ matches pat s2.
Proof.
  split.
  - inversion 1; subst. by eexists _, _.
  - intros (gap & s2 & -> & Hm). by constructor.
Qed.

Lemma matches_figure_iff capture pat s :
  matches (Plus is_decimal capture :: pat) s ↔
  ∃ fig s2, s = fig ++ s2 ∧ figure fig ∧ matches pat s2.
Proof.
  unfold figure. split.
  - inversion 1 as [| | |cls cap x run pat' s2 Hx Hrun Hm]; subst.
    exists (x :: run), s2. split; [done|]. split; [|done]. split; [done|by constructor].
  - intros (fig & s2 & -> & [Hne Hfig] & Hm). destruct fig as [|x run]; [done|].
    apply Forall_cons in Hfig as [Hx Hrun]. simpl. by constructor.
Qed.

(** The score pattern occurs in a transcript exactly when the transcript
    has the label followed by the two scores. *)
Lemma occurs_score_pattern label text :
  occurs (score_pattern label) text ↔ has_scores label text.
Proof.
  unfold occurs, has_scores, score_pattern. split.
  - intros (before & s0 & -> & Hm).
    apply matches_literal_iff in Hm as (label' & s1 & -> & Hlabel & Hm).
    apply matches_lazy_iff in Hm as (gap1 & s2 & -> & Hm).
    apply matches_literal_iff in Hm as (accuracy & s3 & -> & Hacc & Hm).
    apply matches_lazy_iff in Hm as (gap2 & s4 & -> & Hm).
    apply matches_figure_iff in Hm as (fig1 & s5 & -> & Hfig1 & Hm).
    apply matches_lazy_iff in Hm as (gap3 & s6 & -> & Hm).
    apply matches_literal_iff in Hm as (insight & s7 & -> & Hins & Hm).
    apply matches_lazy_iff in Hm as (gap4 & s8 & -> & Hm).
    apply matches_figure_iff in Hm as (fig2 & rest & -> & Hfig2 & _).
    by exists before, label', gap1, accuracy, gap2, fig1, gap3, insight, gap4, fig2, rest.
  - intros (before & label' & gap1 & accuracy & gap2 & fig1 & gap3 & insight & gap4 &
            fig2 & rest & -> & Hlabel & Hacc & Hfig1 & Hins & Hfig2).
    eexists before, _. split; [reflexivity|].
    apply matches_literal_iff. eexists _, _. split; [reflexivity|]. split; [done|].
    apply matches_lazy_iff. eexists _, _. split; [reflexivity|].
    apply matches_literal_iff. eexists _, _. split; [reflexivity|]. split; [done|].
    apply matches_lazy_iff. eexists _, _. split; [reflexivity|].
    apply matches_figure_iff. eexists _, _. split; [reflexivity|]. split; [done|].
    apply matches_lazy_iff. eexists _, _. split; [reflexivity|].
    apply matches_literal_iff. eexists _, _. split; [reflexivity|]. split; [done|].
    apply matches_lazy_iff. eexists _, _. split; [reflexivity|].
    apply matches_figure_iff. eexists _, _. split; [reflexivity|]. split; [done|].
    constructor.
Qed.

(** The test of the parser, [re.search(...)] returning [None], in the
    words of the specification. *)
Lemma score_search_None label text :
  re_search (score_pattern label) text = None ↔ ¬ has_scores label text.
Proof. by rewrite re_search_None, occurs_score_pattern. Qed.

End TemplateFacts.

(** ** Review Parser *)

Section ReviewParserFacts.
Context `{Runtime}.

Lemma clamp_score_bounds v : 1 ≤ clamp_score v ≤ 10.
Proof. unfold clamp_score. lia. Qed.

Lemma new_in_bounds reviewer label owner sc reasoning acc ins :
  1 ≤ sc ≤ 10 → 1 ≤ acc ≤ 10 → 1 ≤ ins ≤ 10 →
  ReviewScore.new reviewer label owner sc reasoning acc ins =
  inr (ReviewScore.mk reviewer label owner sc reasoning acc ins).
Proof.
  intros Hs Ha Hi. unfold ReviewScore.new, ReviewScore.in_bounds.
  rewrite !bool_decide_eq_true_2 by done. done.
Qed.

Lemma parse_scores_bounds text label acc ins :
  parse_scores text label = inr (acc, ins) → 1 ≤ acc ≤ 10 ∧ 1 ≤ ins ≤ 10.
Proof.
  unfold parse_scores. destruct (re_search _ _) as [m|]; simpl.
  - destruct (group m 1) as [?|g1]; simpl; [done|].
    destruct (py_int g1) as [?|v1]; simpl; [done|].
    destruct (group m 2) as [?|g2]; simpl; [done|].
    destruct (py_int g2) as [?|v2]; simpl; [done|].
    intros [= <- <-]. split; apply clamp_score_bounds.
  - intros [= <- <-]. lia.
Qed.

(** What one iteration of the loop appends: either the score built by the
    [try] block or the default of the handler; never an exception. *)
Lemma parse_candidate_cases reviewer text label body owner :
  (∃ acc ins reasoning,
      parse_scores text label = inr (acc, ins) ∧
      parse_reasoning text label = inr reasoning ∧
      parse_candidate reviewer text (label, body, owner) =
      inr (ReviewScore.mk reviewer label owner ((acc + ins) / 2) reasoning acc ins)) ∨
  ((failed (parse_scores text label) ∨ failed (parse_reasoning text label)) ∧
   parse_candidate reviewer text (label, body, owner) =
   inr (ReviewScore.mk reviewer label owner 7 parsing_failed 7 7)).
Proof.
  unfold parse_candidate, try_except.
  destruct (parse_scores text label) as [e|[acc ins]] eqn:Hs; simpl.
  { right. split; [by left|]. by rewrite new_in_bounds. }
  destruct (parse_scores_bounds _ _ _ _ Hs) as [Ha Hi].
  destruct (parse_reasoning text label) as [e|reasoning] eqn:Hr; simpl.
  { right. split; [by right|]. by rewrite new_in_bounds. }
  left. exists acc, ins, reasoning. repeat split.
  rewrite new_in_bounds; [done| |done|done].
  split; [apply Z.div_le_lower_bound | apply Z.div_le_upper_bound]; lia.
Qed.

Lemma parse_candidate_ok reviewer text (c : candidate) :
  ∃ sc, parse_candidate reviewer text c = inr sc ∧
        ReviewScore.reviewer_name sc = reviewer ∧
        ReviewScore.reviewed_name sc = c.1.1 ∧
        ReviewScore.original_name sc = c.2 ∧
        well_scored sc.
Proof.
  destruct c as [[label body] owner].
  destruct (parse_candidate_cases reviewer text label body owner)
    as [(acc & ins & reasoning & Hs & _ & ->) | [_ ->]].
  - apply parse_scores_bounds in Hs. eexists. split; [reflexivity|].
    unfold well_scored. simpl. repeat split; lia.
  - eexists. split; [reflexivity|]. unfold well_scored. simpl. repeat split; lia.
Qed.

(** The loop appends to [out] one score per pool entry, in pool order. *)
Lemma parse_loop_ok reviewer text pool out :
  ∃ scores, parse_loop reviewer text pool out = inr (out ++ scores) ∧
    Forall2 (λ (c : candidate) sc,
               parse_candidate reviewer text c = inr sc) pool scores.
Proof.
  revert out. induction pool as [|c pool IH]; intros out; simpl.
  - exists []. by rewrite app_nil_r.
  - destruct (parse_candidate_ok reviewer text c) as (sc & Hsc & _). rewrite Hsc. simpl.
    destruct (IH (out ++ [sc])) as (scores & -> & Hall).
    exists (sc :: scores). rewrite <- app_assoc. split; [done|]. by constructor.
Qed.

Lemma _parse_review_response_ok reviewer text pool :
  ∃ scores, _parse_review_response reviewer text pool = inr scores ∧
    Forall2 (λ (c : candidate) sc,
               parse_candidate reviewer text c = inr sc) pool scores.
Proof. apply (parse_loop_ok reviewer text pool []). Qed.

(** C10. Whatever the reviewer's name and transcript, the parser returns
    (it does not raise) exactly one score per pool entry, in the order of
    the pool, and each score carries the label and the owner name of its
    entry. The pool may be empty: the list is then empty too. *)
Theorem parser_one_score_per_candidate reviewer text (pool : list candidate) :
  ∃ scores,
    _parse_review_response reviewer text pool = inr scores ∧
    length scores = length pool ∧
    (λ sc, (ReviewScore.reviewed_name sc, ReviewScore.original_name sc)) <$> scores =
    (λ c : candidate, (c.1.1, c.2)) <$> pool.
Proof.
  destruct (_parse_review_response_ok reviewer text pool) as (scores & Heq & Hall).
  exists scores. split; [done|]. split; [symmetry; by eapply Forall2_length|].
  clear Heq. induction Hall as [|c sc pool scores Hc _ IH]; [done|].
  rewrite !fmap_cons, IH. f_equal.
  destruct (parse_candidate_ok reviewer text c) as (sc' & Hsc' & _ & Hl & Ho & _).
  rewrite Hc in Hsc'. injection Hsc' as <-. by rewrite Hl, Ho.
Qed.

(** C6. Every score the parser produces has its accuracy and its insight
    in 1..10 and its composite equal to the floor of their half sum. *)
Theorem parser_scores_in_range reviewer text (pool : list candidate) scores sc :
  _parse_review_response reviewer text pool = inr scores →
  sc ∈ scores →
  1 ≤ ReviewScore.accuracy_score sc ≤ 10 ∧
  1 ≤ ReviewScore.insight_score sc ≤ 10 ∧
  ReviewScore.score sc =
    (ReviewScore.accuracy_score sc + ReviewScore.insight_score sc) / 2.
Proof.
  intros Heq Hin.
  destruct (_parse_review_response_ok reviewer text pool) as (scores' & Heq' & Hall).
  rewrite Heq in Heq'. injection Heq' as <-.
  apply list_elem_of_lookup in Hin as [i Hi].
  destruct (Forall2_lookup_r _ _ _ _ _ Hall Hi) as (c & _ & Hc).
  destruct (parse_candidate_ok reviewer text c) as (sc' & Hsc' & _ & _ & _ & Hw).
  rewrite Hc in Hsc'. by injection Hsc' as <-.
Qed.

(** When the scores are read from the transcript, they are the two
    figures clamped into 1..10. *)
Lemma parse_scores_clamped text label g1 g2 v1 v2 more :
  re_search (score_pattern label) text = Some (g1 :: g2 :: more) →
  py_int g1 = inr v1 → py_int g2 = inr v2 →
  parse_scores text label = inr (Z.min 10 (Z.max 1 v1), Z.min 10 (Z.max 1 v2)).
Proof.
  intros Hm H1 H2. unfold parse_scores. rewrite Hm. simpl. rewrite H1. simpl.
  by rewrite H2.
Qed.

(** C5. For a pool entry whose label is not followed in the transcript by
    an accuracy figure and an insight figure, the parser (which returns,
    never raises) gives that entry a score with accuracy 7 and insight 7,
    and, when no reasoning clause is found either, the placeholder
    reasoning. *)
Theorem parser_fallback_scores reviewer text (pool : list candidate) i label body owner :
  pool !! i = Some (label, body, owner) →
  ¬ has_scores label text →
  ∃ scores sc,
    _parse_review_response reviewer text pool = inr scores ∧
    scores !! i = Some sc ∧
    ReviewScore.reviewed_name sc = label ∧
    ReviewScore.accuracy_score sc = 7 ∧
    ReviewScore.insight_score sc = 7 ∧
    (¬ occurs (reasoning_pattern label) text →
     ReviewScore.reasoning sc = no_reasoning).
Proof.
  intros Hi Hnone. apply score_search_None in Hnone.
  destruct (_parse_review_response_ok reviewer text pool) as (scores & Heq & Hall).
  destruct (Forall2_lookup_l _ _ _ _ _ Hall Hi) as (sc & Hsc & Hc).
  exists scores, sc. split; [done|]. split; [done|].
  destruct (parse_candidate_cases reviewer text label body owner)
    as [(acc & ins & reasoning & Hs & Hr & Hp) | [Hbad Hp]];
    rewrite Hp in Hc; injection Hc as <-; simpl.
  - unfold parse_scores in Hs. rewrite Hnone in Hs. injection Hs as <- <-.
    repeat split. intros Hrn. apply re_search_None in Hrn.
    unfold parse_reasoning in Hr. rewrite Hrn in Hr.
    by injection Hr as <-.
  - repeat split. intros Hrn. apply re_search_None in Hrn.
    exfalso. destruct Hbad as [Hbad|Hbad].
    + unfold parse_scores in Hbad. by rewrite Hnone in Hbad.
    + unfold parse_reasoning in Hbad. by rewrite Hrn in Hbad.
Qed.

End ReviewParserFacts.

(** ** Node Client *)

Lemma token_stats_accounting payload : token_stats payload = token_accounting payload.
Proof.
  unfold token_stats, token_accounting.
  by destruct (eval_count payload), (prompt_eval_count payload).
Qed.

(** The summing branch is never taken: it asks for a completion count
    that the first test has just found missing. *)
Lemma token_stats_never_sums payload :
  token_stats payload = eval_count payload.
Proof. unfold token_stats. by destruct (eval_count payload), (prompt_eval_count payload). Qed.

Section NodeClientFacts.
Context `{Runtime} `{Environment}.

(** C1. When a node answers the generate call with status 200 and a
    payload, the opinion that comes back carries the token count the
    specification describes: the completion count if reported; else the
    sum of the prompt and completion counts if both are reported; else
    none. *)
Theorem opinion_token_count node query w text payload dt :
  chat_backend (calls w) (chat_url node)
    (chat_request node query (Some first_opinion_system))
    (CouncilConfig.llm_timeout get_config) = Answered 200 text (Some payload) dt →
  ∃ op w',
    get_first_opinion node query w = (inr op, w') ∧
    FirstOpinionResponse.llm_name op = LLMNode.name node ∧
    FirstOpinionResponse.token_count op = token_accounting payload.
Proof.
  intros Hreply.
  unfold get_first_opinion, generate_response, bind, catch, set_status, update, post_chat.
  simpl. rewrite Hreply. simpl.
  eexists _, _. split; [reflexivity|]. simpl. split; [done|].
  apply token_stats_accounting.
Qed.

End NodeClientFacts.

(** ** Review Aggregator: the ranking table *)

Lemma dict_get_setdefault_append {V} (d : pydict (list V)) key x name :
  dict_get (setdefault_append d key x) name =
  if decide (key = name) then Some (default [] (dict_get d key) ++ [x])
  else dict_get d name.
Proof.
  induction d as [|[k vals] d IH]; simpl.
  - by destruct (decide (key = name)).
  - destruct (decide (k = key)) as [->|Hk]; simpl.
    + by destruct (decide (key = name)).
    + destruct (decide (k = name)) as [->|Hn]; simpl.
      * destruct (decide (key = name)); [congruence|done].
      * rewrite IH. by destruct (decide (key = name)).
Qed.

Lemma dict_get_bucket_fold (scores : list ReviewScore.t) (buckets : pydict (list Z)) name :
  dict_get
    (foldl (λ b sc, setdefault_append b (ReviewScore.original_name sc) (ReviewScore.score sc))
           buckets scores) name =
  match dict_get buckets name, composites_of name scores with
  | None, [] => None
  | before, vals => Some (default [] before ++ vals)
  end.
Proof.
  revert buckets. induction scores as [|sc scores IH]; intros buckets.
  - unfold composites_of. simpl. destruct (dict_get buckets name); simpl; [|done].
    by rewrite app_nil_r.
  - simpl. rewrite IH, dict_get_setdefault_append. unfold composites_of.
    rewrite filter_cons.
    destruct (decide (ReviewScore.original_name sc = name)) as [->|Hne]; simpl.
    + destruct (dict_get buckets name); simpl; by rewrite <- ?app_assoc.
    + done.
Qed.

Lemma dict_get_bucket_scores scores name :
  dict_get (bucket_scores scores) name =
  match composites_of name scores with
  | [] => None
  | vals => Some vals
  end.
Proof. unfold bucket_scores. rewrite dict_get_bucket_fold. simpl. by destruct (composites_of _ _). Qed.

Lemma dict_get_average_scores buckets name :
  dict_get (average_scores buckets) name =
  (λ vals, match vals with [] => 0%Qc | _ => mean vals end) <$> dict_get buckets name.
Proof.
  induction buckets as [|[k vals] buckets IH]; [done|].
  simpl. destruct (decide (k = name)); [done|apply IH].
Qed.

(** C2, as the code has it. The ranking table has an entry exactly for the
    names that own at least one collected score, and the entry is the
    arithmetic mean of the composite scores with that owner. A candidate
    that received no score has no entry. *)
Theorem ranking_is_mean_of_scored (all_scores : list ReviewScore.t) name :
  dict_get (average_scores (bucket_scores all_scores)) name =
  match composites_of name all_scores with
  | [] => None
  | vals => Some (mean vals)
  end.
Proof.
  rewrite dict_get_average_scores, dict_get_bucket_scores.
  by destruct (composites_of name all_scores).
Qed.

(** ** The monad: what a computation leaves alone *)

Section Keeps.
Context {B : Type} (obs : World → B).

Lemma keeps_ret {A} (a : A) : keeps obs (ret a).
Proof. done. Qed.

Lemma keeps_throw {A} e : keeps obs (throw (A:=A) e).
Proof. done. Qed.

Lemma keeps_lift {A} (r : result A) : keeps obs (lift r).
Proof. done. Qed.

Lemma keeps_read {A} (f : World → A) : keeps obs (read f).
Proof. done. Qed.

Lemma keeps_update f : (∀ w, obs (f w) = obs w) → keeps obs (update f).
Proof. intros Hf w. apply Hf. Qed.

Lemma keeps_bind {A C} (m : M A) (k : A → M C) :
  keeps obs m → (∀ a, keeps obs (k a)) → keeps obs (bind m k).
Proof.
  intros Hm Hk w. unfold bind. specialize (Hm w).
  destruct (m w) as [[e|a] w1]; simpl in *; [done|]. by rewrite Hk.
Qed.

Lemma keeps_catch {A} (body : M A) handler :
  keeps obs body → (∀ e, keeps obs (handler e)) → keeps obs (catch body handler).
Proof.
  intros Hm Hk w. unfold catch. specialize (Hm w).
  destruct (body w) as [[e|a] w1]; simpl in *; [|done]. by rewrite Hk.
Qed.

Lemma keeps_gather {A} (jobs : list (M A)) :
  Forall (keeps obs) jobs → keeps obs (gather jobs).
Proof.
  induction 1 as [|job jobs Hjob _ IH]; [done|].
  intros w. simpl. specialize (Hjob w). destruct (job w) as [r w1]; simpl in *.
  specialize (IH w1). destruct (gather jobs w1) as [[e|rs] w2]; simpl in *; congruence.
Qed.
End Keeps.

Lemma gather_total {A} (jobs : list (M A)) w :
  ∃ rs w', gather jobs w = (inr rs, w') ∧ length rs = length jobs.
Proof.
  revert w. induction jobs as [|job jobs IH]; intros w; simpl.
  - by eexists _, _.
  - destruct (job w) as [r w1]. destruct (IH w1) as (rs & w2 & -> & Hlen).
    eexists _, _. split; [done|]. simpl. by rewrite Hlen.
Qed.

(** Each result of a [gather] is the result of its job in some world. *)
Lemma gather_results {A} (jobs : list (M A)) w rs w' :
  gather jobs w = (inr rs, w') →
  Forall2 (λ job r, ∃ w1 w2, job w1 = (r, w2)) jobs rs.
Proof.
  revert w rs. induction jobs as [|job jobs IH]; intros w rs; simpl.
  - intros [= <- <-]. constructor.
  - destruct (job w) as [r w1] eqn:Hjob.
    destruct (gather jobs w1) as [[e|rs'] w2] eqn:Hrest; [done|].
    intros [= <- <-]. constructor; [by eexists _, _|]. by eapply IH.
Qed.

Section ServiceFrames.
Context `{Runtime} `{Environment}.

Lemma keeps_post_chat url body timeout : keeps orchestrator_part (post_chat url body timeout).
Proof. intros w. unfold post_chat. by destruct (chat_backend _ _ _ _). Qed.

Lemma keeps_post_remote url body timeout :
  keeps orchestrator_part (post_remote url body timeout).
Proof. intros w. unfold post_remote. by destruct (remote_backend _ _ _ _). Qed.

Lemma keeps_json_of {P} (json : option P) : keeps orchestrator_part (json_of json).
Proof. by destruct json. Qed.

Lemma keeps_generate_response node prompt system_prompt :
  keeps orchestrator_part (generate_response node prompt system_prompt).
Proof.
  unfold generate_response. apply keeps_catch.
  - apply keeps_bind; [by apply keeps_update|]. intros _.
    apply keeps_bind; [apply keeps_post_chat|]. intros [[[code text] json] dt].
    apply keeps_bind; [by apply keeps_update|]. intros _.
    apply keeps_bind; [by apply keeps_update|]. intros _.
    case_bool_decide; [apply keeps_throw|].
    apply keeps_bind; [apply keeps_json_of|]. intros payload. apply keeps_ret.
  - intros e. apply keeps_bind; [by apply keeps_update|]. intros _. apply keeps_throw.
Qed.

Lemma keeps_get_first_opinion node query :
  keeps orchestrator_part (get_first_opinion node query).
Proof.
  unfold get_first_opinion. apply keeps_bind; [apply keeps_generate_response|].
  intros [[text ms] tok]. apply keeps_ret.
Qed.

Lemma keeps_get_all_first_opinions query :
  keeps orchestrator_part (get_all_first_opinions query).
Proof.
  unfold get_all_first_opinions. apply keeps_bind; [|intros; apply keeps_ret].
  apply keeps_gather, Forall_fmap, Forall_forall. intros node _.
  apply keeps_get_first_opinion.
Qed.

Lemma keeps_get_review node query responses exclude_name :
  keeps orchestrator_part (get_review node query responses exclude_name).
Proof.
  unfold get_review. destruct (filter _ responses); [apply keeps_ret|].
  apply keeps_catch; [|intros; apply keeps_ret].
  apply keeps_bind; [apply keeps_generate_response|].
  intros [[raw ?] ?]. apply keeps_lift.
Qed.

Lemma keeps_get_all_reviews query first_opinions :
  keeps orchestrator_part (get_all_reviews query first_opinions).
Proof.
  unfold get_all_reviews. apply keeps_bind; [apply keeps_lift|]. intros bundle.
  apply keeps_bind; [|intros; apply keeps_ret].
  apply keeps_gather, Forall_fmap, Forall_forall. intros node _.
  apply keeps_get_review.
Qed.

Lemma keeps_get_chairman_synthesis query first_opinions reviews rankings :
  keeps orchestrator_part (get_chairman_synthesis query first_opinions reviews rankings).
Proof.
  unfold get_chairman_synthesis. case_bool_decide.
  - destruct (negb _); [apply keeps_throw|].
    apply keeps_bind; [apply keeps_post_remote|]. intros [[[code text] json] dt].
    case_bool_decide; [apply keeps_throw|].
    apply keeps_bind; [apply keeps_json_of|]. intros data.
    destruct (strict_synthesis data); apply keeps_ret.
  - destruct (CouncilConfig.chairman get_config) as [chair|]; [|apply keeps_throw].
    apply keeps_bind; [apply keeps_generate_response|]. intros [[text ms] ?].
    destruct (split_reply text). apply keeps_ret.
Qed.

Lemma get_all_first_opinions_total query w :
  ∃ answers w',
    get_all_first_opinions query w = (inr answers, w') ∧
    orchestrator_part w' = orchestrator_part w.
Proof.
  pose proof (keeps_get_all_first_opinions query w) as Hkeep.
  unfold get_all_first_opinions, bind in *.
  destruct (gather_total
              ((λ n, get_first_opinion n query) <$> CouncilConfig.council_members get_config) w)
    as (rs & w' & Hg & _).
  rewrite Hg in *. by eexists _, _.
Qed.

End ServiceFrames.

(** ** Review Aggregator: labels and reviewers *)

Lemma label_at_inj i j : 0 ≤ i → 0 ≤ j → label_at i = label_at j → i = j.
Proof.
  unfold label_at. intros Hi Hj Heq. apply app_inv_head in Heq.
  injection Heq as Heq. apply Z2N.inj in Heq; lia.
Qed.

Lemma anonymize_in_range ops (i0 : Z) :
  0 ≤ i0 → i0 + Z.of_nat (length ops) ≤ max_labels →
  anonymize i0 ops =
  inr (imap (λ k op, (label_at (i0 + Z.of_nat k), FirstOpinionResponse.response op,
                      FirstOpinionResponse.llm_name op)) ops).
Proof.
  revert i0. induction ops as [|op ops IH]; intros i0 H0 Hlen; [done|].
  simpl in Hlen. unfold max_labels in *. simpl. unfold py_chr.
  rewrite bool_decide_eq_true_2 by lia. simpl.
  rewrite IH by lia. simpl. f_equal. f_equal.
  - unfold label_at. by rewrite Z.add_0_r.
  - apply imap_ext. intros k op' _. simpl. unfold label_at.
    by replace (i0 + 1 + Z.of_nat k) with (i0 + Z.of_nat (S k)) by lia.
Qed.

Lemma anonymize_out_of_range ops (i0 : Z) :
  0 ≤ i0 ≤ max_labels → max_labels < i0 + Z.of_nat (length ops) →
  failed (anonymize i0 ops).
Proof.
  revert i0. unfold max_labels. induction ops as [|op ops IH]; intros i0 H0 Hlen.
  - simpl in Hlen. lia.
  - simpl. unfold py_chr. case_bool_decide as Hc; simpl; [|done].
    specialize (IH (i0 + 1)). simpl in Hlen.
    destruct (anonymize (i0 + 1) ops); simpl; [done|]. apply IH; lia.
Qed.

Section AggregatorFacts.
Context `{Runtime} `{Environment}.

(** What a reviewer contributes: scores in its own name, for candidates of
    the bundle that it does not own. *)
Lemma get_review_scores node query (responses : list candidate) exclude_name w scores w' :
  get_review node query responses exclude_name w = (inr scores, w') →
  Forall (λ sc, ReviewScore.reviewer_name sc = LLMNode.name node ∧
                ReviewScore.original_name sc ≠ exclude_name ∧
                ∃ c : candidate, c ∈ responses ∧
                  ReviewScore.reviewed_name sc = c.1.1 ∧
                  ReviewScore.original_name sc = c.2) scores.
Proof.
  unfold get_review.
  remember (filter (λ c : candidate, c.2 ≠ exclude_name) responses) as pool eqn:Hpool.
  destruct pool as [|c0 pool0]; [intros [= <- <-]; constructor|].
  remember (c0 :: pool0) as pool eqn:Hcons. clear Hcons.
  unfold catch, bind, lift.
  destruct (generate_response _ _ _ w) as [[e|[[raw ms] tok]] w1]; simpl;
    [intros [= <- <-]; constructor|].
  destruct (_parse_review_response_ok (LLMNode.name node) raw pool) as (scores' & -> & Hall).
  intros [= <- <-]. apply Forall_forall. intros sc Hsc.
  apply list_elem_of_lookup in Hsc as [i Hi].
  destruct (Forall2_lookup_r _ _ _ _ _ Hall Hi) as (c & Hc & Hparse).
  destruct (parse_candidate_ok (LLMNode.name node) raw c)
    as (sc' & Hsc' & Hrev & Hlabel & Howner & _).
  rewrite Hparse in Hsc'. injection Hsc' as <-.
  assert (c ∈ pool) as Hin by (by eapply list_elem_of_lookup_2).
  rewrite Hpool in Hin. apply list_elem_of_filter in Hin as [Hne Hin].
  split; [done|]. split; [by rewrite Howner|]. by exists c.
Qed.

(** The round returns whenever the labels could be assigned, and its
    ranking table is the aggregate of the scores it returns. *)
Lemma get_all_reviews_returns query ops bundle w :
  anonymize 0 ops = inr bundle →
  ∃ scores w',
    get_all_reviews query ops w =
      (inr (scores, average_scores (bucket_scores scores)), w') ∧
    Forall (λ sc, ReviewScore.reviewer_name sc ≠ ReviewScore.original_name sc ∧
                  ∃ c : candidate, c ∈ bundle ∧
                    ReviewScore.reviewed_name sc = c.1.1 ∧
                    ReviewScore.original_name sc = c.2) scores.
Proof.
  intros Hb. unfold get_all_reviews, bind, lift. rewrite Hb.
  set (jobs := (λ node, get_review node query bundle (LLMNode.name node))
                 <$> CouncilConfig.council_members get_config).
  destruct (gather_total jobs w) as (rs & w' & Hg & _). rewrite Hg. simpl.
  eexists _, _. split; [reflexivity|].
  apply gather_results in Hg. apply Forall_concat, Forall_forall.
  intros scores Hscores. unfold successes in Hscores.
  apply list_elem_of_omap in Hscores as (r & Hr & Hsome).
  destruct r as [e|scores']; [done|]. injection Hsome as ->.
  apply list_elem_of_lookup in Hr as [i Hi].
  destruct (Forall2_lookup_r _ _ _ _ _ Hg Hi) as (job & Hjob & w1 & w2 & Hrun).
  unfold jobs in Hjob. rewrite list_lookup_fmap in Hjob.
  destruct (CouncilConfig.council_members get_config !! i) as [node|]; [|done].
  injection Hjob as <-. apply get_review_scores in Hrun.
  eapply Forall_impl; [exact Hrun|]. simpl.
  intros sc (Hrev & Hne & c & Hc). split; [by rewrite Hrev|]. by exists c.
Qed.

Lemma get_all_reviews_inv query ops w scores rankings w' :
  get_all_reviews query ops w = (inr (scores, rankings), w') →
  ∃ bundle, anonymize 0 ops = inr bundle ∧
    rankings = average_scores (bucket_scores scores) ∧
    Forall (λ sc, ReviewScore.reviewer_name sc ≠ ReviewScore.original_name sc ∧
                  ∃ c : candidate, c ∈ bundle ∧
                    ReviewScore.reviewed_name sc = c.1.1 ∧
                    ReviewScore.original_name sc = c.2) scores.
Proof.
  intros Hrun. destruct (anonymize 0 ops) as [e|bundle] eqn:Hb.
  - unfold get_all_reviews, bind, lift in Hrun. by rewrite Hb in Hrun.
  - destruct (get_all_reviews_returns query ops bundle w Hb) as (scores' & w'' & Heq & Hall).
    rewrite Heq in Hrun. injection Hrun as <- <- <-. by exists bundle.
Qed.

(** C2, as the code has it. In the result of a review round, the ranking
    table has an entry exactly for the names that own at least one of the
    collected scores, and the entry is the arithmetic mean of the
    composite scores with that owner. A candidate that received no score
    has no entry in the table. *)
Theorem ranking_table_of_round query ops w scores rankings w' :
  get_all_reviews query ops w = (inr (scores, rankings), w') →
  ∀ name,
    dict_get rankings name =
    match composites_of name scores with
    | [] => None
    | vals => Some (mean vals)
    end.
Proof.
  intros Hrun name. apply get_all_reviews_inv in Hrun as (_ & _ & -> & _).
  apply ranking_is_mean_of_scored.
Qed.

Lemma anon_bundle_labels ops :
  (λ c : candidate, c.1.1) <$> anon_bundle_of ops =
  imap (λ i _, label_at (Z.of_nat i)) ops.
Proof. unfold anon_bundle_of. by rewrite fmap_imap. Qed.

Lemma anon_bundle_owners ops :
  (λ c : candidate, c.2) <$> anon_bundle_of ops = FirstOpinionResponse.llm_name <$> ops.
Proof.
  unfold anon_bundle_of. rewrite fmap_imap. apply list_eq. intros i.
  rewrite list_lookup_imap, list_lookup_fmap. by destruct (ops !! i).
Qed.

Lemma anon_bundle_labels_NoDup ops :
  NoDup ((λ c : candidate, c.1.1) <$> anon_bundle_of ops).
Proof.
  rewrite anon_bundle_labels. apply NoDup_alt. intros i j l.
  rewrite !list_lookup_imap. destruct (ops !! i), (ops !! j); simpl; try done.
  intros Hl1 Hl2.
  assert (label_at (Z.of_nat i) = label_at (Z.of_nat j)) as Heq by congruence.
  apply label_at_inj in Heq; lia.
Qed.

Lemma anon_bundle_lookup ops i op :
  ops !! i = Some op →
  anon_bundle_of ops !! i =
  Some (label_at (Z.of_nat i), FirstOpinionResponse.response op,
        FirstOpinionResponse.llm_name op).
Proof. intros Hi. unfold anon_bundle_of. by rewrite list_lookup_imap, Hi. Qed.

(** Two entries with the same label are the same entry. *)
Lemma anon_bundle_label_functional ops (c1 c2 : candidate) :
  c1 ∈ anon_bundle_of ops → c2 ∈ anon_bundle_of ops → c1.1.1 = c2.1.1 → c1 = c2.
Proof.
  intros [i Hi]%list_elem_of_lookup [j Hj]%list_elem_of_lookup Heq.
  pose proof (anon_bundle_labels_NoDup ops) as Hnd.
  assert (i = j) as ->; [|congruence].
  eapply NoDup_lookup; [exact Hnd| |]; rewrite list_lookup_fmap.
  - by rewrite Hi.
  - rewrite Hj. simpl. by rewrite Heq.
Qed.

Lemma anon_bundle_bijective ops :
  NoDup (FirstOpinionResponse.llm_name <$> ops) → pairs_bijectively (anon_bundle_of ops).
Proof.
  intros Hnd c1 c2 Hc1 Hc2. split.
  - intros Heq. by rewrite (anon_bundle_label_functional ops c1 c2).
  - intros Heq. rewrite <- anon_bundle_owners in Hnd.
    apply list_elem_of_lookup in Hc1 as [i Hi]. apply list_elem_of_lookup in Hc2 as [j Hj].
    assert (i = j) as ->; [|congruence].
    eapply NoDup_lookup; [exact Hnd| |]; rewrite list_lookup_fmap.
    + by rewrite Hi.
    + rewrite Hj. simpl. by rewrite Heq.
Qed.

(** C8, as the code has it. In one review round over at most [max_labels]
    opinions, the labels are assigned by position in the opinions list
    (the entry at index i is [Response chr(65+i)] with the text and the
    owner of opinion i), whatever the world the round runs in; the labels
    are pairwise distinct, so each denotes one opinion; they pair one to
    one with the owners when the owners' names are pairwise distinct; and
    the round returns scores none of which has the reviewer as owner. *)
Theorem review_round_labels query ops w :
  Z.of_nat (length ops) ≤ max_labels →
  anonymize 0 ops = inr (anon_bundle_of ops) ∧
  (∀ i op, ops !! i = Some op →
     anon_bundle_of ops !! i =
     Some (label_at (Z.of_nat i), FirstOpinionResponse.response op,
           FirstOpinionResponse.llm_name op)) ∧
  NoDup ((λ c : candidate, c.1.1) <$> anon_bundle_of ops) ∧
  (NoDup (FirstOpinionResponse.llm_name <$> ops) → pairs_bijectively (anon_bundle_of ops)) ∧
  ∃ scores rankings w',
    get_all_reviews query ops w = (inr (scores, rankings), w') ∧
    ∀ sc, sc ∈ scores →
      ReviewScore.reviewer_name sc ≠ ReviewScore.original_name sc ∧
      ∃ c : candidate, c ∈ anon_bundle_of ops ∧
        ReviewScore.reviewed_name sc = c.1.1 ∧ ReviewScore.original_name sc = c.2.
Proof.
  intros Hlen.
  assert (anonymize 0 ops = inr (anon_bundle_of ops)) as Hb.
  { rewrite anonymize_in_range by lia. done. }
  split; [done|]. split; [apply anon_bundle_lookup|].
  split; [apply anon_bundle_labels_NoDup|]. split; [apply anon_bundle_bijective|].
  destruct (get_all_reviews_returns query ops _ w Hb) as (scores & w' & Heq & Hall).
  eexists _, _, _. split; [exact Heq|]. by apply Forall_forall.
Qed.

End AggregatorFacts.

(** ** Chairman Synthesizer *)

Section ChairmanFacts.
Context `{Runtime} `{Environment}.

(** C7. With the chairman mode configured as remote and no remote base
    URL, synthesis fails at once with a configuration error ([ValueError])
    and leaves the world, hence the list of requests issued, as it was. *)
Theorem remote_without_base_url_fails query ops reviews rankings w :
  chairman_mode_of get_config = py "remote" →
  truthy (CouncilConfig.chairman_remote_base_url get_config) = false →
  get_chairman_synthesis query ops reviews rankings w =
    (inl (ValueError
            (py "chairman.mode=remote but chairman.remote.base_url is missing in config.yaml")),
     w) ∧
  calls (get_chairman_synthesis query ops reviews rankings w).2 = calls w.
Proof.
  intros Hmode Hurl. unfold get_chairman_synthesis.
  rewrite bool_decide_eq_true_2 by done. rewrite Hurl. done.
Qed.

End ChairmanFacts.

(** ** Orchestration Pipeline: the rules of [triple] *)

Lemma orchestrator_part_eq w w' :
  orchestrator_part w' = orchestrator_part w →
  heap w' = heap w ∧ yielded w' = yielded w.
Proof. unfold orchestrator_part. by intros [= -> -> _ _ _]. Qed.

Section Triples.
Context {A : Type} (a : nat).
Implicit Types (s : CouncilSession.t) (ys : list CouncilSession.t).

Lemma triple_conseq s (m : M A) (Q R : result A → CouncilSession.t → list CouncilSession.t → Prop) :
  triple a s m Q → (∀ r s' ys, Q r s' ys → R r s' ys) → triple a s m R.
Proof.
  intros Hm HQR w Hw. destruct (Hm w Hw) as (r & w' & s' & ys & ? & ? & ? & ?).
  exists r, w', s', ys. auto.
Qed.

Lemma triple_ret s (x : A) : triple a s (ret x) (λ r s' ys, r = inr x ∧ s' = s ∧ ys = []).
Proof. intros w Hw. exists (inr x), w, s, []. by rewrite app_nil_r. Qed.

Lemma triple_throw s e : triple a s (throw (A:=A) e) (λ r s' ys, r = inl e ∧ s' = s ∧ ys = []).
Proof. intros w Hw. exists (inl e), w, s, []. by rewrite app_nil_r. Qed.

Lemma triple_read s (f : World → A) :
  triple a s (read f) (λ r s' ys, (∃ x, r = inr x) ∧ s' = s ∧ ys = []).
Proof. intros w Hw. exists (inr (f w)), w, s, []. rewrite app_nil_r. repeat split; eauto. Qed.

(** A computation of the service layer does not touch the sessions. *)
Lemma triple_keeps s (m : M A) :
  keeps orchestrator_part m → triple a s m (λ r s' ys, s' = s ∧ ys = []).
Proof.
  intros Hm w Hw. specialize (Hm w). destruct (m w) as [r w'] eqn:Hrun. simpl in Hm.
  apply orchestrator_part_eq in Hm as [Hh Hy].
  exists r, w', s, []. rewrite Hh, Hy, app_nil_r. done.
Qed.

Lemma triple_bind {C} s (m : M A) (k : A → M C) Q R :
  triple a s m Q →
  (∀ x s1 ys1, Q (inr x) s1 ys1 →
     triple a s1 (k x) (λ r s2 ys2, R r s2 (ys1 ++ ys2))) →
  (∀ e s1 ys1, Q (inl e) s1 ys1 → R (inl e) s1 ys1) →
  triple a s (bind m k) R.
Proof.
  intros Hm Hk He w Hw. unfold bind.
  destruct (Hm w Hw) as (r & w1 & s1 & ys1 & -> & Hw1 & Hy1 & HQ).
  destruct r as [e|x].
  - exists (inl e), w1, s1, ys1. auto.
  - destruct (Hk x s1 ys1 HQ w1 Hw1) as (r & w2 & s2 & ys2 & -> & Hw2 & Hy2 & HR).
    exists r, w2, s2, (ys1 ++ ys2). rewrite Hy2, Hy1, app_assoc. auto.
Qed.

Lemma triple_catch s (m : M A) (handler : exn → M A) Q R :
  triple a s m Q →
  (∀ e s1 ys1, Q (inl e) s1 ys1 →
     triple a s1 (handler e) (λ r s2 ys2, R r s2 (ys1 ++ ys2))) →
  (∀ x s1 ys1, Q (inr x) s1 ys1 → R (inr x) s1 ys1) →
  triple a s (catch m handler) R.
Proof.
  intros Hm Hh Hx w Hw. unfold catch.
  destruct (Hm w Hw) as (r & w1 & s1 & ys1 & -> & Hw1 & Hy1 & HQ).
  destruct r as [e|x].
  - destruct (Hh e s1 ys1 HQ w1 Hw1) as (r & w2 & s2 & ys2 & -> & Hw2 & Hy2 & HR).
    exists r, w2, s2, (ys1 ++ ys2). rewrite Hy2, Hy1, app_assoc. auto.
  - exists (inr x), w1, s1, ys1. auto.
Qed.

(** The [finally] clause of the two entry points only moves the counter. *)
Lemma triple_finally_inflight s (m : M A) f Q :
  triple a s m Q → triple a s (finally m (update (with_inflight f))) Q.
Proof.
  intros Hm w Hw. unfold finally, update.
  destruct (Hm w Hw) as (r & w1 & s1 & ys1 & -> & Hw1 & Hy1 & HQ).
  exists r, (with_inflight f w1), s1, ys1. auto.
Qed.
End Triples.

Section PipelineSteps.
Context `{Runtime} `{Environment}.
Implicit Types (s : CouncilSession.t).

Lemma triple_assign a s f :
  triple a s (assign a f) (λ r s' ys, r = inr tt ∧ s' = f s ∧ ys = []).
Proof.
  intros w Hw. exists (inr tt), (with_heap (alter f a) w), (f s), [].
  unfold assign, update. simpl. rewrite list_lookup_alter_eq, Hw, app_nil_r. done.
Qed.

Lemma triple_deref a s :
  triple a s (deref a) (λ r s' ys, r = inr s ∧ s' = s ∧ ys = []).
Proof.
  intros w Hw. exists (inr s), w, s, []. unfold deref. rewrite Hw, app_nil_r. done.
Qed.

Lemma triple_yield a s :
  triple a s (yield_ a) (λ r s' ys, r = inr tt ∧ s' = s ∧ ys = [s]).
Proof.
  intros w Hw. exists (inr tt), (with_yielded (λ ys, ys ++ [s]) w), s, [s].
  unfold yield_, bind, deref, update. rewrite Hw. done.
Qed.

Lemma triple_mark_error a s e :
  triple a s (mark_error a e)
    (λ r s' ys, r = inr tt ∧ ys = [] ∧
       s' = CouncilSession.set_error_message (exn_str e)
              (CouncilSession.set_stage CouncilStage.ERROR s)).
Proof.
  unfold mark_error. eapply triple_bind; [apply triple_assign| |].
  - intros [] s1 ys1 (_ & -> & ->). eapply triple_conseq; [apply triple_assign|].
    simpl. by intros r s' ys (-> & -> & ->).
  - by intros e' s1 ys1 (? & _).
Qed.

End PipelineSteps.

(** ** Orchestration Pipeline: the three phases *)

Section Phases.
Context `{Runtime} `{Environment}.
Implicit Types (s : CouncilSession.t).

Lemma triple_get_all_first_opinions a s query :
  triple a s (get_all_first_opinions query)
    (λ r s' ys, (∃ answers, r = inr answers) ∧ s' = s ∧ ys = []).
Proof.
  intros w Hw. destruct (get_all_first_opinions_total query w) as (answers & w' & -> & Hpart).
  apply orchestrator_part_eq in Hpart as [Hh Hy].
  exists (inr answers), w', s, []. rewrite Hh, Hy, app_nil_r. repeat split; eauto.
Qed.

Lemma triple_stage_first_opinions a s :
  triple a s (_stage_first_opinions a)
    (λ r s' ys, r = inr tt ∧ ys = [] ∧ ∃ answers,
       s' = CouncilSession.set_first_opinions answers
              (CouncilSession.set_stage CouncilStage.FIRST_OPINIONS s)).
Proof.
  unfold _stage_first_opinions.
  eapply triple_bind; [apply triple_assign| |by intros e s1 ys1 (? & _)].
  intros [] s1 ys1 (_ & -> & ->).
  eapply triple_bind; [apply triple_deref| |by intros e s1 ys1 (? & _)].
  intros s1 ? ys1 ([= ->] & -> & ->).
  eapply triple_bind; [apply triple_get_all_first_opinions| |].
  - intros answers ? ys1 (_ & -> & ->).
    eapply triple_conseq; [apply triple_assign|]. simpl.
    intros r s' ys (-> & -> & ->). eauto.
  - by intros e s1 ys1 ([answers ?] & _).
Qed.

(** Phase 2 on a session without opinions: the precondition error, and
    nothing else happens. *)
Lemma stage_reviews_without_opinions a w s :
  heap w !! a = Some s → CouncilSession.first_opinions s = [] →
  _stage_reviews a w = (inl (ValueError stage2_precondition), w).
Proof. intros Hw Hs. unfold _stage_reviews, bind, deref. by rewrite Hw, Hs. Qed.

Lemma stage_chairman_without_opinions a w s :
  heap w !! a = Some s → CouncilSession.first_opinions s = [] →
  _stage_chairman a w = (inl (ValueError stage3_precondition), w).
Proof. intros Hw Hs. unfold _stage_chairman, bind, deref. by rewrite Hw, Hs. Qed.

Lemma triple_stage_reviews a s :
  triple a s (_stage_reviews a) (λ r s' ys, ys = [] ∧ after_reviews s r s').
Proof.
  unfold _stage_reviews, after_reviews.
  eapply triple_bind; [apply triple_deref| |by intros e s1 ys1 (? & _)].
  intros s1 ? ys1 ([= ->] & -> & ->).
  destruct (CouncilSession.first_opinions s) as [|op ops] eqn:Hops.
  { eapply triple_conseq; [apply triple_throw|]. by intros r s' ys (-> & -> & ->). }
  eapply triple_bind; [apply triple_assign| |by intros e s2 ys2 (? & _)].
  intros [] s2 ys2 (_ & -> & ->).
  eapply triple_bind; [apply triple_keeps, keeps_get_all_reviews| |].
  - intros [reviews averages] ? ys1 (-> & ->).
    eapply triple_conseq; [apply triple_assign|]. simpl.
    intros r s' ys (-> & -> & ->). split; [done|]. right. eauto.
  - intros e ? ys1 (-> & ->). split; [done|]. by left.
Qed.

Lemma triple_stage_chairman a s :
  triple a s (_stage_chairman a) (λ r s' ys, ys = [] ∧ after_chairman s r s').
Proof.
  unfold _stage_chairman, after_chairman.
  eapply triple_bind; [apply triple_deref| |by intros e s1 ys1 (? & _)].
  intros s1 ? ys1 ([= ->] & -> & ->).
  destruct (CouncilSession.first_opinions s) as [|op ops] eqn:Hops.
  { eapply triple_conseq; [apply triple_throw|]. by intros r s' ys (-> & -> & ->). }
  eapply triple_bind; [apply triple_assign| |by intros e s2 ys2 (? & _)].
  intros [] s2 ys2 (_ & -> & ->).
  eapply triple_bind; [apply triple_keeps, keeps_get_chairman_synthesis| |].
  - intros summary ? ys1 (-> & ->).
    eapply triple_bind; [apply triple_assign| |by intros e s2 ys2 (? & _)].
    intros [] s2 ys2 (_ & -> & ->).
    eapply triple_bind; [apply triple_assign| |by intros e s2 ys2 (? & _)].
    intros [] s2 ys2 (_ & -> & ->).
    eapply triple_conseq; [apply triple_assign|]. simpl.
    intros r s' ys (-> & -> & ->). split; [done|]. right. eauto.
  - intros e ? ys1 (-> & ->). split; [done|]. by left.
Qed.

End Phases.

(** ** Orchestration Pipeline: the blocking run *)

Section BlockingRun.
Context `{Runtime} `{Environment}.
Implicit Types (s : CouncilSession.t).

Lemma interrupted_mark_error s e :
  interrupted s e →
  failed_run (CouncilSession.set_error_message (exn_str e)
                (CouncilSession.set_stage CouncilStage.ERROR s)) e.
Proof.
  intros (Hmsg & Htrace). unfold failed_run. simpl. split; [done|]. split; [done|].
  by exists (CouncilSession.stage_trace s).
Qed.

Lemma triple_guarded_phases a sid query (t0 : Qc) :
  triple a (CouncilSession.new sid query)
    (guarded a
       (_stage_first_opinions a ;;;
        _stage_reviews a ;;;
        _stage_chairman a ;;;
        t1 <- now ;;
        assign a (CouncilSession.set_total_latency_ms (t1 - t0)%Qc) ;;;
        ret a)%service)
    (λ r s ys, ys = [] ∧
       match r with
       | inl e => failed_run s e
       | inr session =>
         session = a ∧ completed_run s ∧ is_Some (CouncilSession.total_latency_ms s)
       end).
Proof.
  unfold guarded. eapply triple_catch.
  - (* the body *)
    instantiate (1 := λ r s ys, ys = [] ∧
       match r with
       | inl e => interrupted s e
       | inr session =>
         session = a ∧ completed_run s ∧ is_Some (CouncilSession.total_latency_ms s)
       end).
    eapply triple_bind; [apply triple_stage_first_opinions| |by intros e s1 ys1 (? & _)].
    intros [] ? ? (_ & -> & answers & ->).
    eapply triple_bind; [apply triple_stage_reviews| |].
    + intros [] s2 ? (-> & Hrev). unfold after_reviews in Hrev. simpl in Hrev.
      destruct answers as [|op ops]; [by destruct Hrev|].
      destruct Hrev as [[[] _]|(_ & round & ->)].
      eapply triple_bind; [apply triple_stage_chairman| |].
      * intros [] s3 ? (-> & Hch). unfold after_chairman in Hch. simpl in Hch.
        destruct Hch as [[[] _]|(_ & summary & ->)].
        eapply triple_bind; [apply triple_read| |by intros e s4 ys4 ([? ?] & _)].
        intros t1 ? ? (_ & -> & ->).
        eapply triple_bind; [apply triple_assign| |by intros e s4 ys4 (? & _)].
        intros [] ? ? (_ & -> & ->).
        eapply triple_conseq; [apply triple_ret|].
        intros r s' ys (-> & -> & ->). split; [done|]. split; [done|].
        unfold completed_run. simpl. repeat split; try done; eauto.
      * intros e s3 ? (-> & Hch). unfold after_chairman in Hch. simpl in Hch.
        destruct Hch as [[_ ->]|[[=] _]]. split; [done|]. split; [done|].
        unfold stopped_at. simpl. by right.
    + intros e s2 ? (-> & Hrev). unfold after_reviews in Hrev. simpl in Hrev.
      split; [done|]. destruct answers as [|op ops].
      * destruct Hrev as [[= ->] ->]. by split.
      * destruct Hrev as [[_ ->]|[[=] _]]. split; [done|].
        unfold stopped_at. simpl. by left.
  - (* the handler *)
    intros e s1 ? (-> & Hint). simpl in Hint.
    eapply triple_bind; [apply triple_mark_error| |by intros e' s2 ys2 (? & _)].
    intros [] ? ? (_ & -> & ->).
    eapply triple_conseq; [apply triple_throw|].
    intros r s' ys (-> & -> & ->). split; [done|]. by apply interrupted_mark_error.
  - intros x s1 ys1 H1. exact H1.
Qed.

Lemma create_session_spec query w :
  ∃ w',
    create_session query w = (inr (length (heap w)), w') ∧
    heap w' !! length (heap w) =
      Some (CouncilSession.new (take 8 (uuid4 (uuid_draws w))) query) ∧
    yielded w' = yielded w ∧ calls w' = calls w.
Proof.
  unfold create_session, bind, read, update, ret. simpl.
  eexists. split; [reflexivity|]. simpl. split; [|done].
  by rewrite list_lookup_middle.
Qed.

End BlockingRun.

(** ** Orchestration Pipeline: the streaming run *)

Section StreamingRun.
Context `{Runtime} `{Environment}.
Implicit Types (s : CouncilSession.t).

Lemma triple_streaming_body a sid query (t0 : Qc) :
  triple a (CouncilSession.new sid query)
    (catch
       (yield_ a ;;;
        _stage_first_opinions a ;;;
        yield_ a ;;;
        _stage_reviews a ;;;
        yield_ a ;;;
        _stage_chairman a ;;;
        t1 <- now ;;
        assign a (CouncilSession.set_total_latency_ms (t1 - t0)%Qc) ;;;
        yield_ a)
       (fun e => mark_error a e ;;; yield_ a))%service
    (λ r s ys,
       r = inr tt ∧
       head ys = Some (CouncilSession.new sid query) ∧
       last ys = Some s ∧
       ((completed_run s ∧ is_Some (CouncilSession.total_latency_ms s) ∧
         CouncilSession.stage <$> ys =
           [CouncilStage.PENDING; CouncilStage.FIRST_OPINIONS;
            CouncilStage.REVIEW_RANKING; CouncilStage.COMPLETED]) ∨
        (∃ e, failed_run s e ∧
           (CouncilSession.stage <$> ys =
              [CouncilStage.PENDING; CouncilStage.FIRST_OPINIONS; CouncilStage.ERROR] ∨
            CouncilSession.stage <$> ys =
              [CouncilStage.PENDING; CouncilStage.FIRST_OPINIONS;
               CouncilStage.REVIEW_RANKING; CouncilStage.ERROR])))).
Proof.
  eapply triple_catch.
  - (* the body *)
    instantiate (1 := λ r s ys,
       head ys = Some (CouncilSession.new sid query) ∧
       match r with
       | inl e =>
         interrupted s e ∧
         (CouncilSession.stage <$> ys =
            [CouncilStage.PENDING; CouncilStage.FIRST_OPINIONS] ∨
          CouncilSession.stage <$> ys =
            [CouncilStage.PENDING; CouncilStage.FIRST_OPINIONS;
             CouncilStage.REVIEW_RANKING])
       | inr _ =>
         last ys = Some s ∧ completed_run s ∧
         is_Some (CouncilSession.total_latency_ms s) ∧
         CouncilSession.stage <$> ys =
           [CouncilStage.PENDING; CouncilStage.FIRST_OPINIONS;
            CouncilStage.REVIEW_RANKING; CouncilStage.COMPLETED]
       end).
    eapply triple_bind; [apply triple_yield| |by intros e s1 ys1 (? & _)].
    intros [] ? ? (_ & -> & ->).
    eapply triple_bind; [apply triple_stage_first_opinions| |by intros e s1 ys1 (? & _)].
    intros [] ? ? (_ & -> & answers & ->).
    eapply triple_bind; [apply triple_yield| |by intros e s1 ys1 (? & _)].
    intros [] ? ? (_ & -> & ->).
    eapply triple_bind; [apply triple_stage_reviews| |].
    + intros [] s2 ? (-> & Hrev). unfold after_reviews in Hrev. simpl in Hrev.
      destruct answers as [|op ops]; [by destruct Hrev|].
      destruct Hrev as [[[] _]|(_ & round & ->)].
      eapply triple_bind; [apply triple_yield| |by intros e s1 ys1 (? & _)].
      intros [] ? ? (_ & -> & ->).
      eapply triple_bind; [apply triple_stage_chairman| |].
      * intros [] s3 ? (-> & Hch). unfold after_chairman in Hch. simpl in Hch.
        destruct Hch as [[[] _]|(_ & summary & ->)].
        eapply triple_bind; [apply triple_read| |by intros e s4 ys4 ([? ?] & _)].
        intros t1 ? ? (_ & -> & ->).
        eapply triple_bind; [apply triple_assign| |by intros e s4 ys4 (? & _)].
        intros [] ? ? (_ & -> & ->).
        eapply triple_conseq; [apply triple_yield|].
        intros r s' ys (-> & -> & ->). simpl. split; [done|]. split; [done|].
        split; [|split; [eauto|done]].
        unfold completed_run. simpl. repeat split; try done; eauto.
      * intros e s3 ? (-> & Hch). unfold after_chairman in Hch. simpl in Hch.
        destruct Hch as [[_ ->]|[[=] _]]. simpl. split; [done|].
        split; [|by right]. split; [done|]. unfold stopped_at. simpl. by right.
    + intros e s2 ? (-> & Hrev). unfold after_reviews in Hrev. simpl in Hrev.
      simpl. split; [done|]. destruct answers as [|op ops].
      * destruct Hrev as [[= ->] ->]. split; [|by left]. by split.
      * destruct Hrev as [[_ ->]|[[=] _]]. split; [|by left]. split; [done|].
        unfold stopped_at. simpl. by left.
  - (* the handler *)
    intros e s1 ys1 (Hhead & Hint & Hstages).
    eapply triple_bind; [apply triple_mark_error| |by intros e' s2 ys2 (? & _)].
    intros [] ? ? (_ & -> & ->).
    eapply triple_conseq; [apply triple_yield|].
    intros r s' ys (-> & -> & ->). rewrite app_nil_l. split; [done|].
    split; [by destruct ys1|]. split; [by rewrite last_snoc|].
    right. exists e. split; [by apply interrupted_mark_error|].
    rewrite fmap_app. simpl. destruct Hstages as [-> | ->]; auto.
  - intros [] s1 ys1 (Hhead & Hlast & Hdone & Hlat & Hstages). auto 10.
Qed.

End StreamingRun.

(** ** Orchestration Pipeline: the properties of a run *)

Lemma never_regresses_sorted trace :
  StronglySorted (λ x y, (stage_rank x < stage_rank y)%nat) trace →
  never_regresses trace.
Proof.
  induction 1 as [|x0 trace Hsorted IH Hall]; intros i j x y Hij Hi Hj.
  - by rewrite lookup_nil in Hi.
  - destruct j as [|j]; [lia|]. simpl in Hj. destruct i as [|i]; simpl in Hi.
    + injection Hi as ->. rewrite Forall_forall in Hall. apply Hall.
      by eapply list_elem_of_lookup_2.
    + eapply (IH i j); [lia|done|done].
Qed.

Lemma completed_run_lawful s :
  completed_run s →
  lawful_trace (CouncilSession.stage_trace s) ∧
  never_regresses (CouncilSession.stage_trace s) ∧
  last (CouncilSession.stage_trace s) = Some (CouncilSession.stage s).
Proof.
  intros (-> & -> & _). split; [|split; [|done]].
  - exists stage_order. split; [done|by left].
  - apply never_regresses_sorted. unfold stage_order.
    repeat (constructor; simpl; try lia).
Qed.

Lemma failed_run_lawful s e :
  failed_run s e →
  lawful_trace (CouncilSession.stage_trace s) ∧
  never_regresses (CouncilSession.stage_trace s) ∧
  last (CouncilSession.stage_trace s) = Some (CouncilSession.stage s).
Proof.
  intros (-> & _ & trace & Hstop & ->). rewrite last_snoc.
  assert (trace `prefix_of` stage_order ∧
          never_regresses (trace ++ [CouncilStage.ERROR])) as [Hp Hn].
  { unfold stopped_at in Hstop.
    destruct (CouncilSession.first_opinions s); [destruct Hstop as [_ ->]|destruct Hstop as [-> | ->]];
      (split; [by eexists|]); apply never_regresses_sorted;
      repeat (constructor; simpl; try lia). }
  split; [|done]. exists trace. split; [done|by right].
Qed.

Section RunFacts.
Context `{Runtime} `{Environment}.
Implicit Types (s : CouncilSession.t).

(** The blocking run, from any world: its session is at the first free
    address, and ends completed or failed. *)
Lemma run_full_council_outcome query w :
  ∃ r w' s,
    run_full_council query w = (r, w') ∧
    heap w' !! length (heap w) = Some s ∧
    yielded w' = yielded w ∧
    match r with
    | inl e => failed_run s e
    | inr session =>
      session = length (heap w) ∧ completed_run s ∧
      is_Some (CouncilSession.total_latency_ms s)
    end.
Proof.
  unfold run_full_council, bind, now, read, update. cbv beta iota zeta.
  set (w1 := with_inflight (λ n, n + 1) w).
  destruct (create_session_spec query w1) as (w2 & -> & Hs & Hy & _).
  destruct (triple_finally_inflight _ _ _ (λ n, n - 1) _
              (triple_guarded_phases (length (heap w1)) _ query
                 (perf_counter_ms (calls w))) w2 Hs)
    as (r & w3 & s & ys & Hrun & Hs3 & Hy3 & -> & Hout).
  exists r, w3, s. rewrite app_nil_r in Hy3. split; [exact Hrun|].
  split; [exact Hs3|]. split; [by rewrite Hy3, Hy|exact Hout].
Qed.

(** The streaming run, from any world. *)
Lemma run_council_streaming_outcome query w :
  ∃ w' s ys,
    run_council_streaming query w = (inr tt, w') ∧
    heap w' !! length (heap w) = Some s ∧
    yielded w' = yielded w ++ ys ∧
    head ys = Some (CouncilSession.new (take 8 (uuid4 (uuid_draws w))) query) ∧
    last ys = Some s ∧
    ((completed_run s ∧ is_Some (CouncilSession.total_latency_ms s) ∧
      CouncilSession.stage <$> ys =
        [CouncilStage.PENDING; CouncilStage.FIRST_OPINIONS;
         CouncilStage.REVIEW_RANKING; CouncilStage.COMPLETED]) ∨
     (∃ e, failed_run s e ∧
        (CouncilSession.stage <$> ys =
           [CouncilStage.PENDING; CouncilStage.FIRST_OPINIONS; CouncilStage.ERROR] ∨
         CouncilSession.stage <$> ys =
           [CouncilStage.PENDING; CouncilStage.FIRST_OPINIONS;
            CouncilStage.REVIEW_RANKING; CouncilStage.ERROR]))).
Proof.
  unfold run_council_streaming, bind, now, read, update. cbv beta iota zeta.
  set (w1 := with_inflight (λ n, n + 1) w).
  destruct (create_session_spec query w1) as (w2 & -> & Hs & Hy & _).
  destruct (triple_finally_inflight _ _ _ (λ n, n - 1) _
              (triple_streaming_body (length (heap w1)) _ query
                 (perf_counter_ms (calls w))) w2 Hs)
    as (r & w3 & s & ys & Hrun & Hs3 & Hy3 & -> & Hhead & Hlast & Hout).
  exists w3, s, ys. split; [exact Hrun|]. split; [exact Hs3|].
  split; [by rewrite Hy3, Hy|]. done.
Qed.

(** C3. Over a run, blocking or streaming, the stage values the session
    takes on, in order, are a prefix of PENDING, FIRST_OPINIONS,
    REVIEW_RANKING, CHAIRMAN_SYNTHESIS, COMPLETED, or such a prefix
    followed by a final ERROR; the stage never goes back; and the sequence
    ends with the stage the session is left in. *)
Theorem stage_sequence_of_a_run query w :
  (∃ r w' s,
     run_full_council query w = (r, w') ∧
     heap w' !! length (heap w) = Some s ∧
     lawful_trace (CouncilSession.stage_trace s) ∧
     never_regresses (CouncilSession.stage_trace s) ∧
     last (CouncilSession.stage_trace s) = Some (CouncilSession.stage s)) ∧
  (∃ r w' s,
     run_council_streaming query w = (r, w') ∧
     heap w' !! length (heap w) = Some s ∧
     lawful_trace (CouncilSession.stage_trace s) ∧
     never_regresses (CouncilSession.stage_trace s) ∧
     last (CouncilSession.stage_trace s) = Some (CouncilSession.stage s)).
Proof.
  split.
  - destruct (run_full_council_outcome query w) as (r & w' & s & Hrun & Hs & _ & Hout).
    exists r, w', s. split; [done|]. split; [done|].
    destruct r as [e|session].
    + by eapply failed_run_lawful.
    + destruct Hout as (_ & Hdone & _). by apply completed_run_lawful.
  - destruct (run_council_streaming_outcome query w)
      as (w' & s & ys & Hrun & Hs & _ & _ & _ & Hout).
    exists (inr tt), w', s. split; [done|]. split; [done|].
    destruct Hout as [(Hdone & _)|(e & Hfail & _)].
    + by apply completed_run_lawful.
    + by eapply failed_run_lawful.
Qed.

(** C9. The streaming run never raises. It yields the fresh PENDING
    session first and the session as it is left last; a run that goes
    through yields exactly four snapshots, one after creation and one
    after each phase, the last one COMPLETED; a run in which a phase fails
    yields the snapshots up to the failure and then exactly one more, with
    stage ERROR and the error message set. *)
Theorem streaming_snapshots query w :
  ∃ w' s ys,
    run_council_streaming query w = (inr tt, w') ∧
    yielded w' = yielded w ++ ys ∧
    heap w' !! length (heap w) = Some s ∧
    head ys = Some (CouncilSession.new (take 8 (uuid4 (uuid_draws w))) query) ∧
    last ys = Some s ∧
    ((CouncilSession.stage s = CouncilStage.COMPLETED ∧
      CouncilSession.error_message s = None ∧
      CouncilSession.stage <$> ys =
        [CouncilStage.PENDING; CouncilStage.FIRST_OPINIONS;
         CouncilStage.REVIEW_RANKING; CouncilStage.COMPLETED]) ∨
     (CouncilSession.stage s = CouncilStage.ERROR ∧
      is_Some (CouncilSession.error_message s) ∧
      (CouncilSession.stage <$> ys =
         [CouncilStage.PENDING; CouncilStage.FIRST_OPINIONS; CouncilStage.ERROR] ∨
       CouncilSession.stage <$> ys =
         [CouncilStage.PENDING; CouncilStage.FIRST_OPINIONS;
          CouncilStage.REVIEW_RANKING; CouncilStage.ERROR]))).
Proof.
  destruct (run_council_streaming_outcome query w)
    as (w' & s & ys & Hrun & Hs & Hy & Hhead & Hlast & Hout).
  exists w', s, ys. do 5 (split; [done|]).
  destruct Hout as [((Hst & _ & Hmsg & _) & _ & Hstages)|(e & (Hst & Hmsg & _) & Hstages)].
  - left. done.
  - right. split; [done|]. split; [by rewrite Hmsg|done].
Qed.

(** C4. On a session that holds no opinion, phase 2 and phase 3 each
    fail with the stage-precondition error in a world left exactly as it
    was, so before any request of the phase is issued; and under the
    handler of the pipeline the session moves to ERROR with that error's
    message, still without any request. *)
Theorem phases_refuse_without_opinions a w s :
  heap w !! a = Some s →
  CouncilSession.first_opinions s = [] →
  (_stage_reviews a w = (inl (ValueError stage2_precondition), w) ∧
   _stage_chairman a w = (inl (ValueError stage3_precondition), w)) ∧
  (∃ w',
     guarded a (_stage_reviews a) w = (inl (ValueError stage2_precondition), w') ∧
     calls w' = calls w ∧
     heap w' !! a =
       Some (CouncilSession.set_error_message stage2_precondition
               (CouncilSession.set_stage CouncilStage.ERROR s))) ∧
  (∃ w',
     guarded a (_stage_chairman a) w = (inl (ValueError stage3_precondition), w') ∧
     calls w' = calls w ∧
     heap w' !! a =
       Some (CouncilSession.set_error_message stage3_precondition
               (CouncilSession.set_stage CouncilStage.ERROR s))).
Proof.
  intros Hw Hs.
  pose proof (stage_reviews_without_opinions a w s Hw Hs) as H2.
  pose proof (stage_chairman_without_opinions a w s Hw Hs) as H3.
  split; [done|]. split.
  - unfold guarded, catch. rewrite H2.
    unfold mark_error, bind, assign, update, throw. simpl.
    eexists. split; [reflexivity|]. simpl. split; [done|].
    by rewrite !list_lookup_alter_eq, Hw.
  - unfold guarded, catch. rewrite H3.
    unfold mark_error, bind, assign, update, throw. simpl.
    eexists. split; [reflexivity|]. simpl. split; [done|].
    by rewrite !list_lookup_alter_eq, Hw.
Qed.

(** In the blocking run itself: when phase 1 leaves no opinion, the run
    raises the phase-2 precondition error and the session ends in ERROR
    with that message, after the stages PENDING and FIRST_OPINIONS. *)
Lemma run_without_opinions query w r w' s :
  run_full_council query w = (r, w') →
  heap w' !! length (heap w) = Some s →
  CouncilSession.first_opinions s = [] →
  r = inl (ValueError stage2_precondition) ∧
  CouncilSession.stage s = CouncilStage.ERROR ∧
  CouncilSession.error_message s = Some stage2_precondition ∧
  CouncilSession.stage_trace s =
    [CouncilStage.PENDING; CouncilStage.FIRST_OPINIONS; CouncilStage.ERROR].
Proof.
  intros Hrun Hs Hops.
  destruct (run_full_council_outcome query w) as (r' & w'' & s' & Hrun' & Hs' & _ & Hout).
  rewrite Hrun in Hrun'. injection Hrun' as <- <-. rewrite Hs in Hs'. injection Hs' as <-.
  destruct r as [e|session].
  - destruct Hout as (Hst & Hmsg & trace & Hstop & Htrace).
    unfold stopped_at in Hstop. rewrite Hops in Hstop. destruct Hstop as [-> ->].
    done.
  - destruct Hout as (_ & (_ & _ & _ & Hne & _) & _). done.
Qed.

End RunFacts.

(** * Worked examples

    The properties above at concrete inputs, on the ASCII runtime. *)

(** The parser on a transcript that follows the template: the second
    candidate's insight figure, 12, is clamped to 10. *)
Example parse_demo_text :
  match _parse_review_response (H:=ascii_runtime) (py "Counselor-Gamma") demo_text
          demo_pool with
  | inr scores =>
    (λ sc, (ReviewScore.accuracy_score sc, ReviewScore.insight_score sc,
            ReviewScore.score sc)) <$> scores
  | inl _ => []
  end = [(8, 6, 7); (9, 10, 9)].
Proof. vm_compute. reflexivity. Qed.

(** A whole streaming run with every node answering: four snapshots and
    five requests (two opinions, two reviews, one synthesis). *)
Example streaming_demo :
  let run := run_council_streaming (H:=ascii_runtime) (H0:=demo_environment) demo_query
               empty_world in
  run.1 = inr tt ∧
  CouncilSession.stage <$> yielded run.2 =
    [CouncilStage.PENDING; CouncilStage.FIRST_OPINIONS; CouncilStage.REVIEW_RANKING;
     CouncilStage.COMPLETED] ∧
  length (calls run.2) = 5%nat ∧ _inflight run.2 = 0.
Proof. vm_compute. done. Qed.

(** The same run with every node timing out: no opinion, the phase-2
    precondition fails, and only the two phase-1 requests were issued. *)
Example streaming_silent :
  let run := run_council_streaming (H:=ascii_runtime) (H0:=silent_environment) demo_query
               empty_world in
  run.1 = inr tt ∧
  CouncilSession.stage <$> yielded run.2 =
    [CouncilStage.PENDING; CouncilStage.FIRST_OPINIONS; CouncilStage.ERROR] ∧
  (CouncilSession.error_message <$> last (yielded run.2)) = Some (Some stage2_precondition) ∧
  length (calls run.2) = 2%nat.
Proof. vm_compute. done. Qed.

Lemma parser_scores_in_range_witness :
  let scores :=
    match _parse_review_response (H:=ascii_runtime) (py "Counselor-Gamma") demo_text
            demo_pool with
    | inr scores => scores
    | inl _ => []
    end in
  let sc :=
    ReviewScore.mk (py "Counselor-Gamma") (py "Response B") (py "Counselor-Beta") 9
      (py "thorough.") 9 10 in
  _parse_review_response (H:=ascii_runtime) (py "Counselor-Gamma") demo_text demo_pool
    = inr scores ∧
  sc ∈ scores ∧
  (1 ≤ ReviewScore.accuracy_score sc ≤ 10 ∧
   1 ≤ ReviewScore.insight_score sc ≤ 10 ∧
   ReviewScore.score sc =
     (ReviewScore.accuracy_score sc + ReviewScore.insight_score sc) / 2).
Proof.
  intros scores sc.
  assert (_parse_review_response (H:=ascii_runtime) (py "Counselor-Gamma") demo_text
            demo_pool = inr scores) as Hparse by (vm_compute; reflexivity).
  assert (sc ∈ scores) as Hin.
  { apply list_elem_of_lookup. exists 1%nat. vm_compute. reflexivity. }
  split; [exact Hparse|]. split; [exact Hin|].
  exact (parser_scores_in_range (H:=ascii_runtime) (py "Counselor-Gamma") demo_text demo_pool scores sc
           Hparse Hin).
Defined.

Lemma parser_fallback_scores_witness :
  demo_pool !! 0%nat = Some (py "Response A", demo_text, py "Counselor-Alpha") ∧
  ¬ has_scores (H:=ascii_runtime) (py "Response A") idle_transcript ∧
  ∃ scores sc,
    _parse_review_response (H:=ascii_runtime) (py "Counselor-Beta") idle_transcript demo_pool
      = inr scores ∧
    scores !! 0%nat = Some sc ∧
    ReviewScore.reviewed_name sc = py "Response A" ∧
    ReviewScore.accuracy_score sc = 7 ∧
    ReviewScore.insight_score sc = 7 ∧
    (¬ occurs (H:=ascii_runtime) (reasoning_pattern (H:=ascii_runtime) (py "Response A")) idle_transcript →
     ReviewScore.reasoning sc = no_reasoning).
Proof.
  assert (demo_pool !! 0%nat = Some (py "Response A", demo_text, py "Counselor-Alpha"))
    as Hpool by reflexivity.
  assert (¬ has_scores (H:=ascii_runtime) (py "Response A") idle_transcript) as Hnone.
  { apply (score_search_None (H:=ascii_runtime)). vm_compute. reflexivity. }
  split; [exact Hpool|]. split; [exact Hnone|].
  exact (parser_fallback_scores (H:=ascii_runtime) (py "Counselor-Beta") idle_transcript demo_pool 0
           (py "Response A") demo_text (py "Counselor-Alpha") Hpool Hnone).
Defined.

Lemma opinion_token_count_witness :
  ∃ op w',
    get_first_opinion (H0:=demo_environment) alpha demo_query empty_world
      = (inr op, w') ∧
    FirstOpinionResponse.llm_name op = LLMNode.name alpha ∧
    FirstOpinionResponse.token_count op = token_accounting demo_payload.
Proof.
  exact (opinion_token_count (H0:=demo_environment) alpha demo_query
           empty_world [] demo_payload (Q2Qc 15) eq_refl).
Defined.

Lemma ranking_table_of_round_witness :
  demo_round = (inr (round_scores demo_round, round_rankings demo_round), demo_round.2) ∧
  ∀ name,
    dict_get (round_rankings demo_round) name =
    match composites_of name (round_scores demo_round) with
    | [] => None
    | vals => Some (mean vals)
    end.
Proof.
  assert (demo_round =
          (inr (round_scores demo_round, round_rankings demo_round), demo_round.2))
    as Hround by (vm_compute; reflexivity).
  split; [exact Hround|].
  exact (ranking_table_of_round (H:=ascii_runtime) (H0:=demo_environment) demo_query
           demo_opinions empty_world _ _ _ Hround).
Defined.

(** C2, as the specification states it, fails. In a council of one member
    the round returns no score and an empty table: the only candidate has
    no entry, so the table does not map it to 0.0. *)
Lemma unscored_candidate_has_no_ranking :
  solo_round.1 = inr ([], []) ∧
  composites_of (py "Counselor-Alpha") (round_scores solo_round) = [] ∧
  dict_get (round_rankings solo_round) (py "Counselor-Alpha") = None ∧
  dict_get (round_rankings solo_round) (py "Counselor-Alpha") ≠ Some 0%Qc.
Proof. vm_compute. done. Qed.

Lemma review_round_labels_witness :
  Z.of_nat (length demo_opinions) ≤ max_labels ∧
  NoDup (FirstOpinionResponse.llm_name <$> demo_opinions) ∧
  anonymize 0 demo_opinions = inr (anon_bundle_of demo_opinions) ∧
  pairs_bijectively (anon_bundle_of demo_opinions).
Proof.
  assert (Z.of_nat (length demo_opinions) ≤ max_labels) as Hlen by (vm_compute; discriminate).
  assert (NoDup (FirstOpinionResponse.llm_name <$> demo_opinions)) as Hnd.
  { apply (bool_decide_unpack _). vm_compute. exact I. }
  destruct (review_round_labels (H:=ascii_runtime) (H0:=demo_environment) demo_query
              demo_opinions empty_world Hlen) as (Hb & _ & _ & Hbij & _).
  split; [exact Hlen|]. split; [exact Hnd|]. split; [exact Hb|]. exact (Hbij Hnd).
Defined.

(** C8, as the specification states it, fails. Two council members that
    the configuration leaves unnamed both get the name Counselor; their
    opinions get the labels Response A and Response B, two labels for one
    owner name: labels and owners are not in bijection. *)
Lemma unnamed_members_share_an_owner :
  anonymize 0 unnamed_opinions =
    inr [(py "Response A", py "four", py "Counselor");
         (py "Response B", py "4", py "Counselor")] ∧
  ¬ pairs_bijectively (anon_bundle_of unnamed_opinions).
Proof.
  split; [vm_compute; reflexivity|]. intros Hbij.
  destruct (Hbij (py "Response A", py "four", py "Counselor")
                 (py "Response B", py "4", py "Counselor")) as [_ Hlabels].
  - apply list_elem_of_lookup. by exists 0%nat.
  - apply list_elem_of_lookup. by exists 1%nat.
  - specialize (Hlabels eq_refl). vm_compute in Hlabels. discriminate.
Qed.

(** Beyond the range of [chr] the labels run out and the round raises. *)
Example labels_run_out op :
  failed (anonymize 0 (replicate (Z.to_nat (max_labels + 1)) op)).
Proof.
  apply anonymize_out_of_range; unfold max_labels; [lia|].
  rewrite length_replicate, Z2Nat.id; lia.
Qed.

Lemma remote_without_base_url_fails_witness :
  chairman_mode_of (H:=ascii_runtime) (get_config (Environment:=remote_environment))
    = py "remote" ∧
  truthy (CouncilConfig.chairman_remote_base_url (get_config (Environment:=remote_environment)))
    = false ∧
  get_chairman_synthesis (H:=ascii_runtime) (H0:=remote_environment) demo_query
    demo_opinions [] [] empty_world =
    (inl (ValueError
            (py "chairman.mode=remote but chairman.remote.base_url is missing in config.yaml")),
     empty_world).
Proof.
  assert (chairman_mode_of (H:=ascii_runtime) (get_config (Environment:=remote_environment))
            = py "remote") as Hmode by (vm_compute; reflexivity).
  assert (truthy (CouncilConfig.chairman_remote_base_url
                    (get_config (Environment:=remote_environment))) = false)
    as Hurl by reflexivity.
  split; [exact Hmode|]. split; [exact Hurl|].
  exact (proj1 (remote_without_base_url_fails (H:=ascii_runtime) (H0:=remote_environment)
                  demo_query demo_opinions [] [] empty_world Hmode Hurl)).
Defined.

Lemma phases_refuse_without_opinions_witness :
  heap empty_handed_world !! 0%nat = Some empty_handed ∧
  CouncilSession.first_opinions empty_handed = [] ∧
  _stage_reviews (H:=ascii_runtime) (H0:=silent_environment) 0 empty_handed_world =
    (inl (ValueError stage2_precondition), empty_handed_world) ∧
  _stage_chairman (H:=ascii_runtime) (H0:=silent_environment) 0 empty_handed_world =
    (inl (ValueError stage3_precondition), empty_handed_world).
Proof.
  assert (heap empty_handed_world !! 0%nat = Some empty_handed) as Hw by reflexivity.
  assert (CouncilSession.first_opinions empty_handed = []) as Hs by reflexivity.
  split; [exact Hw|]. split; [exact Hs|].
  exact (proj1 (phases_refuse_without_opinions (H:=ascii_runtime) (H0:=silent_environment)
                  0%nat empty_handed_world empty_handed Hw Hs)).
Defined.

(** * Further properties

    What the rest of the service layer and of the orchestrator does, read
    off the source. *)

(** ** Dictionaries *)

Lemma dict_get_dict_set {V} (d : pydict V) key v name :
  dict_get (dict_set d key v) name =
  if decide (key = name) then Some v else dict_get d name.
Proof.
  induction d as [|[k v0] d IH]; simpl.
  - by destruct (decide (key = name)).
  - destruct (decide (k = key)) as [->|Hk]; simpl.
    + by destruct (decide (key = name)).
    + destruct (decide (k = name)) as [->|Hn]; simpl.
      * destruct (decide (key = name)); [congruence|done].
      * apply IH.
Qed.

Lemma dict_set_keys {V} (d : pydict V) key v :
  (dict_set d key v).*1 = if bool_decide (key ∈ d.*1) then d.*1 else d.*1 ++ [key].
Proof.
  induction d as [|[k v0] d IH].
  - by rewrite bool_decide_eq_false_2 by apply not_elem_of_nil.
  - simpl. destruct (decide (k = key)) as [->|Hk].
    + rewrite bool_decide_eq_true_2; [done|]. apply elem_of_cons. by left.
    + rewrite fmap_cons, IH. simpl. case_bool_decide as Hin.
      * rewrite bool_decide_eq_true_2; [done|]. apply elem_of_cons. by right.
      * rewrite bool_decide_eq_false_2; [done|]. apply not_elem_of_cons. by split.
Qed.

Lemma dict_get_None {V} (d : pydict V) key : dict_get d key = None ↔ key ∉ d.*1.
Proof.
  induction d as [|[k v0] d IH]; simpl.
  - split; [intros _; apply not_elem_of_nil|done].
  - rewrite not_elem_of_cons. destruct (decide (k = key)) as [->|Hk].
    + split; [done|]. by intros [? _].
    + rewrite IH. split; [by split|by intros [_ ?]].
Qed.

Lemma dict_get_of_elem {V} (d : pydict V) key v :
  NoDup d.*1 → (key, v) ∈ d → dict_get d key = Some v.
Proof.
  induction d as [|[k v0] d IH]; simpl; intros Hdup Hin.
  - by apply elem_of_nil in Hin.
  - apply NoDup_cons in Hdup as [Hk Hdup]. apply elem_of_cons in Hin as [[= <- <-]|Hin].
    + by rewrite decide_True.
    + destruct (decide (k = key)) as [->|Hne]; [|by apply IH].
      destruct Hk. apply list_elem_of_fmap. by exists (key, v).
Qed.

(** ** Node Client: requests, failures and the status cache *)

Section NodeClientMore.
Context `{Environment}.

Lemma generate_response_calls node prompt system_prompt w :
  calls (generate_response node prompt system_prompt w).2 =
  calls w ++ [PostChat (chat_url node) (chat_request node prompt system_prompt)
                (CouncilConfig.llm_timeout get_config)].
Proof.
  unfold generate_response, catch, bind, set_status, set_latency, update, post_chat,
    throw, ret, json_of.
  simpl. destruct (chat_backend _ _ _ _) as [msg|msg|code text json dt]; simpl; try done.
  case_bool_decide; simpl; [done|]. by destruct json.
Qed.


(** X2. After a call of [generate_response] the status cache says ONLINE
    for the node if the call returned and ERROR if it raised, and the
    cached status of every other node is what it was. *)
Theorem generate_response_status node prompt system_prompt w :
  get_node_status (LLMNode.name node) (generate_response node prompt system_prompt w).2 =
    match (generate_response node prompt system_prompt w).1 with
    | inr _ => LLMStatus.ONLINE
    | inl _ => LLMStatus.ERROR
    end ∧
  ∀ other, other ≠ LLMNode.name node →
    get_node_status other (generate_response node prompt system_prompt w).2 =
    get_node_status other w.
Proof.
  unfold get_node_status, generate_response, catch, bind, set_status, set_latency, update,
    post_chat, throw, ret, json_of.
  simpl. destruct (chat_backend _ _ _ _) as [msg|msg|code text json dt]; simpl.
  1,2: split; [by rewrite !dict_get_dict_set, decide_True|];
       intros other Hne; by rewrite !dict_get_dict_set, !decide_False.
  case_bool_decide; simpl; [|destruct json; simpl].
  all: split; [by rewrite !dict_get_dict_set, decide_True|];
       intros other Hne; by rewrite !dict_get_dict_set, !decide_False.
Qed.

(** X3. A reply with a status other than 200 makes [generate_response]
    raise [RuntimeError] with the message [LLM returned status N]; the
    latency of the exchange is cached all the same and the node is marked
    ERROR. *)
Theorem generate_response_refused node prompt system_prompt w code text json dt :
  chat_backend (calls w) (chat_url node) (chat_request node prompt system_prompt)
    (CouncilConfig.llm_timeout get_config) = Answered code text json dt →
  code ≠ 200 →
  (generate_response node prompt system_prompt w).1 =
    inl (RuntimeError (py "LLM returned status " ++ format_int code)) ∧
  get_node_latency (LLMNode.name node) (generate_response node prompt system_prompt w).2 =
    Some dt ∧
  get_node_status (LLMNode.name node) (generate_response node prompt system_prompt w).2 =
    LLMStatus.ERROR.
Proof.
  intros Hreply Hcode.
  unfold get_node_status, get_node_latency, generate_response, catch, bind, set_status,
    set_latency, update, post_chat, throw, ret, json_of.
  simpl. rewrite Hreply. simpl. rewrite bool_decide_eq_true_2 by done. simpl.
  by rewrite !dict_get_dict_set, !decide_True.
Qed.

(** X4. When the request times out or the transport fails,
    [generate_response] re-raises that exception; the latency cache is
    left alone and the node is marked ERROR. *)
Theorem generate_response_unreachable node prompt system_prompt w e :
  transport_exception
    (chat_backend (calls w) (chat_url node) (chat_request node prompt system_prompt)
       (CouncilConfig.llm_timeout get_config)) = Some e →
  (generate_response node prompt system_prompt w).1 = inl e ∧
  _latency_cache (generate_response node prompt system_prompt w).2 = _latency_cache w ∧
  get_node_status (LLMNode.name node) (generate_response node prompt system_prompt w).2 =
    LLMStatus.ERROR.
Proof.
  unfold get_node_status, generate_response, catch, bind, set_status, set_latency, update,
    post_chat, throw, ret, json_of.
  simpl. destruct (chat_backend _ _ _ _) as [msg|msg|code text json dt]; simpl; [| |done].
  all: intros [= <-]; split; [done|]; split; [done|];
       by rewrite !dict_get_dict_set, !decide_True.
Qed.

End NodeClientMore.

(** ** Phases 1 and 2: what is asked of the nodes and what comes back *)


Lemma gather_measure_le {A} (μ : World → nat) (jobs : list (M A)) :
  Forall (λ job, ∀ w, (μ (job w).2 ≤ S (μ w))%nat) jobs →
  ∀ w, (μ (gather jobs w).2 ≤ μ w + length jobs)%nat.
Proof.
  induction 1 as [|job jobs Hjob _ IH]; intros w; simpl; [lia|].
  specialize (Hjob w). destruct (job w) as [r w1]. simpl in Hjob.
  specialize (IH w1). destruct (gather jobs w1) as [[e|rs] w2]; simpl in *; lia.
Qed.

Lemma sum_bounds (vals : list Z) :
  Forall (λ v, 1 ≤ v ≤ 10) vals →
  Z.of_nat (length vals) ≤ foldr Z.add 0 vals ≤ 10 * Z.of_nat (length vals).
Proof. induction 1 as [|v vals Hv _ IH]; simpl length; simpl foldr; lia. Qed.

Lemma mean_bounds (vals : list Z) :
  vals ≠ [] → Forall (λ v, 1 ≤ v ≤ 10) vals →
  (Qc_of_Z 1 ≤ mean vals)%Qc ∧ (mean vals ≤ Qc_of_Z 10)%Qc.
Proof.
  intros Hne Hall. apply sum_bounds in Hall.
  assert (0 < Z.of_nat (length vals)) as Hlen by (destruct vals; simpl; [done|lia]).
  unfold mean, Qc_of_Z, Qcle. simpl. rewrite !Qred_correct.
  set (n := Z.of_nat (length vals)) in *. set (t := foldr Z.add 0 vals) in *.
  assert (inject_Z 0 < inject_Z n)%Q as Hn by (by rewrite <- Zlt_Qlt).
  split.
  - apply Qle_shift_div_l; [done|].
    rewrite <- inject_Z_mult. rewrite <- Zle_Qle. lia.
  - apply Qle_shift_div_r; [done|].
    rewrite <- inject_Z_mult. rewrite <- Zle_Qle. lia.
Qed.

Lemma setdefault_append_keys {V} (d : pydict (list V)) key x :
  (setdefault_append d key x).*1 =
  if bool_decide (key ∈ d.*1) then d.*1 else d.*1 ++ [key].
Proof.
  induction d as [|[k vals] d IH].
  - by rewrite bool_decide_eq_false_2 by apply not_elem_of_nil.
  - simpl. destruct (decide (k = key)) as [->|Hk].
    + rewrite bool_decide_eq_true_2; [done|]. apply elem_of_cons. by left.
    + rewrite fmap_cons, IH. simpl. case_bool_decide as Hin.
      * rewrite bool_decide_eq_true_2; [done|]. apply elem_of_cons. by right.
      * rewrite bool_decide_eq_false_2; [done|]. apply not_elem_of_cons. by split.
Qed.

Lemma append_key_NoDup (keys : list pystr) key :
  NoDup keys → NoDup (if bool_decide (key ∈ keys) then keys else keys ++ [key]).
Proof.
  intros Hnd. case_bool_decide as Hin; [done|].
  apply NoDup_app. split; [done|]. split; [|apply NoDup_singleton].
  intros k Hk ->%list_elem_of_singleton. done.
Qed.

Lemma bucket_scores_keys_NoDup scores : NoDup (bucket_scores scores).*1.
Proof.
  unfold bucket_scores.
  assert (∀ buckets : pydict (list Z), NoDup buckets.*1 →
            NoDup (foldl (λ b sc, setdefault_append b (ReviewScore.original_name sc)
                                    (ReviewScore.score sc)) buckets scores).*1) as Hgen.
  { induction scores as [|sc scores IH]; intros buckets Hnd; [done|].
    simpl. apply IH. rewrite setdefault_append_keys. by apply append_key_NoDup. }
  apply Hgen. constructor.
Qed.

Lemma average_scores_keys buckets : (average_scores buckets).*1 = buckets.*1.
Proof. unfold average_scores. rewrite <- list_fmap_compose. by apply list_fmap_ext. Qed.

Section PhaseAccounting.
Context `{Runtime} `{Environment}.






(** What one reviewer does: it never raises; with nothing to review it
    issues no request and returns nothing; otherwise it issues exactly one
    request and returns either nothing or one score per candidate of its
    pool. *)
Lemma get_review_cases node query (responses : list candidate) exclude_name w :
  ∃ scores w',
    get_review node query responses exclude_name w = (inr scores, w') ∧
    match filter (λ c : candidate, c.2 ≠ exclude_name) responses with
    | [] => scores = [] ∧ w' = w
    | pool =>
      calls w' =
        calls w ++ [PostChat (chat_url node)
                      (chat_request node (review_prompt query pool) (Some review_system))
                      (CouncilConfig.llm_timeout get_config)] ∧
      (scores = [] ∨
       (Forall2 (λ (c : candidate) sc, ReviewScore.reviewed_name sc = c.1.1 ∧
                                      ReviewScore.original_name sc = c.2 ∧
                                      well_scored sc) pool scores))
    end.
Proof.
  unfold get_review.
  remember (filter (λ c : candidate, c.2 ≠ exclude_name) responses) as pool eqn:Hpool.
  destruct pool as [|c0 pool0]; [by eexists _, _|].
  remember (c0 :: pool0) as pool eqn:Hcons.
  unfold catch, bind, lift, ret.
  pose proof (generate_response_calls node (review_prompt query pool) (Some review_system) w)
    as Hcalls.
  destruct (generate_response _ _ _ w) as [[e|[[raw ms] tok]] w1]; simpl in *.
  { eexists _, _. split; [reflexivity|]. rewrite Hcons at 1. rewrite <- Hcons.
    split; [done|by left]. }
  destruct (_parse_review_response_ok (LLMNode.name node) raw pool) as (scores & -> & Hall).
  eexists _, _. split; [reflexivity|]. rewrite Hcons at 1. rewrite <- Hcons.
  split; [done|]. right. eapply Forall2_impl; [exact Hall|]. simpl.
  intros c sc Hparse.
  destruct (parse_candidate_ok (LLMNode.name node) raw c) as (sc' & Hsc' & _ & Hl & Ho & Hw).
  rewrite Hparse in Hsc'. by injection Hsc' as <-.
Qed.


End PhaseAccounting.

(** ** The review round: its size and its rankings *)

Lemma anonymize_shape ops i bundle :
  anonymize i ops = inr bundle →
  (λ c : candidate, c.2) <$> bundle = FirstOpinionResponse.llm_name <$> ops.
Proof.
  revert i bundle. induction ops as [|op ops IH]; intros i bundle; simpl.
  - by intros [= <-].
  - destruct (py_chr (65 + i)) as [e|c]; simpl; [done|].
    destruct (anonymize (i + 1) ops) as [e|tail] eqn:Htail; simpl; [done|].
    intros [= <-]. rewrite fmap_cons. simpl. f_equal. by eapply IH.
Qed.

Lemma well_scored_composite sc :
  well_scored sc → 1 ≤ ReviewScore.score sc ≤ 10.
Proof.
  intros (Ha & Hi & ->).
  split; [apply Z.div_le_lower_bound | apply Z.div_le_upper_bound]; lia.
Qed.

Lemma concat_length_bound {A} (lists : list (list A)) n :
  Forall (λ l, (length l ≤ n)%nat) lists →
  (length (concat lists) ≤ length lists * n)%nat.
Proof.
  induction 1 as [|l lists Hl _ IH]; simpl; [lia|]. rewrite length_app. lia.
Qed.

Lemma successes_length {A} (rs : list (result A)) :
  (length (successes rs) ≤ length rs)%nat.
Proof.
  induction rs as [|r rs IH]; [done|]. destruct r as [e|a]; simpl; lia.
Qed.

Section RoundFacts.
Context `{Runtime} `{Environment}.

Lemma get_review_calls_le node query (responses : list candidate) exclude_name w :
  (length (calls (get_review node query responses exclude_name w).2)
   ≤ S (length (calls w)))%nat.
Proof.
  destruct (get_review_cases node query responses exclude_name w)
    as (scores & w' & -> & Hcases). simpl.
  destruct (filter _ responses) as [|c0 pool0].
  - destruct Hcases as [_ ->]. lia.
  - destruct Hcases as [-> _]. rewrite length_app. simpl. lia.
Qed.

Lemma get_review_size node query (responses : list candidate) exclude_name w scores w' :
  get_review node query responses exclude_name w = (inr scores, w') →
  (length scores ≤ length responses)%nat ∧ Forall well_scored scores ∧
  Forall (λ sc, ReviewScore.reviewer_name sc = LLMNode.name node) scores.
Proof.
  intros Hrun. pose proof (get_review_scores _ _ _ _ _ _ _ Hrun) as Hscores.
  destruct (get_review_cases node query responses exclude_name w)
    as (scores' & w'' & Hrun' & Hcases).
  rewrite Hrun in Hrun'. injection Hrun' as <- <-.
  split; [|split].
  - pose proof (length_filter (λ c : candidate, c.2 ≠ exclude_name) responses) as Hlen.
    destruct (filter _ responses) as [|c0 pool0].
    + destruct Hcases as [-> _]. simpl. lia.
    + destruct Hcases as [_ [->|Hall]]; [simpl; lia|].
      apply Forall2_length in Hall. lia.
  - destruct (filter _ responses) as [|c0 pool0].
    + destruct Hcases as [-> _]. constructor.
    + destruct Hcases as [_ [->|Hall]]; [constructor|].
      apply Forall_forall. intros sc [i Hi]%list_elem_of_lookup.
      destruct (Forall2_lookup_r _ _ _ _ _ Hall Hi) as (c & _ & _ & _ & Hw). done.
  - eapply Forall_impl; [exact Hscores|]. by intros sc (? & _).
Qed.

Lemma get_all_reviews_size query ops w scores rankings w' :
  get_all_reviews query ops w = (inr (scores, rankings), w') →
  (length (calls w') ≤
     length (calls w) + length (CouncilConfig.council_members get_config))%nat ∧
  (length scores ≤
     length (CouncilConfig.council_members get_config) * length ops)%nat ∧
  Forall well_scored scores ∧
  Forall (λ sc, ReviewScore.reviewer_name sc ∈
                  LLMNode.name <$> CouncilConfig.council_members get_config) scores.
Proof.
  unfold get_all_reviews, bind, lift, ret.
  destruct (anonymize 0 ops) as [e|bundle] eqn:Hb; [done|].
  set (jobs := (λ node, get_review node query bundle (LLMNode.name node))
                 <$> CouncilConfig.council_members get_config).
  pose proof (gather_measure_le (λ w, length (calls w)) jobs) as Hcalls.
  specialize (Hcalls ltac:(apply Forall_fmap, Forall_forall; intros node _ w0; simpl;
                           apply get_review_calls_le) w).
  destruct (gather jobs w) as [[e|rs] w1] eqn:Hg; [done|]. simpl in Hcalls.
  intros [= <- <- <-].
  assert (length jobs = length (CouncilConfig.council_members get_config)) as Hjobs
    by (unfold jobs; by rewrite length_fmap).
  split; [exact (eq_ind _ (λ n, (length (calls w1) ≤ length (calls w) + n)%nat) Hcalls _ Hjobs)|].
  apply gather_results in Hg.
  assert (length bundle = length ops) as Hlen.
  { rewrite <- (length_fmap (λ c : candidate, c.2)), (anonymize_shape _ _ _ Hb).
    by rewrite length_fmap. }
  assert (Forall (λ l, (length l ≤ length ops)%nat ∧ Forall well_scored l ∧
                       Forall (λ sc, ReviewScore.reviewer_name sc ∈
                                 LLMNode.name <$> CouncilConfig.council_members get_config) l)
                 (successes rs)) as Hall.
  { apply Forall_forall. intros l Hl. unfold successes in Hl.
    apply list_elem_of_omap in Hl as (r & Hr & Hsome).
    destruct r as [e|l']; [done|]. injection Hsome as ->.
    apply list_elem_of_lookup in Hr as [i Hi].
    destruct (Forall2_lookup_r _ _ _ _ _ Hg Hi) as (job & Hjob & w2 & w3 & Hrun).
    unfold jobs in Hjob. rewrite list_lookup_fmap in Hjob.
    destruct (CouncilConfig.council_members get_config !! i) as [node|] eqn:Hnode; [|done].
    injection Hjob as <-. apply get_review_size in Hrun as (Hsz & Hw & Hrev).
    split; [lia|]. split; [done|].
    eapply Forall_impl; [exact Hrev|]. simpl. intros sc ->.
    apply list_elem_of_fmap. exists node. split; [done|].
    by eapply list_elem_of_lookup_2. }
  split; [|split].
  - etrans; [apply (concat_length_bound _ (length ops))|].
    + eapply Forall_impl; [exact Hall|]. by intros l (? & _).
    + apply Nat.mul_le_mono_r.
      apply Forall2_length in Hg.
      transitivity (length rs); [apply successes_length|].
      apply Nat.eq_le_incl. transitivity (length jobs); [symmetry; exact Hg|exact Hjobs].
  - apply Forall_concat. eapply Forall_impl; [exact Hall|]. by intros l (_ & ? & _).
  - apply Forall_concat. eapply Forall_impl; [exact Hall|]. by intros l (_ & _ & ?).
Qed.

(** X8. A review round that returns has issued at most one request per
    council member, has collected at most (members x opinions) scores,
    each in the name of a council member, and every score it collected
    has accuracy and insight in 1..10 with the composite their floored
    half sum. *)
Theorem review_round_accounting query ops w scores rankings w' :
  get_all_reviews query ops w = (inr (scores, rankings), w') →
  (length (calls w') ≤
     length (calls w) + length (CouncilConfig.council_members get_config))%nat ∧
  (length scores ≤
     length (CouncilConfig.council_members get_config) * length ops)%nat ∧
  Forall (λ sc,
    ReviewScore.reviewer_name sc ∈
      LLMNode.name <$> CouncilConfig.council_members get_config ∧
    1 ≤ ReviewScore.accuracy_score sc ≤ 10 ∧
    1 ≤ ReviewScore.insight_score sc ≤ 10 ∧
    ReviewScore.score sc =
      (ReviewScore.accuracy_score sc + ReviewScore.insight_score sc) / 2) scores.
Proof.
  intros Hrun. apply get_all_reviews_size in Hrun as (Hcalls & Hsize & Hw & Hrev).
  split; [done|]. split; [done|]. apply Forall_forall. intros sc Hsc.
  rewrite Forall_forall in Hw, Hrev. split; [by apply Hrev|by apply Hw].
Qed.

Lemma rankings_lookup_in_range query ops w scores rankings w' :
  get_all_reviews query ops w = (inr (scores, rankings), w') →
  NoDup rankings.*1 ∧
  ∀ name v, dict_get rankings name = Some v →
    (Qc_of_Z 1 ≤ v)%Qc ∧ (v ≤ Qc_of_Z 10)%Qc ∧
    name ∈ FirstOpinionResponse.llm_name <$> ops.
Proof.
  intros Hrun.
  pose proof (get_all_reviews_size _ _ _ _ _ _ Hrun) as (_ & _ & Hw & _).
  destruct (get_all_reviews_inv _ _ _ _ _ _ Hrun) as (bundle & Hb & -> & Hall).
  split.
  { rewrite average_scores_keys. apply bucket_scores_keys_NoDup. }
  intros name v Hget. rewrite ranking_is_mean_of_scored in Hget.
  destruct (composites_of name scores) as [|v0 vals] eqn:Hvals; [done|].
  injection Hget as <-.
  assert (Forall (λ v, 1 ≤ v ≤ 10) (composites_of name scores)) as Hrange.
  { unfold composites_of. apply Forall_fmap, Forall_forall.
    intros sc [_ Hsc]%list_elem_of_filter. simpl. apply well_scored_composite.
    rewrite Forall_forall in Hw. by apply Hw. }
  rewrite Hvals in Hrange.
  destruct (mean_bounds (v0 :: vals)) as [Hlo Hhi]; [done|done|].
  split; [done|]. split; [done|].
  assert (v0 ∈ composites_of name scores) as Hin by (rewrite Hvals; apply elem_of_cons; by left).
  unfold composites_of in Hin. apply list_elem_of_fmap in Hin as (sc & _ & Hsc).
  apply list_elem_of_filter in Hsc as [Hname Hsc].
  rewrite Forall_forall in Hall. destruct (Hall sc Hsc) as (_ & c & Hc & _ & Howner).
  rewrite <- Hname, Howner, <- (anonymize_shape _ _ _ Hb).
  apply list_elem_of_fmap. by exists c.
Qed.

(** X9. In the ranking table of a review round every name appears once,
    is the name of the owner of a phase-1 opinion, and is ranked between
    1 and 10: the table never holds the 0.0 of the empty bucket. *)
Theorem rankings_in_range query ops w scores rankings w' :
  get_all_reviews query ops w = (inr (scores, rankings), w') →
  NoDup rankings.*1 ∧
  Forall (λ item : pystr * Qc,
            (Qc_of_Z 1 ≤ item.2)%Qc ∧ (item.2 ≤ Qc_of_Z 10)%Qc ∧
            item.1 ∈ FirstOpinionResponse.llm_name <$> ops) rankings.
Proof.
  intros Hrun. destruct (rankings_lookup_in_range _ _ _ _ _ _ Hrun) as [Hdup Hrange].
  split; [done|]. apply Forall_forall. intros [name v] Hin. simpl.
  apply Hrange. by apply dict_get_of_elem.
Qed.

End RoundFacts.

(** ** Chairman Synthesizer: the two modes *)


Section ChairmanMore.
Context `{Runtime} `{Environment}.

(** X10. In local mode with no chairman node configured, synthesis fails
    with [ValueError("No chairman configured")] in the unchanged world:
    no request is issued. *)
Theorem local_chairman_unconfigured query ops reviews rankings w :
  chairman_mode_of get_config ≠ py "remote" →
  CouncilConfig.chairman get_config = None →
  get_chairman_synthesis query ops reviews rankings w =
    (inl (ValueError (py "No chairman configured")), w).
Proof.
  intros Hmode Hchair. unfold get_chairman_synthesis.
  rewrite bool_decide_eq_false_2 by done. by rewrite Hchair.
Qed.



End ChairmanMore.

(** ** Orchestration Pipeline: what a run leaves of the orchestrator *)

Lemma keeps_weaken {A B C} (obs : World → B) (obs' : World → C) (m : M A) :
  (∀ w w', obs w' = obs w → obs' w' = obs' w) → keeps obs m → keeps obs' m.
Proof. intros Hobs Hm w. apply Hobs, Hm. Qed.

Lemma bystanders_of_part a w w' :
  orchestrator_part w' = orchestrator_part w → bystanders a w' = bystanders a w.
Proof. unfold orchestrator_part, bystanders. by intros [= -> _ -> -> ->]. Qed.

Lemma grown_heap (h : list CouncilSession.t) s0 l :
  take (length h) l = h → drop (S (length h)) l = [] →
  identity <$> l = identity <$> (h ++ [s0]) →
  ∃ s, l = h ++ [s] ∧ identity s = identity s0.
Proof.
  intros Htake Hdrop Hid.
  assert (length l = S (length h)) as Hlen.
  { apply (f_equal length) in Hid. rewrite !length_fmap, length_app in Hid.
    simpl in Hid. lia. }
  destruct (lookup_lt_is_Some_2 l (length h)) as [s Hs]; [lia|].
  exists s. split.
  - rewrite <- (take_drop_middle l (length h) s Hs), Htake, Hdrop. done.
  - apply (f_equal (λ k, k !! length h)) in Hid.
    rewrite !list_lookup_fmap, Hs, list_lookup_middle in Hid by done.
    unfold identity in *. simpl in Hid. congruence.
Qed.

Section Footprint.
Context `{Runtime} `{Environment}.
Implicit Types (a : nat).

Lemma keeps_service a {A} (m : M A) : keeps orchestrator_part m → keeps (bystanders a) m.
Proof. apply keeps_weaken. intros w w'. apply bystanders_of_part. Qed.

Lemma keeps_assign a f : (∀ s, identity (f s) = identity s) → keeps (bystanders a) (assign a f).
Proof.
  intros Hf w. unfold assign, update, bystanders. simpl.
  rewrite take_alter_ge, drop_alter_lt by lia.
  rewrite (list_fmap_alter identity f id) by (apply Forall_forall; intros; apply Hf).
  by rewrite list_alter_id.
Qed.

Lemma keeps_deref a b : keeps (bystanders a) (deref b).
Proof. intros w. unfold deref. by destruct (heap w !! b). Qed.

Lemma keeps_yield a b : keeps (bystanders a) (yield_ b).
Proof.
  apply keeps_bind; [apply keeps_deref|]. intros s. by apply keeps_update.
Qed.

Lemma keeps_mark_error a e : keeps (bystanders a) (mark_error a e).
Proof. apply keeps_bind; [by apply keeps_assign|]. intros _. by apply keeps_assign. Qed.

Lemma keeps_stage_first_opinions a : keeps (bystanders a) (_stage_first_opinions a).
Proof.
  apply keeps_bind; [by apply keeps_assign|]. intros _.
  apply keeps_bind; [apply keeps_deref|]. intros s.
  apply keeps_bind; [apply keeps_service, keeps_get_all_first_opinions|]. intros answers.
  by apply keeps_assign.
Qed.

Lemma keeps_stage_reviews a : keeps (bystanders a) (_stage_reviews a).
Proof.
  apply keeps_bind; [apply keeps_deref|]. intros s.
  destruct (CouncilSession.first_opinions s); [apply keeps_throw|].
  apply keeps_bind; [by apply keeps_assign|]. intros _.
  apply keeps_bind; [apply keeps_service, keeps_get_all_reviews|].
  intros [reviews averages]. by apply keeps_assign.
Qed.

Lemma keeps_stage_chairman a : keeps (bystanders a) (_stage_chairman a).
Proof.
  apply keeps_bind; [apply keeps_deref|]. intros s.
  destruct (CouncilSession.first_opinions s); [apply keeps_throw|].
  apply keeps_bind; [by apply keeps_assign|]. intros _.
  apply keeps_bind; [apply keeps_service, keeps_get_chairman_synthesis|]. intros summary.
  apply keeps_bind; [by apply keeps_assign|]. intros _.
  apply keeps_bind; [by apply keeps_assign|]. intros _.
  by apply keeps_assign.
Qed.

Lemma keeps_blocking_body a (t0 : Qc) :
  keeps (bystanders a)
    (guarded a
       (_stage_first_opinions a ;;;
        _stage_reviews a ;;;
        _stage_chairman a ;;;
        t1 <- now ;;
        assign a (CouncilSession.set_total_latency_ms (t1 - t0)%Qc) ;;;
        ret a)%service).
Proof.
  apply keeps_catch.
  - apply keeps_bind; [apply keeps_stage_first_opinions|]. intros _.
    apply keeps_bind; [apply keeps_stage_reviews|]. intros _.
    apply keeps_bind; [apply keeps_stage_chairman|]. intros _.
    apply keeps_bind; [apply keeps_read|]. intros t1.
    apply keeps_bind; [by apply keeps_assign|]. intros _. apply keeps_ret.
  - intros e. apply keeps_bind; [apply keeps_mark_error|]. intros _. apply keeps_throw.
Qed.

Lemma keeps_streaming_body a (t0 : Qc) :
  keeps (bystanders a)
    (catch
       (yield_ a ;;;
        _stage_first_opinions a ;;;
        yield_ a ;;;
        _stage_reviews a ;;;
        yield_ a ;;;
        _stage_chairman a ;;;
        t1 <- now ;;
        assign a (CouncilSession.set_total_latency_ms (t1 - t0)%Qc) ;;;
        yield_ a)
       (fun e => mark_error a e ;;; yield_ a))%service.
Proof.
  apply keeps_catch.
  - apply keeps_bind; [apply keeps_yield|]. intros _.
    apply keeps_bind; [apply keeps_stage_first_opinions|]. intros _.
    apply keeps_bind; [apply keeps_yield|]. intros _.
    apply keeps_bind; [apply keeps_stage_reviews|]. intros _.
    apply keeps_bind; [apply keeps_yield|]. intros _.
    apply keeps_bind; [apply keeps_stage_chairman|]. intros _.
    apply keeps_bind; [apply keeps_read|]. intros t1.
    apply keeps_bind; [by apply keeps_assign|]. intros _. apply keeps_yield.
  - intros e. apply keeps_bind; [apply keeps_mark_error|]. intros _. apply keeps_yield.
Qed.

Lemma footprint_of_body {A} query (body : nat → M A) w :
  (∀ a, keeps (bystanders a) (body a)) →
  run_footprint query w
    ((update (with_inflight (fun n => n + 1)) ;;;
      session <- create_session query ;;
      finally (body session) (update (with_inflight (fun n => n - 1))))%service w).2.
Proof.
  intros Hbody. unfold bind, update, create_session, read, ret, finally.
  cbv beta iota zeta. simpl.
  match goal with |- context [body ?a ?w2] => specialize (Hbody a w2); destruct (body a w2) as [r w3] end.
  simpl in *. unfold bystanders in Hbody. simpl in Hbody.
  injection Hbody as Htake Hdrop Hid Hsess Hinf Hdraws.
  rewrite take_app_length in Htake.
  rewrite (drop_ge (_ ++ _)) in Hdrop by (rewrite length_app; simpl; lia).
  destruct (grown_heap _ _ _ Htake Hdrop Hid) as (s & Hheap & Hs).
  unfold run_footprint. simpl. rewrite Hsess, Hinf, Hdraws.
  split; [by exists s|]. split; [done|]. split; [lia|done].
Qed.

Lemma run_full_council_footprint query w :
  run_footprint query w (run_full_council query w).2.
Proof.
  unfold run_full_council, now. unfold bind at 1. unfold read at 1. cbv beta iota zeta.
  apply (footprint_of_body query (λ a, guarded a _)). intros a.
  apply keeps_blocking_body.
Qed.

Lemma run_council_streaming_footprint query w :
  run_footprint query w (run_council_streaming query w).2.
Proof.
  unfold run_council_streaming, now. unfold bind at 1. unfold read at 1. cbv beta iota zeta.
  apply (footprint_of_body query (λ a, catch _ _)). intros a.
  apply keeps_streaming_body.
Qed.

End Footprint.

(** ** Orchestration Pipeline: the registry of sessions *)

Lemma dict_get_elem_of {V} (d : pydict V) key v : dict_get d key = Some v → (key, v) ∈ d.
Proof.
  induction d as [|[k v0] d IH]; simpl; [done|].
  destruct (decide (k = key)) as [->|Hk].
  - intros [= ->]. apply elem_of_cons. by left.
  - intros Hget. apply elem_of_cons. right. by apply IH.
Qed.

Lemma dict_set_Forall {V} (P : pystr * V → Prop) (d : pydict V) key v :
  Forall P d → P (key, v) → Forall P (dict_set d key v).
Proof.
  intros Hd Hv. induction Hd as [|[k v0] d Hk Hd IH]; simpl.
  - by constructor.
  - destruct (decide (k = key)) as [->|Hne]; by constructor.
Qed.

Lemma dict_set_length {V} (d : pydict V) key v :
  length (dict_set d key v) =
  if bool_decide (key ∈ d.*1) then length d else S (length d).
Proof.
  pose proof (f_equal length (dict_set_keys d key v)) as Hlen.
  rewrite length_fmap in Hlen. rewrite Hlen.
  case_bool_decide; rewrite ?length_app, length_fmap; simpl; lia.
Qed.

Lemma registry_ok_lookup w sid a :
  registry_ok w → dict_get (_sessions w) sid = Some a → is_Some (heap w !! a).
Proof.
  intros Hok Hget. apply lookup_lt_is_Some_2.
  unfold registry_ok in Hok. rewrite Forall_forall in Hok.
  by apply (Hok (sid, a)), dict_get_elem_of.
Qed.

Lemma get_all_sessions_length w :
  registry_ok w → length (get_all_sessions w) = total_sessions w.
Proof.
  unfold registry_ok, get_all_sessions, total_sessions.
  induction 1 as [|[k a] d Ha _ IH]; [done|]. simpl in *.
  destruct (lookup_lt_is_Some_2 (heap w) a Ha) as [s ->]. simpl. f_equal. exact IH.
Qed.

Section RegistryFacts.
Context `{Runtime} `{Environment}.

Lemma create_session_world query w :
  let sid := take 8 (uuid4 (uuid_draws w)) in
  ∃ w',
    create_session query w = (inr (length (heap w)), w') ∧
    heap w' = heap w ++ [CouncilSession.new sid query] ∧
    _sessions w' = dict_set (_sessions w) sid (length (heap w)) ∧
    _inflight w' = _inflight w ∧ calls w' = calls w ∧
    _status_cache w' = _status_cache w ∧ _latency_cache w' = _latency_cache w.
Proof.
  unfold create_session, bind, read, update, ret. simpl. eexists. split; [reflexivity|]. done.
Qed.

Lemma get_session_registered sid a s w :
  dict_get (_sessions w) sid = Some a → heap w !! a = Some s →
  get_session sid w = (inr (Some s), w).
Proof. intros Hget Hs. unfold get_session, read. by rewrite Hget; simpl; rewrite Hs. Qed.

(** X13. Creating a session in a sound registry: the fresh PENDING
    session is what [get_session] returns for the new id; every other id
    still leads to the session it led to; the registry grows by one entry,
    unless the id was already taken, in which case the new session takes
    the place of the old one; and the registry stays sound. *)
Theorem create_session_registers query w :
  registry_ok w →
  let sid := take 8 (uuid4 (uuid_draws w)) in
  let w' := (create_session query w).2 in
  get_session sid w' = (inr (Some (CouncilSession.new sid query)), w') ∧
  (∀ other, other ≠ sid → (get_session other w').1 = (get_session other w).1) ∧
  total_sessions w' =
    (if bool_decide (sid ∈ (_sessions w).*1) then total_sessions w
     else S (total_sessions w)) ∧
  length (get_all_sessions w') = total_sessions w' ∧
  registry_ok w'.
Proof.
  intros Hok sid w'.
  destruct (create_session_world query w) as (w1 & Hrun & Hheap & Hsess & _).
  subst w'. rewrite Hrun. simpl. fold sid in Hheap, Hsess.
  assert (registry_ok w1) as Hok1.
  { unfold registry_ok. rewrite Hsess, Hheap. apply dict_set_Forall.
    - eapply Forall_impl; [exact Hok|]. intros [k a]. rewrite length_app. simpl. lia.
    - rewrite length_app. simpl. lia. }
  split; [|split; [|split; [|split]]].
  - apply (get_session_registered _ (length (heap w))).
    + rewrite Hsess, dict_get_dict_set. by rewrite decide_True.
    + rewrite Hheap. by apply list_lookup_middle.
  - intros other Hother. unfold get_session, read. simpl.
    rewrite Hsess, dict_get_dict_set, decide_False by done.
    destruct (dict_get (_sessions w) other) as [a|] eqn:Hget; [|done]. simpl.
    destruct (registry_ok_lookup w other a Hok Hget) as [s Hs].
    rewrite Hheap, lookup_app_l by (by eapply lookup_lt_Some). done.
  - unfold total_sessions. rewrite Hsess. apply dict_set_length.
  - by apply get_all_sessions_length.
  - done.
Qed.

(** X14. A run, blocking or streaming, failed or not, leaves the
    orchestrator as it found it but for its own session: the session
    objects that were there are untouched and exactly one is added, with
    the id drawn at the start and the query asked; that id leads to it in
    the registry; one identifier was drawn; and the counter of active
    sessions is back at its value. *)
Theorem runs_leave_the_registry query w :
  run_footprint query w (run_full_council query w).2 ∧
  run_footprint query w (run_council_streaming query w).2 ∧
  active_sessions (run_full_council query w).2 = active_sessions w ∧
  active_sessions (run_council_streaming query w).2 = active_sessions w.
Proof.
  pose proof (run_full_council_footprint query w) as Hb.
  pose proof (run_council_streaming_footprint query w) as Hs.
  split; [exact Hb|]. split; [exact Hs|].
  destruct Hb as (_ & _ & Hb & _). destruct Hs as (_ & _ & Hs & _). done.
Qed.

Lemma run_full_council_registered query w :
  let sid := take 8 (uuid4 (uuid_draws w)) in
  ∃ r w' s,
    run_full_council query w = (r, w') ∧
    get_session sid w' = (inr (Some s), w') ∧
    heap w' !! length (heap w) = Some s ∧
    identity s = (sid, query) ∧
    match r with
    | inl e => failed_run s e
    | inr session =>
      session = length (heap w) ∧ completed_run s ∧
      is_Some (CouncilSession.total_latency_ms s)
    end.
Proof.
  intros sid.
  destruct (run_full_council_outcome query w) as (r & w' & s & Hrun & Hs & _ & Hout).
  pose proof (run_full_council_footprint query w) as ((s' & Hheap & Hid) & Hsess & _).
  rewrite Hrun in Hheap, Hsess. simpl in Hheap, Hsess. fold sid in Hsess, Hid.
  rewrite Hheap, list_lookup_middle in Hs by done. injection Hs as ->.
  exists r, w', s. split; [done|]. split; [|split; [|done]].
  - apply (get_session_registered _ (length (heap w))).
    + rewrite Hsess, dict_get_dict_set. by rewrite decide_True.
    + rewrite Hheap. by apply list_lookup_middle.
  - rewrite Hheap. by apply list_lookup_middle.
Qed.

(** X15. The blocking run and the registry: whether the run returns or
    raises, its session can be fetched afterwards under the id drawn at
    the start. After a return it is the session returned, COMPLETED, with
    opinions, a synthesis and a total latency and no error message; after
    an exception [e] it has stage ERROR and [str(e)] as error message. *)
Theorem blocking_run_stays_registered query w :
  let sid := take 8 (uuid4 (uuid_draws w)) in
  ∃ r w' s,
    run_full_council query w = (r, w') ∧
    get_session sid w' = (inr (Some s), w') ∧
    CouncilSession.session_id s = sid ∧
    CouncilSession.query s = query ∧
    match r with
    | inl e =>
      CouncilSession.stage s = CouncilStage.ERROR ∧
      CouncilSession.error_message s = Some (exn_str e)
    | inr session =>
      deref session w' = (inr s, w') ∧
      CouncilSession.stage s = CouncilStage.COMPLETED ∧
      CouncilSession.error_message s = None ∧
      CouncilSession.first_opinions s ≠ [] ∧
      is_Some (CouncilSession.chairman_synthesis s) ∧
      is_Some (CouncilSession.total_latency_ms s)
    end.
Proof.
  intros sid.
  destruct (run_full_council_registered query w) as (r & w' & s & Hrun & Hget & Hs & Hid & Hout).
  exists r, w', s. injection Hid as Hid Hq.
  split; [done|]. split; [done|]. split; [done|]. split; [done|].
  destruct r as [e|session].
  - by destruct Hout as (? & ? & _).
  - destruct Hout as (-> & (? & _ & ? & ? & ?) & ?).
    split; [|done]. unfold deref. by rewrite Hs.
Qed.

(** X16. The route [POST /api/council/query] and the route
    [GET /api/council/sessions/{session_id}] after it: the first answers
    with the COMPLETED session, or with status 500 and the text of the
    exception as detail; either way the second then finds the session of
    that run, which in the second case has stage ERROR and the same text
    as error message. *)
Theorem council_query_reply query w :
  let sid := take 8 (uuid4 (uuid_draws w)) in
  let after := council_query query w in
  ∃ s, session_by_id sid after.2 = (Body s, after.2) ∧
    match after.1 with
    | Body session => session = s ∧ CouncilSession.stage s = CouncilStage.COMPLETED
    | HTTPException status_code detail =>
      status_code = 500 ∧ CouncilSession.stage s = CouncilStage.ERROR ∧
      CouncilSession.error_message s = Some detail
    end.
Proof.
  intros sid after. subst after. unfold council_query, bind.
  destruct (run_full_council_registered query w) as (r & w' & s & Hrun & Hget & Hs & _ & Hout).
  fold sid in Hget. rewrite Hrun. exists s. destruct r as [e|session].
  - simpl. unfold session_by_id. rewrite Hget. split; [done|].
    by destruct Hout as (? & ? & _).
  - destruct Hout as (-> & (? & _) & _). unfold deref. rewrite Hs. simpl.
    unfold session_by_id. by rewrite Hget.
Qed.

(** X17. Reading a sound registry: [get_all_sessions] lists as many
    sessions as [total_sessions] counts; the route by id answers 404
    exactly for the ids that are not registered, and otherwise with the
    session [get_session] returns; and no read changes anything. *)
Theorem registry_reads w :
  registry_ok w →
  length (get_all_sessions w) = total_sessions w ∧
  ∀ session_id,
    (session_id ∉ (_sessions w).*1 →
       session_by_id session_id w = (HTTPException 404 (py "Session not found"), w)) ∧
    (session_id ∈ (_sessions w).*1 →
       ∃ s, get_session session_id w = (inr (Some s), w) ∧
            session_by_id session_id w = (Body s, w) ∧ s ∈ get_all_sessions w).
Proof.
  intros Hok. split; [by apply get_all_sessions_length|]. intros sid. split.
  - intros Hnot. apply dict_get_None in Hnot.
    unfold session_by_id, get_session, read. by rewrite Hnot.
  - intros Hin. destruct (dict_get (_sessions w) sid) as [a|] eqn:Hget.
    2:{ by apply dict_get_None in Hget. }
    destruct (registry_ok_lookup w sid a Hok Hget) as [s Hs]. exists s.
    pose proof (get_session_registered sid a s w Hget Hs) as Hsession.
    split; [done|]. split; [unfold session_by_id; by rewrite Hsession|].
    unfold get_all_sessions. apply list_elem_of_omap. exists (sid, a).
    split; [by apply dict_get_elem_of|done].
Qed.

End RegistryFacts.

(** ** Status probes *)

Lemma probe_ok_dec reply : probe_ok reply ∨ ¬ probe_ok reply.
Proof.
  destruct reply as [msg|msg|code text [payload|] dt];
    try (right; by intros (? & ? & ? & [=])).
  destruct (decide (code = 200)) as [->|Hcode].
  - left. by eexists _, _, _.
  - right. intros (? & ? & ? & [=]). done.
Qed.

Lemma check_node_health_verdict reply node w :
  ((check_node_health reply node w).1.1 = LLMStatus.ONLINE ↔ probe_ok reply) ∧
  ((check_node_health reply node w).1.2 = None ↔ ¬ probe_ok reply).
Proof.
  unfold check_node_health.
  destruct reply as [msg|msg|code text [payload|] dt]; simpl;
    try (split; split; [done|by intros (? & ? & ? & [=])|by intros ? (? & ? & ? & [=])|done]).
  - case_bool_decide as Hcode; simpl.
    + split; split; try done.
      * intros (? & ? & ? & [=]). done.
      * intros _ (? & ? & ? & [=]). done.
    + subst code. split; split; try done.
      * intros _. by eexists _, _, _.
      * intros Hno. destruct Hno. by eexists _, _, _.
  - case_bool_decide as Hcode; simpl;
      (split; split; [done|by intros (? & ? & ? & [=])|by intros ? (? & ? & ? & [=])|done]).
Qed.

Lemma check_node_health_cache reply node w :
  get_node_status (LLMNode.name node) (check_node_health reply node w).2 =
    (check_node_health reply node w).1.1 ∧
  ∀ other, other ≠ LLMNode.name node →
    get_node_status other (check_node_health reply node w).2 = get_node_status other w.
Proof.
  unfold check_node_health, get_node_status. split.
  - destruct reply as [msg|msg|code text [payload|] dt]; simpl;
      try case_bool_decide; simpl; by rewrite dict_get_dict_set, decide_True.
  - intros other Hother.
    destruct reply as [msg|msg|code text [payload|] dt]; simpl;
      try case_bool_decide; simpl; by rewrite dict_get_dict_set, decide_False.
Qed.


Lemma probe_nodes_length replies k nodes w :
  length (probe_nodes replies k nodes w).1 = length nodes.
Proof.
  revert k w. induction nodes as [|node nodes IH]; intros k w; simpl; [done|].
  destruct (check_node_health (replies k) node w) as [r w1].
  specialize (IH (S k) w1). destruct (probe_nodes replies (S k) nodes w1) as [rs w2].
  simpl in *. by rewrite IH.
Qed.

Lemma probe_nodes_verdicts replies k nodes w i r :
  (probe_nodes replies k nodes w).1 !! i = Some r →
  (r.1 = LLMStatus.ONLINE ↔ probe_ok (replies (k + i)%nat)) ∧
  (r.2 = None ↔ ¬ probe_ok (replies (k + i)%nat)).
Proof.
  revert k w i. induction nodes as [|node nodes IH]; intros k w i; simpl; [done|].
  pose proof (check_node_health_verdict (replies k) node w) as Hhere.
  destruct (check_node_health (replies k) node w) as [r0 w1].
  specialize (IH (S k) w1). destruct (probe_nodes replies (S k) nodes w1) as [rs w2].
  simpl in *. destruct i as [|i]; simpl.
  - intros [= <-]. by rewrite Nat.add_0_r.
  - intros Hr. replace (k + S i)%nat with (S k + i)%nat by lia. by apply IH.
Qed.

Lemma probe_nodes_cache replies k nodes w :
  NoDup (LLMNode.name <$> nodes) →
  let out := probe_nodes replies k nodes w in
  (∀ name, name ∉ LLMNode.name <$> nodes →
     get_node_status name out.2 = get_node_status name w) ∧
  ∀ i node r, nodes !! i = Some node → out.1 !! i = Some r →
    get_node_status (LLMNode.name node) out.2 = r.1.
Proof.
  revert k w. induction nodes as [|node nodes IH]; intros k w Hdup; simpl; [done|].
  rewrite fmap_cons in Hdup. apply NoDup_cons in Hdup as [Hfresh Hdup].
  pose proof (check_node_health_cache (replies k) node w) as [Hsame Hothers].
  destruct (check_node_health (replies k) node w) as [r0 w1].
  specialize (IH (S k) w1 Hdup). destruct (probe_nodes replies (S k) nodes w1) as [rs w2].
  simpl in *. destruct IH as [IHout IHin]. split.
  - intros name Hname. apply not_elem_of_cons in Hname as [Hne Hname].
    rewrite IHout by done. by apply Hothers.
  - intros [|i] node' r; simpl.
    + intros [= <-] [= <-]. by rewrite IHout.
    + apply IHin.
Qed.

Section HealthFacts.
Context `{Environment}.

Lemma check_all_nodes_health_lookup replies w i info :
  (check_all_nodes_health replies w).1 !! i = Some info →
  ∃ node r,
    probed_nodes !! i = Some node ∧ (probe_nodes replies 0 probed_nodes w).1 !! i = Some r ∧
    info = LLMNodeInfo.mk (LLMNode.name node) (LLMNode.host node) (LLMNode.port node)
             (LLMNode.model node) (LLMNode.is_chairman node) r.1 r.2.
Proof.
  unfold check_all_nodes_health.
  destruct (probe_nodes replies 0 probed_nodes w) as [results w']. simpl.
  intros Hinfo. apply lookup_zip_with_Some in Hinfo as (node & r & -> & Hnode & Hr).
  by exists node, r.
Qed.

Lemma check_all_nodes_health_length replies w :
  length (check_all_nodes_health replies w).1 = length probed_nodes.
Proof.
  unfold check_all_nodes_health.
  pose proof (probe_nodes_length replies 0 probed_nodes w) as Hlen.
  destruct (probe_nodes replies 0 probed_nodes w) as [results w']. simpl in *.
  rewrite length_zip_with. lia.
Qed.

(** X19. The health route reports one entry for each configured node,
    the council members in their order and then the chairman, with the
    node's name, host, port, model and chairman flag; the entry at
    position [i] is ONLINE exactly when the probe at that position got
    status 200 and a JSON body, and carries a latency exactly then; and
    the overall status is healthy exactly when every probe did, degraded
    otherwise. *)
Theorem health_check_report replies w :
  let out := health_check replies w in
  (λ n, (LLMNodeInfo.name n, LLMNodeInfo.host n, LLMNodeInfo.port n, LLMNodeInfo.model n,
         LLMNodeInfo.is_chairman n)) <$> out.1.2 =
  (λ n, (LLMNode.name n, LLMNode.host n, LLMNode.port n, LLMNode.model n,
         LLMNode.is_chairman n)) <$> probed_nodes ∧
  (∀ i info, out.1.2 !! i = Some info →
     (LLMNodeInfo.status info = LLMStatus.ONLINE ↔ probe_ok (replies i)) ∧
     (LLMNodeInfo.latency_ms info = None ↔ ¬ probe_ok (replies i))) ∧
  (out.1.1 = py "healthy" ↔ ∀ i, (i < length probed_nodes)%nat → probe_ok (replies i)) ∧
  (out.1.1 = py "healthy" ∨ out.1.1 = py "degraded").
Proof.
  intros out.
  assert (out.1.2 = (check_all_nodes_health replies w).1) as Hinfos.
  { subst out. unfold health_check. by destruct (check_all_nodes_health replies w). }
  assert (∀ i info, out.1.2 !! i = Some info →
     (LLMNodeInfo.status info = LLMStatus.ONLINE ↔ probe_ok (replies i)) ∧
     (LLMNodeInfo.latency_ms info = None ↔ ¬ probe_ok (replies i))) as Hverdicts.
  { intros i info Hinfo. rewrite Hinfos in Hinfo.
    apply check_all_nodes_health_lookup in Hinfo as (node & r & _ & Hr & ->). simpl.
    by apply (probe_nodes_verdicts replies 0 probed_nodes w i r). }
  pose proof (check_all_nodes_health_length replies w) as Hlen. rewrite <- Hinfos in Hlen.
  assert (out.1.1 =
          if forallb (λ n, bool_decide (LLMNodeInfo.status n = LLMStatus.ONLINE)) out.1.2
          then py "healthy" else py "degraded") as Hverdict.
  { subst out. unfold health_check. by destruct (check_all_nodes_health replies w). }
  split; [|split; [exact Hverdicts|split]].
  - apply list_eq. intros i. rewrite !list_lookup_fmap.
    destruct (out.1.2 !! i) as [info|] eqn:Hinfo.
    + rewrite Hinfos in Hinfo.
      apply check_all_nodes_health_lookup in Hinfo as (node & r & -> & _ & ->). done.
    + apply lookup_ge_None in Hinfo. rewrite Hlen in Hinfo.
      apply lookup_ge_None in Hinfo. by rewrite Hinfo.
  - rewrite Hverdict.
    destruct (forallb _ _) eqn:Hall.
    + split; [|done]. intros _ i Hi. rewrite <- Hlen in Hi.
      apply lookup_lt_is_Some_2 in Hi as [info Hinfo].
      apply (Hverdicts i info Hinfo).
      rewrite forallb_forall in Hall.
      eapply bool_decide_eq_true_1, Hall, list_elem_of_In, list_elem_of_lookup_2, Hinfo.
    + split; [done|]. intros Hok. exfalso.
      assert (forallb (λ n, bool_decide (LLMNodeInfo.status n = LLMStatus.ONLINE)) out.1.2
              = true) as Htrue; [|congruence].
      apply forallb_forall. intros info Hin.
      apply list_elem_of_In, list_elem_of_lookup_1 in Hin as [i Hinfo].
      apply bool_decide_eq_true_2, (Hverdicts i info Hinfo), Hok.
      rewrite <- Hlen. by eapply lookup_lt_Some.
  - rewrite Hverdict. destruct (forallb _ _); auto.
Qed.

(** X20. When the configured nodes have pairwise distinct names, the
    status cache after [check_all_nodes_health] agrees with the report:
    for every entry, [get_node_status] of its name is its status. *)
Theorem health_report_matches_cache replies w :
  NoDup (LLMNode.name <$> probed_nodes) →
  let out := check_all_nodes_health replies w in
  Forall (λ info, get_node_status (LLMNodeInfo.name info) out.2 = LLMNodeInfo.status info)
    out.1.
Proof.
  intros Hdup out. apply Forall_forall. intros info Hin.
  apply list_elem_of_lookup_1 in Hin as [i Hinfo].
  apply check_all_nodes_health_lookup in Hinfo as (node & r & Hnode & Hr & ->). simpl.
  pose proof (probe_nodes_cache replies 0 probed_nodes w Hdup) as [_ Hcache].
  subst out. unfold check_all_nodes_health.
  specialize (Hcache i node r Hnode Hr).
  by destruct (probe_nodes replies 0 probed_nodes w).
Qed.

End HealthFacts.

(** ** Review Parser: the reviewer and the reasoning *)

Section ParserMore.
Context `{Runtime}.

Lemma parse_reasoning_length text label reasoning :
  parse_reasoning text label = inr reasoning → (length reasoning ≤ 500)%nat.
Proof.
  unfold parse_reasoning. destruct (re_search _ _) as [rm|]; simpl.
  - destruct (group rm 1) as [?|g]; simpl; [done|]. intros [= <-].
    rewrite length_take. lia.
  - intros [= <-]. vm_compute. lia.
Qed.

(** X21. Every score the parser returns names the reviewer it was called
    for, and its reasoning is at most 500 characters long, whatever the
    length of the transcript. *)
Theorem parser_reviewer_and_reasoning reviewer text (pool : list candidate) :
  ∃ scores,
    _parse_review_response reviewer text pool = inr scores ∧
    Forall (λ sc, ReviewScore.reviewer_name sc = reviewer ∧
                  (length (ReviewScore.reasoning sc) ≤ 500)%nat) scores.
Proof.
  destruct (_parse_review_response_ok reviewer text pool) as (scores & Heq & Hall).
  exists scores. split; [done|]. clear Heq.
  induction Hall as [|[[label body] owner] sc pool scores Hc _ IH]; constructor; [|done].
  destruct (parse_candidate_cases reviewer text label body owner)
    as [(acc & ins & reasoning & _ & Hr & Heq) | [_ Heq]];
    rewrite Heq in Hc; injection Hc as <-; simpl.
  - split; [done|]. by eapply parse_reasoning_length.
  - split; [done|]. vm_compute. lia.
Qed.

End ParserMore.

(** ** Chairman Synthesizer: the order of the rankings in the prompt *)





(** ** Orchestration Pipeline: the run in which every node answers *)

Section HealthyRun.
Context `{Runtime} `{Environment}.
Implicit Types (s : CouncilSession.t).










End HealthyRun.

(** ** Orchestration Pipeline: the requests of a run *)

Section Budget.
Context `{Runtime} `{Environment}.

Lemma spends_free {A} (m : M A) k : keeps calls m → spends k m.
Proof. intros Hm w. exists []. rewrite app_nil_r. split; [apply Hm|simpl; lia]. Qed.

Lemma spends_bind {A B} (m : M A) (f : A → M B) k1 k2 k :
  spends k1 m → (∀ a, spends k2 (f a)) → (k1 + k2 ≤ k)%nat → spends k (bind m f).
Proof.
  intros Hm Hf Hk w. unfold bind. destruct (Hm w) as (extra1 & Hc1 & Hl1).
  destruct (m w) as [[e|a] w1]; simpl in *.
  - exists extra1. split; [done|lia].
  - destruct (Hf a w1) as (extra2 & Hc2 & Hl2). exists (extra1 ++ extra2).
    rewrite Hc2, Hc1, app_assoc, length_app. split; [done|lia].
Qed.

Lemma spends_then {A B} (m : M A) (f : A → M B) k :
  keeps calls m → (∀ a, spends k (f a)) → spends k (bind m f).
Proof. intros Hm Hf. eapply spends_bind; [by apply (spends_free m 0)|exact Hf|lia]. Qed.

Lemma spends_catch {A} (body : M A) handler k1 k2 k :
  spends k1 body → (∀ e, spends k2 (handler e)) → (k1 + k2 ≤ k)%nat →
  spends k (catch body handler).
Proof.
  intros Hm Hf Hk w. unfold catch. destruct (Hm w) as (extra1 & Hc1 & Hl1).
  destruct (body w) as [[e|a] w1]; simpl in *.
  - destruct (Hf e w1) as (extra2 & Hc2 & Hl2). exists (extra1 ++ extra2).
    rewrite Hc2, Hc1, app_assoc, length_app. split; [done|lia].
  - exists extra1. split; [done|lia].
Qed.

Lemma spends_finally {A} (body : M A) f k :
  spends k body → (∀ w, calls (f w) = calls w) → spends k (finally body (update f)).
Proof.
  intros Hm Hf w. unfold finally, update. destruct (Hm w) as (extra & Hc & Hl).
  destruct (body w) as [r w1]; simpl in *. exists extra. by rewrite Hf.
Qed.

Lemma spends_gather {A} (jobs : list (M A)) :
  Forall (spends 1) jobs → spends (length jobs) (gather jobs).
Proof.
  induction 1 as [|job jobs Hjob _ IH]; intros w; simpl.
  - exists []. by rewrite app_nil_r.
  - destruct (Hjob w) as (extra1 & Hc1 & Hl1). destruct (job w) as [r w1]. simpl in *.
    destruct (IH w1) as (extra2 & Hc2 & Hl2).
    destruct (gather jobs w1) as [[e|rs] w2]; simpl in *;
      exists (extra1 ++ extra2); rewrite Hc2, Hc1, app_assoc, length_app; split; (done || lia).
Qed.

Lemma spends_generate_response node prompt system_prompt :
  spends 1 (generate_response node prompt system_prompt).
Proof.
  intros w. eexists. split; [apply generate_response_calls|]. simpl. lia.
Qed.

Lemma spends_post_remote url body timeout : spends 1 (post_remote url body timeout).
Proof.
  intros w. exists [PostRemote url body timeout]. split; [|simpl; lia].
  unfold post_remote. by destruct (remote_backend _ _ _ _).
Qed.

Lemma spends_get_all_first_opinions query :
  spends (length (CouncilConfig.council_members get_config)) (get_all_first_opinions query).
Proof.
  unfold get_all_first_opinions.
  eapply spends_bind; [apply spends_gather| |].
  - apply Forall_fmap, Forall_forall. intros node _. simpl. unfold get_first_opinion.
    eapply spends_bind; [apply spends_generate_response| |reflexivity].
    intros [[text ms] tok]. by apply spends_free.
  - intros rs. by apply (spends_free _ 0).
  - rewrite length_fmap. lia.
Qed.

Lemma spends_get_review node query responses exclude_name :
  spends 1 (get_review node query responses exclude_name).
Proof.
  unfold get_review. destruct (filter _ responses); [by apply spends_free|].
  eapply (spends_catch _ _ 1 0).
  - eapply spends_bind; [apply spends_generate_response| |reflexivity].
    intros [[raw ?] ?]. by apply spends_free.
  - intros e. by apply (spends_free _ 0).
  - lia.
Qed.

Lemma spends_get_all_reviews query ops :
  spends (length (CouncilConfig.council_members get_config)) (get_all_reviews query ops).
Proof.
  unfold get_all_reviews. apply spends_then; [done|]. intros bundle.
  eapply spends_bind; [apply spends_gather| |].
  - apply Forall_fmap, Forall_forall. intros node _. apply spends_get_review.
  - intros rs. by apply (spends_free _ 0).
  - rewrite length_fmap. lia.
Qed.

Lemma spends_get_chairman_synthesis query ops reviews rankings :
  spends 1 (get_chairman_synthesis query ops reviews rankings).
Proof.
  unfold get_chairman_synthesis. case_bool_decide.
  - destruct (negb _); [by apply spends_free|].
    eapply spends_bind; [apply spends_post_remote| |reflexivity].
    intros [[[code text] json] dt]. case_bool_decide; [by apply spends_free|].
    apply spends_then; [by destruct json|]. intros data.
    destruct (strict_synthesis data); by apply spends_free.
  - destruct (CouncilConfig.chairman get_config) as [chair|]; [|by apply spends_free].
    eapply spends_bind; [apply spends_generate_response| |reflexivity].
    intros [[text ms] ?]. destruct (split_reply text). by apply spends_free.
Qed.

Lemma keeps_calls_assign a f : keeps calls (assign a f).
Proof. done. Qed.

Lemma keeps_calls_deref a : keeps calls (deref a).
Proof. intros w. unfold deref. by destruct (heap w !! a). Qed.

Lemma keeps_calls_yield a : keeps calls (yield_ a).
Proof. apply keeps_bind; [apply keeps_calls_deref|]. intros s. by apply keeps_update. Qed.

Lemma keeps_calls_mark_error a e : keeps calls (mark_error a e).
Proof. apply keeps_bind; [apply keeps_calls_assign|]. intros _. apply keeps_calls_assign. Qed.

Lemma keeps_calls_create_session query : keeps calls (create_session query).
Proof. done. Qed.

Lemma spends_stage_first_opinions a :
  spends (length (CouncilConfig.council_members get_config)) (_stage_first_opinions a).
Proof.
  unfold _stage_first_opinions.
  apply spends_then; [apply keeps_calls_assign|]. intros _.
  apply spends_then; [apply keeps_calls_deref|]. intros s.
  eapply spends_bind; [apply spends_get_all_first_opinions| |].
  - intros answers. apply (spends_free _ 0), keeps_calls_assign.
  - lia.
Qed.

Lemma spends_stage_reviews a :
  spends (length (CouncilConfig.council_members get_config)) (_stage_reviews a).
Proof.
  unfold _stage_reviews.
  apply spends_then; [apply keeps_calls_deref|]. intros s.
  destruct (CouncilSession.first_opinions s); [by apply spends_free|].
  apply spends_then; [apply keeps_calls_assign|]. intros _.
  eapply spends_bind; [apply spends_get_all_reviews| |].
  - intros [reviews averages]. apply (spends_free _ 0), keeps_calls_assign.
  - lia.
Qed.

Lemma spends_stage_chairman a : spends 1 (_stage_chairman a).
Proof.
  unfold _stage_chairman.
  apply spends_then; [apply keeps_calls_deref|]. intros s.
  destruct (CouncilSession.first_opinions s); [by apply spends_free|].
  apply spends_then; [apply keeps_calls_assign|]. intros _.
  eapply spends_bind; [apply spends_get_chairman_synthesis| |reflexivity].
  intros summary. apply (spends_free _ 0).
  apply keeps_bind; [apply keeps_calls_assign|]. intros _.
  apply keeps_bind; [apply keeps_calls_assign|]. intros _. apply keeps_calls_assign.
Qed.

(** X24. A run, blocking or streaming, only adds to the log of requests,
    and at most two per council member and one more: one per member for
    the opinions, at most one per member for the reviews, at most one for
    the synthesis. That holds whatever the nodes answer and whether the
    run fails or not. *)
Theorem run_request_budget query :
  let n := length (CouncilConfig.council_members get_config) in
  spends (2 * n + 1) (run_full_council query) ∧
  spends (2 * n + 1) (run_council_streaming query).
Proof.
  intros n. split.
  - unfold run_full_council.
    apply spends_then; [done|]. intros t0.
    apply spends_then; [done|]. intros _.
    apply spends_then; [apply keeps_calls_create_session|]. intros a.
    apply spends_finally; [|done]. unfold guarded. eapply spends_catch.
    + eapply spends_bind; [apply spends_stage_first_opinions| |reflexivity]. intros _.
      eapply spends_bind; [apply spends_stage_reviews| |reflexivity]. intros _.
      eapply spends_bind; [apply spends_stage_chairman| |reflexivity]. intros _.
      apply (spends_free _ 0).
      apply keeps_bind; [done|]. intros t1.
      apply keeps_bind; [apply keeps_calls_assign|]. done.
    + intros e. apply (spends_free _ 0).
      apply keeps_bind; [apply keeps_calls_mark_error|]. done.
    + fold n. lia.
  - unfold run_council_streaming.
    apply spends_then; [done|]. intros t0.
    apply spends_then; [done|]. intros _.
    apply spends_then; [apply keeps_calls_create_session|]. intros a.
    apply spends_finally; [|done]. eapply spends_catch.
    + apply spends_then; [apply keeps_calls_yield|]. intros _.
      eapply spends_bind; [apply spends_stage_first_opinions| |reflexivity]. intros _.
      apply spends_then; [apply keeps_calls_yield|]. intros _.
      eapply spends_bind; [apply spends_stage_reviews| |reflexivity]. intros _.
      apply spends_then; [apply keeps_calls_yield|]. intros _.
      eapply spends_bind; [apply spends_stage_chairman| |reflexivity]. intros _.
      apply (spends_free _ 0).
      apply keeps_bind; [done|]. intros t1.
      apply keeps_bind; [apply keeps_calls_assign|]. intros _. apply keeps_calls_yield.
    + intros e. apply (spends_free _ 0).
      apply keeps_bind; [apply keeps_calls_mark_error|]. intros _. apply keeps_calls_yield.
    + fold n. lia.
Qed.

End Budget.

(** ** The further properties at concrete inputs *)

Lemma generate_response_refused_witness :
  chat_backend (Environment:=refusing_environment) (calls empty_world) (chat_url alpha)
    (chat_request alpha demo_query None)
    (CouncilConfig.llm_timeout (get_config (Environment:=refusing_environment)))
    = Answered 503 (py "overloaded") None (Q2Qc 3) ∧
  (generate_response (H0:=refusing_environment) alpha demo_query None empty_world).1 =
    inl (RuntimeError (py "LLM returned status " ++ format_int 503)) ∧
  get_node_status (LLMNode.name alpha)
    (generate_response (H0:=refusing_environment) alpha demo_query None empty_world).2 =
    LLMStatus.ERROR.
Proof.
  assert (503 ≠ 200) as Hcode by discriminate.
  destruct (generate_response_refused (H:=refusing_environment) alpha demo_query None
              empty_world 503 (py "overloaded") None (Q2Qc 3) eq_refl Hcode)
    as (Hraise & _ & Hstatus).
  split; [reflexivity|]. split; [exact Hraise|exact Hstatus].
Defined.

Lemma generate_response_unreachable_witness :
  transport_exception
    (chat_backend (Environment:=silent_environment) (calls empty_world) (chat_url alpha)
       (chat_request alpha demo_query None)
       (CouncilConfig.llm_timeout (get_config (Environment:=silent_environment))))
    = Some (TimeoutException []) ∧
  (generate_response (H0:=silent_environment) alpha demo_query None empty_world).1 =
    inl (TimeoutException []) ∧
  get_node_status (LLMNode.name alpha)
    (generate_response (H0:=silent_environment) alpha demo_query None empty_world).2 =
    LLMStatus.ERROR.
Proof.
  destruct (generate_response_unreachable (H:=silent_environment) alpha demo_query None
              empty_world (TimeoutException []) eq_refl) as (Hraise & _ & Hstatus).
  split; [reflexivity|]. split; [exact Hraise|exact Hstatus].
Defined.


Lemma review_round_accounting_witness :
  demo_round = (inr (round_scores demo_round, round_rankings demo_round), demo_round.2) ∧
  (length (round_scores demo_round) ≤ 2 * length demo_opinions)%nat.
Proof.
  assert (demo_round =
          (inr (round_scores demo_round, round_rankings demo_round), demo_round.2))
    as Hround by (vm_compute; reflexivity).
  split; [exact Hround|].
  exact (proj1 (proj2 (review_round_accounting (H:=ascii_runtime) (H0:=demo_environment)
                         demo_query demo_opinions empty_world _ _ _ Hround))).
Defined.

Lemma rankings_in_range_witness :
  demo_round = (inr (round_scores demo_round, round_rankings demo_round), demo_round.2) ∧
  NoDup (round_rankings demo_round).*1.
Proof.
  assert (demo_round =
          (inr (round_scores demo_round, round_rankings demo_round), demo_round.2))
    as Hround by (vm_compute; reflexivity).
  split; [exact Hround|].
  exact (proj1 (rankings_in_range (H:=ascii_runtime) (H0:=demo_environment)
                  demo_query demo_opinions empty_world _ _ _ Hround)).
Defined.

Lemma local_chairman_unconfigured_witness :
  chairman_mode_of (H:=ascii_runtime) (get_config (Environment:=headless_environment))
    ≠ py "remote" ∧
  CouncilConfig.chairman (get_config (Environment:=headless_environment)) = None ∧
  get_chairman_synthesis (H:=ascii_runtime) (H0:=headless_environment) demo_query
    demo_opinions [] [] empty_world =
    (inl (ValueError (py "No chairman configured")), empty_world).
Proof.
  assert (chairman_mode_of (H:=ascii_runtime) (get_config (Environment:=headless_environment))
            ≠ py "remote") as Hmode by (vm_compute; discriminate).
  split; [exact Hmode|]. split; [reflexivity|].
  exact (local_chairman_unconfigured (H:=ascii_runtime) (H0:=headless_environment)
           demo_query demo_opinions [] [] empty_world Hmode eq_refl).
Defined.



(** The reply of the remote chairman that only uses the aliases is read
    leniently, and the request goes to the base URL without its slash. *)
Example remote_chairman_aliases :
  let run :=
    get_chairman_synthesis (H:=ascii_runtime) (H0:=delegating_environment) demo_query
      demo_opinions [] [] empty_world in
  run.1 = inr (ChairmanSynthesis.mk (py "Remote-Chairman") (py "remote") (py "4")
                 (py "Synthesis returned by remote chairman.") (Q2Qc 40)) ∧
  (λ c, match c with PostRemote url _ _ => url | PostChat url _ _ => url end) <$> calls run.2 =
    [py "http://chair:9000/api/chairman/synthesize"].
Proof. vm_compute. done. Qed.

Lemma create_session_registers_witness :
  registry_ok one_session_world ∧
  total_sessions (create_session (H0:=demo_environment) demo_query one_session_world).2 =
    total_sessions one_session_world ∧
  registry_ok (create_session (H0:=demo_environment) demo_query one_session_world).2.
Proof.
  assert (registry_ok one_session_world) as Hok.
  { constructor; [vm_compute; lia|constructor]. }
  destruct (create_session_registers (H0:=demo_environment) demo_query one_session_world Hok)
    as (_ & _ & Htotal & _ & Hok').
  split; [exact Hok|]. split; [exact Htotal|exact Hok'].
Defined.

Lemma registry_reads_witness :
  registry_ok one_session_world ∧
  length (get_all_sessions one_session_world) = total_sessions one_session_world.
Proof.
  assert (registry_ok one_session_world) as Hok.
  { constructor; [vm_compute; lia|constructor]. }
  split; [exact Hok|].
  exact (proj1 (registry_reads one_session_world Hok)).
Defined.

Lemma health_report_matches_cache_witness :
  NoDup (LLMNode.name <$> probed_nodes (H:=demo_environment)) ∧
  Forall (λ info,
            get_node_status (LLMNodeInfo.name info)
              (check_all_nodes_health (H:=demo_environment) demo_probes empty_world).2 =
            LLMNodeInfo.status info)
    (check_all_nodes_health (H:=demo_environment) demo_probes empty_world).1.
Proof.
  assert (NoDup (LLMNode.name <$> probed_nodes (H:=demo_environment))) as Hdup.
  { apply (bool_decide_unpack _). vm_compute. exact I. }
  split; [exact Hdup|].
  exact (health_report_matches_cache (H:=demo_environment) demo_probes empty_world Hdup).
Defined.

